(** * go-file-scanner: a shallow embedding of the scanning pipeline

    The repository ships two variants of every source file.  They are
    referred to throughout as
    - [VariantA]: the first text in each file ([batchSize = 1000],
      [numWorkers = 20], fields [Name], [ItemPath], ...), and
    - [VariantB]: the second text ([batchSize = 100], [numWorkers = 10],
      fields [FileName], [FilePath], ...).
    Where the two variants agree a single definition covers both; where they
    differ the definition takes the variant as an argument. *)

From Stdlib Require Import ZArith List Bool Lia.
From Stdlib Require Import Strings.String Strings.Ascii Strings.Byte.
From stdpp Require Import gmap strings list.

Import ListNotations.

#[local] Set Warnings "-register-all,-abstract-large-number".

Inductive variant := VariantA | VariantB.

(** Go's [error] values.  [Canceled] is the sentinel [context.Canceled]
    (compared with [==] by the controller), [OsError] stands for an error
    coming from the operating system or the SQL driver, and [Errorf prefix e]
    is [fmt.Errorf(prefix + "%v", e)]. *)
Inductive error :=
| Canceled
| OsError (msg : string)
| Errorf (prefix : string) (cause : error).

(** ** crypto/sha256 and encoding/hex, as used by [processFile] *)

Module Sha256.
Local Open Scope Z_scope.

Definition mask32 : Z := 0xffffffff.
Definition u32 (x : Z) : Z := Z.land x mask32.
Definition add32 (x y : Z) : Z := u32 (x + y).

(** [bits.RotateLeft32(x, -n)] *)
Definition rotr (n x : Z) : Z :=
  Z.lor (Z.shiftr x n) (u32 (Z.shiftl x (32 - n))).

Definition bsig0 (a : Z) : Z := Z.lxor (Z.lxor (rotr 2 a) (rotr 13 a)) (rotr 22 a).
Definition bsig1 (e : Z) : Z := Z.lxor (Z.lxor (rotr 6 e) (rotr 11 e)) (rotr 25 e).
Definition ssig0 (v : Z) : Z := Z.lxor (Z.lxor (rotr 7 v) (rotr 18 v)) (Z.shiftr v 3).
Definition ssig1 (v : Z) : Z := Z.lxor (Z.lxor (rotr 17 v) (rotr 19 v)) (Z.shiftr v 10).
Definition ch (e f g : Z) : Z := Z.lxor (Z.land e f) (Z.land (Z.lxor e mask32) g).
Definition maj (a b c : Z) : Z :=
  Z.lxor (Z.lxor (Z.land a b) (Z.land a c)) (Z.land b c).

(** The round constants [_K], four rounds a row. *)
Definition _K : list Z :=
  [ 0x428a2f98; 0x71374491; 0xb5c0fbcf; 0xe9b5dba5 ] ++
  [ 0x3956c25b; 0x59f111f1; 0x923f82a4; 0xab1c5ed5 ] ++
  [ 0xd807aa98; 0x12835b01; 0x243185be; 0x550c7dc3 ] ++
  [ 0x72be5d74; 0x80deb1fe; 0x9bdc06a7; 0xc19bf174 ] ++
  [ 0xe49b69c1; 0xefbe4786; 0x0fc19dc6; 0x240ca1cc ] ++
  [ 0x2de92c6f; 0x4a7484aa; 0x5cb0a9dc; 0x76f988da ] ++
  [ 0x983e5152; 0xa831c66d; 0xb00327c8; 0xbf597fc7 ] ++
  [ 0xc6e00bf3; 0xd5a79147; 0x06ca6351; 0x14292967 ] ++
  [ 0x27b70a85; 0x2e1b2138; 0x4d2c6dfc; 0x53380d13 ] ++
  [ 0x650a7354; 0x766a0abb; 0x81c2c92e; 0x92722c85 ] ++
  [ 0xa2bfe8a1; 0xa81a664b; 0xc24b8b70; 0xc76c51a3 ] ++
  [ 0xd192e819; 0xd6990624; 0xf40e3585; 0x106aa070 ] ++
  [ 0x19a4c116; 0x1e376c08; 0x2748774c; 0x34b0bcb5 ] ++
  [ 0x391c0cb3; 0x4ed8aa4a; 0x5b9cca4f; 0x682e6ff3 ] ++
  [ 0x748f82ee; 0x78a5636f; 0x84c87814; 0x8cc70208 ] ++
  [ 0x90befffa; 0xa4506ceb; 0xbef9a3f7; 0xc67178f2 ].

(** The eight chaining words [h0 .. h7]. *)
Record digest := Digest {
  h0 : Z; h1 : Z; h2 : Z; h3 : Z; h4 : Z; h5 : Z; h6 : Z; h7 : Z }.

Definition init : digest :=
  Digest 0x6a09e667 0xbb67ae85 0x3c6ef372 0xa54ff53a
         0x510e527f 0x9b05688c 0x1f83d9ab 0x5be0cd19.

(** Big-endian packing of the message bytes into 32-bit words. *)
Fixpoint be_words (p : list Z) : list Z :=
  match p with
  | b0 :: b1 :: b2 :: b3 :: rest =>
      Z.lor (Z.lor (Z.shiftl b0 24) (Z.shiftl b1 16)) (Z.lor (Z.shiftl b2 8) b3)
      :: be_words rest
  | _ => []
  end.

(** The message schedule is kept newest word first: position [i] of the
    list holds [w[t-1-i]] while [w[t]] is computed. *)
Definition next_w (rw : list Z) : Z :=
  let v1 := nth 1 rw 0 in
  let v2 := nth 14 rw 0 in
  add32 (add32 (add32 (ssig1 v1) (nth 6 rw 0)) (ssig0 v2)) (nth 15 rw 0).

Fixpoint extend (n : nat) (rw : list Z) : list Z :=
  match n with
  | O => rw
  | S n' => extend n' (next_w rw :: rw)
  end.

Definition schedule (block : list Z) : list Z :=
  rev (extend 48 (rev block)).

Definition round (s : digest) (kw : Z * Z) : digest :=
  let '(k, w) := kw in
  let t1 := add32 (add32 (add32 (add32 (h7 s) (bsig1 (h4 s)))
                                (ch (h4 s) (h5 s) (h6 s))) k) w in
  let t2 := add32 (bsig0 (h0 s)) (maj (h0 s) (h1 s) (h2 s)) in
  Digest (add32 t1 t2) (h0 s) (h1 s) (h2 s)
         (add32 (h3 s) t1) (h4 s) (h5 s) (h6 s).

Definition block (d : digest) (words : list Z) : digest :=
  let s := fold_left round (combine _K (schedule words)) d in
  Digest (add32 (h0 d) (h0 s)) (add32 (h1 d) (h1 s))
         (add32 (h2 d) (h2 s)) (add32 (h3 d) (h3 s))
         (add32 (h4 d) (h4 s)) (add32 (h5 d) (h5 s))
         (add32 (h6 d) (h6 s)) (add32 (h7 d) (h7 s)).

Fixpoint blocks (n : nat) (d : digest) (words : list Z) : digest :=
  match n with
  | O => d
  | S n' => blocks n' (block d (firstn 16 words)) (skipn 16 words)
  end.

Definition be_bytes (width : nat) (x : Z) : list Z :=
  map (fun i => Z.land (Z.shiftr x (8 * Z.of_nat i)) 0xff) (rev (seq 0 width)).

(** [checkSum]: one [0x80] byte, zero bytes up to 56 modulo 64, then the
    length in bits as a big-endian [uint64]. *)
Definition padding (len : nat) : list Z :=
  let r := (len mod 64)%nat in
  let t := if (r <? 56)%nat then (56 - r)%nat else (64 + 56 - r)%nat in
  0x80 :: repeat 0 (t - 1) ++ be_bytes 8 (Z.land (Z.shiftl (Z.of_nat len) 3)
                                                 0xffffffffffffffff).

Definition sum_bytes (d : digest) : list Z :=
  flat_map (be_bytes 4) [h0 d; h1 d; h2 d; h3 d; h4 d; h5 d; h6 d; h7 d].

(** [hasher := sha256.New(); hasher.Write(p); hasher.Sum(nil)] *)
Definition Sum (p : list byte) : list Z :=
  let msg := map (fun b => Z.of_N (Byte.to_N b)) p in
  let padded := msg ++ padding (length msg) in
  sum_bytes (blocks (length padded / 64) init (be_words padded)).

End Sha256.

Module Hex.
Local Open Scope Z_scope.

Definition hextable : string := "0123456789abcdef".

Definition digit (v : Z) : ascii :=
  match String.get (Z.to_nat v) hextable with
  | Some c => c
  | None => "0"%char
  end.

(** [hex.EncodeToString]: two characters a byte, high nibble first. *)
Fixpoint EncodeToString (src : list Z) : string :=
  match src with
  | [] => EmptyString
  | v :: rest =>
      String (digit (Z.shiftr v 4))
             (String (digit (Z.land v 0x0f)) (EncodeToString rest))
  end.

Definition is_digit (c : ascii) : bool :=
  existsb (Ascii.eqb c) (list_ascii_of_string hextable).

End Hex.

(** ** The metadata extractor: [processFile] (scanner.go) *)

Inductive result (A : Type) :=
| Ok (a : A)
| Err (e : error).
Arguments Ok {A} a.
Arguments Err {A} e.

(** [FileInfo] with the field names of VariantB; VariantA calls the same
    fields [Name], [ItemPath], [PathHash], [Size], [LastModified], [ETag]
    and [Extension]. *)
Record FileInfo := {
  FileName : string;
  FilePath : string;
  PathHash : string;
  FileSize : Z;
  ModTime : Z;
  OtherMetadata : string;
  Extension : string }.

(** What [os.Stat] reports of a file: [Name()], [Size()] and [ModTime()]
    (a time stamp, as nanoseconds). *)
Record FileStat := {
  stat_name : string;
  stat_size : Z;
  stat_mtime : Z }.

(** A file system maps a path to what is stored there: either a file with
    its stat record and its bytes, or an entry whose [stat] fails. *)
Inductive Inode :=
| Stored (st : FileStat) (content : list byte)
| Denied (e : error).

Module Extractor.

Definition os_Stat (fs : gmap string Inode) (name : string) : result FileStat :=
  match fs !! name with
  | Some (Stored st _) => Ok st
  | Some (Denied e) => Err e
  | None => Err (OsError "no such file or directory")
  end.

Definition IsPathSeparator (c : ascii) : bool :=
  Ascii.eqb c "/" || Ascii.eqb c "\".

(** [filepath.Ext]: the loop runs from the last byte towards the first and
    stops at a separator; [suffix] is [path[i+1:]]. *)
Fixpoint ext_scan (rpath : list ascii) (suffix : list ascii) : string :=
  match rpath with
  | [] => EmptyString
  | c :: before =>
      if IsPathSeparator c then EmptyString
      else if Ascii.eqb c "." then string_of_list_ascii (c :: suffix)
      else ext_scan before (c :: suffix)
  end.

Definition Ext (path : string) : string :=
  ext_scan (rev (list_ascii_of_string path)) [].

Definition processFile (fs : gmap string Inode) (filePath : string)
  : result FileInfo :=
  match os_Stat fs filePath with
  | Err err => Err (Errorf "error getting file info: " err)
  | Ok info =>
      let pathHash :=
        Hex.EncodeToString (Sha256.Sum (list_byte_of_string filePath)) in
      Ok {| FileName := stat_name info;
            FilePath := filePath;
            PathHash := pathHash;
            FileSize := stat_size info;
            ModTime := stat_mtime info;
            OtherMetadata := EmptyString;
            Extension := Ext filePath |}
  end.

End Extractor.

(** ** The resumable scan state (database.go, [ScanState]) *)

(** [FilesScanned] is a Go [map[string]bool]: reading an absent key gives
    [false].  A nil map reads like the empty one, and the Start handler
    replaces a nil map by an empty one before any write. *)
Record ScanState := {
  FolderPath : string;
  FilesScanned : gmap string bool;
  LastModified : Z }.

Definition scanned (files : gmap string bool) (path : string) : bool :=
  default false (files !! path).

(** ** The directory walker (scanner.go, third goroutine of [scanFolder]) *)

(** The tree as [filepath.WalkDir] reports it: every node carries the path
    handed to the callback.  A directory may fail to be read ([readErr]); the
    entries listed are then the ones [os.ReadDir] could still return. *)
Inductive DirTree :=
| File (path : string)
| Dir (path : string) (readErr : option error) (entries : list DirTree).

(** The root of a walk: [os.Lstat] of the root may fail. *)
Inductive WalkRoot :=
| RootError (path : string) (e : error)
| RootTree (d : DirTree).

(** One call of the callback: [fn(path, d, err)]. *)
Record Visit := {
  v_path : string;
  v_isDir : bool;
  v_err : option error }.

Module WalkDir.
Section Generic.
Context {S : Type}.
Variable fn : Visit -> S -> S * option error.

(** [walkDir] of path/filepath, for a callback that never answers
    [SkipDir] or [SkipAll] (the one of this program does not). *)
Fixpoint walkDir (d : DirTree) (s : S) : S * option error :=
  match d with
  | File path => fn {| v_path := path; v_isDir := false; v_err := None |} s
  | Dir path readErr entries =>
      let '(s1, err) := fn {| v_path := path; v_isDir := true; v_err := None |} s in
      match err with
      | Some e => (s1, Some e)
      | None =>
          let '(s2, err2) :=
            match readErr with
            | Some e => fn {| v_path := path; v_isDir := true; v_err := Some e |} s1
            | None => (s1, None)
            end in
          match err2 with
          | Some e => (s2, Some e)
          | None =>
              (fix each (dirs : list DirTree) (s : S) : S * option error :=
                 match dirs with
                 | [] => (s, None)
                 | d1 :: rest =>
                     let '(s', err1) := walkDir d1 s in
                     match err1 with
                     | Some e => (s', Some e)
                     | None => each rest s'
                     end
                 end) entries s2
          end
      end
  end.

Definition WalkDir (root : WalkRoot) (s : S) : S * option error :=
  match root with
  | RootError path e => fn {| v_path := path; v_isDir := false; v_err := Some e |} s
  | RootTree d => walkDir d s
  end.

(** The same walk as a loop over the calls it makes, in order. *)
Fixpoint run (vs : list Visit) (s : S) : S * option error :=
  match vs with
  | [] => (s, None)
  | v :: rest =>
      let '(s', err) := fn v s in
      match err with
      | Some e => (s', Some e)
      | None => run rest s'
      end
  end.

End Generic.

Fixpoint visits (d : DirTree) : list Visit :=
  match d with
  | File path => [ {| v_path := path; v_isDir := false; v_err := None |} ]
  | Dir path readErr entries =>
      {| v_path := path; v_isDir := true; v_err := None |}
      :: match readErr with
         | Some e => [ {| v_path := path; v_isDir := true; v_err := Some e |} ]
         | None => []
         end
      ++ List.flat_map visits entries
  end.

Definition root_visits (root : WalkRoot) : list Visit :=
  match root with
  | RootError path e => [ {| v_path := path; v_isDir := false; v_err := Some e |} ]
  | RootTree d => visits d
  end.

End WalkDir.

Module Walker.

Inductive Event :=
| Log (path : string) (e : error)
| Lock
| Unlock
| Mark (path : string)
| Emit (path : string).

(** How one call of the callback ends: it returns, or it reaches the
    [select] that offers [path] to [fileChan]. *)
Inductive Outcome :=
| Return (err : option error)
| Select (path : string).

(** The callback up to its [select]. *)
Definition walkFn (var : variant) (v : Visit) (files : gmap string bool)
  : gmap string bool * list Event * Outcome :=
  match v_err v with
  | Some err =>
      (files, [Log (v_path v) err],
       Return match var with
              | VariantA => Some err
              | VariantB => None
              end)
  | None =>
      if v_isDir v then (files, [], Return None)
      else if scanned files (v_path v) then (files, [Lock; Unlock], Return None)
      else (<[v_path v := true]> files, [Lock; Mark (v_path v); Unlock],
            Select (v_path v))
  end.

(** Which case of a [select] is taken. *)
Inductive Choice := CtxDone | Send.

(** The walker run on its own: [choices] resolves the [select]s in order
    (the send goes through once the list is used up). *)
Record State := {
  files : gmap string bool;
  trace : list Event;
  choices : list Choice }.

Definition callback (var : variant) (v : Visit) (st : State)
  : State * option error :=
  let '(files', evs, out) := walkFn var v (files st) in
  match out with
  | Return err =>
      ({| files := files'; trace := trace st ++ evs; choices := choices st |}, err)
  | Select path =>
      match choices st with
      | CtxDone :: later =>
          ({| files := files'; trace := trace st ++ evs; choices := later |},
           Some Canceled)
      | Send :: later =>
          ({| files := files'; trace := trace st ++ evs ++ [Emit path];
              choices := later |}, None)
      | [] =>
          ({| files := files'; trace := trace st ++ evs ++ [Emit path];
              choices := [] |}, None)
      end
  end.

Definition walk (var : variant) (root : WalkRoot) (st : State)
  : State * option error :=
  WalkDir.WalkDir (callback var) root st.

(** What the goroutine offers to [errChan] after the walk. *)
Definition report (err : option error) : option error :=
  match err with
  | Some e => Some (Errorf "error walking directory: " e)
  | None => None
  end.

Definition emitted (evs : list Event) : list string :=
  List.flat_map (fun ev => match ev with Emit p => [p] | _ => [] end) evs.

Definition marked (evs : list Event) : list string :=
  List.flat_map (fun ev => match ev with Mark p => [p] | _ => [] end) evs.

Definition logged (evs : list Event) : list string :=
  List.flat_map (fun ev => match ev with Log p _ => [p] | _ => [] end) evs.

End Walker.

(** ** A worker of the pool (scanner.go, first goroutines of [scanFolder]) *)

Module Worker.

Inductive Event :=
| Log (path : string) (e : error)
| Escalate (e : error)
| Forward (r : FileInfo)
| Scanned.

Inductive Exit :=
| Drained
| Cancelled
| Failed (e : error).

(** The [default] branch of the worker's [select]: what it does with one
    path, and whether it leaves its loop. *)
Definition handle (var : variant) (fs : gmap string Inode) (filePath : string)
  : list Event * option Exit :=
  match Extractor.processFile fs filePath with
  | Err err =>
      match var with
      | VariantA => ([Log filePath err; Escalate err], Some (Failed err))
      | VariantB => ([Log filePath err], None)
      end
  | Ok fileInfo => ([Forward fileInfo; Scanned], None)
  end.

(** The worker run on its own over the paths it receives until [fileChan]
    is closed.  [cancelAfter = Some n]: the context is done when the worker
    reaches its [n]-th next iteration. *)
Fixpoint loop (var : variant) (fs : gmap string Inode)
    (cancelAfter : option nat) (paths : list string) : list Event * Exit :=
  match paths with
  | [] => ([], Drained)
  | filePath :: rest =>
      match cancelAfter with
      | Some O => ([], Cancelled)
      | _ =>
          let '(evs, exit) := handle var fs filePath in
          match exit with
          | Some x => (evs, x)
          | None =>
              let '(evs', x) := loop var fs (pred <$> cancelAfter) rest in
              (evs ++ evs', x)
          end
      end
  end.

Definition forwarded (evs : list Event) : list FileInfo :=
  List.flat_map (fun ev => match ev with Forward r => [r] | _ => [] end) evs.

Definition failures (evs : list Event) : list string :=
  List.flat_map (fun ev => match ev with Log p _ => [p] | _ => [] end) evs.

Definition escalated (evs : list Event) : list error :=
  List.flat_map (fun ev => match ev with Escalate e => [e] | _ => [] end) evs.

End Worker.

(** ** The progress counters (scanner.go, [totalFilesScanned] and
    [totalFilesWritten]) *)

(** An [int64] holding the integer [z]. *)
Definition wrap64 (z : Z) : Z := ((z + 2 ^ 63) mod 2 ^ 64 - 2 ^ 63)%Z.

(** [atomic.AddInt64] *)
Definition AddInt64 (counter delta : Z) : Z := wrap64 (counter + delta).

(** ** The persistence collaborator (database.go) *)

Module Database.
Local Open Scope Z_scope.

Record Row := {
  Id : Z;
  fields : FileInfo }.

(** A table: its rows and the next [IDENTITY] value.  [unique_path_hash]
    records whether the table was created with [path_hash ... UNIQUE]
    (VariantB) or without any key but [Id] (VariantA). *)
Record Table := {
  rows : list Row;
  identity : Z;
  unique_path_hash : bool }.

(** The server: its tables, and for each coming [Exec] whether the
    connection fails it (none fails once [faults] is used up). *)
Record DB := {
  tables : gmap string Table;
  faults : list bool }.

(** The two statements [batchInsert] sends.  VariantA:
    [INSERT INTO t (...) VALUES (...),... ON DUPLICATE KEY UPDATE ...];
    VariantB: [MERGE INTO t AS target USING (VALUES ...) AS source
    ON target.path_hash = source.path_hash WHEN MATCHED THEN UPDATE SET ...
    WHEN NOT MATCHED THEN INSERT ...]. *)
Inductive Statement :=
| InsertOnDuplicateKeyUpdate (table : string) (values : list FileInfo)
| MergeOnPathHash (table : string) (values : list FileInfo).

Definition same_hash (a b : FileInfo) : bool :=
  String.eqb (PathHash a) (PathHash b).

(** [UPDATE SET]: every column of the source row but [path_hash]. *)
Definition update (target : Row) (source : FileInfo) : Row :=
  {| Id := Id target;
     fields := {| FileName := FileName source;
                  FilePath := FilePath source;
                  PathHash := PathHash (fields target);
                  FileSize := FileSize source;
                  ModTime := ModTime source;
                  OtherMetadata := OtherMetadata source;
                  Extension := Extension source |} |}.

Definition merge_row (values : list FileInfo) (target : Row) : result Row :=
  match List.filter (fun s => same_hash s (fields target)) values with
  | [] => Ok target
  | [source] => Ok (update target source)
  | _ => Err (OsError "The MERGE statement attempted to UPDATE or DELETE the same row more than once.")
  end.

Fixpoint merge_rows (values : list FileInfo) (targets : list Row)
  : result (list Row) :=
  match targets with
  | [] => Ok []
  | t :: rest =>
      match merge_row values t with
      | Err e => Err e
      | Ok t' =>
          match merge_rows values rest with
          | Err e => Err e
          | Ok rest' => Ok (t' :: rest')
          end
      end
  end.

Definition matched (targets : list Row) (source : FileInfo) : bool :=
  existsb (fun t => same_hash source (fields t)) targets.

Fixpoint insert_rows (id : Z) (values : list FileInfo) : list Row :=
  match values with
  | [] => []
  | s :: rest => {| Id := id; fields := s |} :: insert_rows (id + 1) rest
  end.

Fixpoint distinct (keys : list string) : bool :=
  match keys with
  | [] => true
  | k :: rest => negb (existsb (String.eqb k) rest) && distinct rest
  end.

Definition hashes (rs : list Row) : list string :=
  map (fun r => PathHash (fields r)) rs.

(** The MERGE as the server runs it: the source rows are joined with the
    table as it stands, matched rows are updated, unmatched source rows are
    inserted, and the statement is rolled back as a whole on an error.
    What the server checks besides is not modelled: each value against the
    width and the precision of its column, the number of parameters of one
    statement, and the collation under which [path_hash] is compared
    ([merge] compares byte by byte and refuses a statement for a collision
    of keys only). *)
Definition merge (t : Table) (values : list FileInfo) : result Table :=
  match merge_rows values (rows t) with
  | Err e => Err e
  | Ok updated =>
      let fresh := List.filter (fun s => negb (matched (rows t) s)) values in
      let rows' := updated ++ insert_rows (identity t) fresh in
      if unique_path_hash t && negb (distinct (hashes rows'))
      then Err (OsError "Violation of UNIQUE KEY constraint.")
      else Ok {| rows := rows';
                 identity := identity t + Z.of_nat (length fresh);
                 unique_path_hash := unique_path_hash t |}
  end.

(** [db.Exec] against SQL Server, the only driver the program opens. *)
Definition Exec (db : DB) (stmt : Statement) : DB * option error :=
  let db1 := {| tables := tables db; faults := tl (faults db) |} in
  match faults db with
  | true :: _ => (db1, Some (OsError "connection lost"))
  | _ =>
      match stmt with
      | InsertOnDuplicateKeyUpdate _ _ =>
          (db1, Some (OsError "Incorrect syntax near the keyword 'ON'."))
      | MergeOnPathHash name values =>
          match tables db !! name with
          | None => (db1, Some (OsError "Invalid object name."))
          | Some t =>
              match merge t values with
              | Err e => (db1, Some e)
              | Ok t' =>
                  ({| tables := <[name := t']> (tables db);
                      faults := tl (faults db) |}, None)
              end
          end
      end
  end.

Definition batchInsert (var : variant) (db : DB) (tableName : string)
    (files : list FileInfo) : DB * option error :=
  if (length files =? 0)%nat then (db, None)
  else
    match var with
    | VariantA =>
        let '(db', err) := Exec db (InsertOnDuplicateKeyUpdate tableName files) in
        match err with
        | Some e => (db', Some (Errorf "error batch inserting: " e))
        | None => (db', None)
        end
    | VariantB =>
        let '(db', err) := Exec db (MergeOnPathHash tableName files) in
        match err with
        | Some e => (db', Some (Errorf "error batch merging: " e))
        | None => (db', None)
        end
    end.

(** [createTable] *)
Definition empty_table (var : variant) : Table :=
  {| rows := []; identity := 1;
     unique_path_hash := match var with VariantA => false | VariantB => true end |}.

End Database.

(** ** The batch sink stage (scanner.go, second goroutine of [scanFolder]) *)

Definition batchSize (var : variant) : nat :=
  match var with
  | VariantA => 1000
  | VariantB => 100
  end.

Definition numWorkers (var : variant) : nat :=
  match var with
  | VariantA => 20
  | VariantB => 10
  end.

Module Sink.

Inductive Event :=
| Recv (r : FileInfo)
| Flush (batch : list FileInfo) (err : option error)
| Written (n : Z)
| Report (e : error).

Section WithStore.
Context {DB : Type}.
Variable batchInsert : DB -> string -> list FileInfo -> DB * option error.

Record State := {
  batch : list FileInfo;
  db : DB;
  totalFilesWritten : Z;
  trace : list Event }.

(** What the stage offers to [errChan] when a flush fails. *)
Definition wrap (var : variant) (final : bool) (err : error) : error :=
  match var with
  | VariantA => err
  | VariantB =>
      if final then Errorf "error batch inserting final batch: " err
      else Errorf "error batch inserting: " err
  end.

(** One call of [batchInsert] on the whole batch, and the counter update
    that follows a success. *)
Definition flush (var : variant) (tableName : string) (final : bool)
    (b : list FileInfo) (st : State) : State * option error :=
  let '(db', err) := batchInsert (db st) tableName b in
  match err with
  | Some e =>
      ({| batch := b; db := db'; totalFilesWritten := totalFilesWritten st;
          trace := trace st ++ [Flush b (Some e); Report (wrap var final e)] |},
       Some (wrap var final e))
  | None =>
      ({| batch := if final then b else [];
          db := db';
          totalFilesWritten :=
            AddInt64 (totalFilesWritten st) (Z.of_nat (length b));
          trace := trace st ++ [Flush b None; Written (Z.of_nat (length b))] |},
       None)
  end.

(** The body of [for fileInfo := range resultChan]. *)
Definition receive (var : variant) (tableName : string) (fileInfo : FileInfo)
    (st : State) : State * option error :=
  let b := batch st ++ [fileInfo] in
  let st1 := {| batch := b; db := db st;
                totalFilesWritten := totalFilesWritten st;
                trace := trace st ++ [Recv fileInfo] |} in
  if (batchSize var <=? length b)%nat then flush var tableName false b st1
  else (st1, None).

(** After the loop: [if len(batch) > 0 { ... }]. *)
Definition finish (var : variant) (tableName : string) (st : State)
  : State * option error :=
  if (0 <? length (batch st))%nat then flush var tableName true (batch st) st
  else (st, None).

(** The stage run on its own over the records it receives until
    [resultChan] is closed. *)
Fixpoint loop (var : variant) (tableName : string) (records : list FileInfo)
    (st : State) : State * option error :=
  match records with
  | [] => finish var tableName st
  | fileInfo :: rest =>
      let '(st', err) := receive var tableName fileInfo st in
      match err with
      | Some e => (st', Some e)
      | None => loop var tableName rest st'
      end
  end.

Definition start (d : DB) : State :=
  {| batch := []; db := d; totalFilesWritten := 0; trace := [] |}.

End WithStore.

Definition received (evs : list Event) : list FileInfo :=
  List.flat_map (fun ev => match ev with Recv r => [r] | _ => [] end) evs.

(** The batches handed to [batchInsert], in order. *)
Definition flushed (evs : list Event) : list (list FileInfo) :=
  List.flat_map (fun ev => match ev with Flush b _ => [b] | _ => [] end) evs.

(** The batches [batchInsert] accepted. *)
Definition stored (evs : list Event) : list (list FileInfo) :=
  List.flat_map (fun ev => match ev with Flush b None => [b] | _ => [] end) evs.

(** The calls of [batchInsert] the stage made, each with its answer. *)
Definition calls (evs : list Event) : list (list FileInfo * option error) :=
  List.flat_map (fun ev => match ev with Flush b err => [(b, err)] | _ => [] end)
    evs.

Definition increments (evs : list Event) : list Z :=
  List.flat_map (fun ev => match ev with Written n => [n] | _ => [] end) evs.

(** [l] cut into pieces of [n] elements, the last one possibly shorter;
    [cur] is the piece being filled. *)
Fixpoint chunks_from {A} (n : nat) (cur : list A) (l : list A) : list (list A) :=
  match l with
  | [] => match cur with [] => [] | _ => [cur] end
  | x :: rest =>
      if (n <=? length (cur ++ [x]))%nat then (cur ++ [x]) :: chunks_from n [] rest
      else chunks_from n (cur ++ [x]) rest
  end.

Definition chunks {A} (n : nat) (l : list A) : list (list A) := chunks_from n [] l.

End Sink.

(** ** The controller's handlers (database.go, [main]) *)

Module Controller.

(** The state file [scan_state.gob] in the application's data directory. *)
Record Disk := {
  scan_state_gob : option ScanState;
  writable : bool }.

Record App := {
  scanState : ScanState;
  scanning : bool;
  paused : bool;
  status : string;
  disk : Disk;
  problems : list error }.

Definition set_disk (d : Disk) (app : App) : App :=
  {| scanState := scanState app; scanning := scanning app; paused := paused app;
     status := status app; disk := d; problems := problems app |}.

Definition saveScanState (app : App) : App * option error :=
  if writable (disk app)
  then (set_disk {| scan_state_gob := Some (scanState app);
                    writable := true |} app, None)
  else (app, Some (Errorf "error creating scan state file: "
                          (OsError "permission denied"))).

(** [decoder.Decode(&scanState)] fills the value it is given.  A gob
    stream leaves out the fields that hold the zero value of their type, so
    an empty [FolderPath] or a zero [LastModified] in the file keeps what
    the value held; the entries of the stored map are written into the map
    already there. *)
Definition gob_decode_into (stored held : ScanState) : ScanState :=
  {| FolderPath := if String.eqb (FolderPath stored) EmptyString
                   then FolderPath held else FolderPath stored;
     FilesScanned := FilesScanned stored ∪ FilesScanned held;
     LastModified := if Z.eqb (LastModified stored) 0
                     then LastModified held else LastModified stored |}.

Definition loadScanState (app : App) : App * option error :=
  match scan_state_gob (disk app) with
  | None => (app, None)
  | Some stored =>
      ({| scanState := gob_decode_into stored (scanState app);
          scanning := scanning app; paused := paused app; status := status app;
          disk := disk app; problems := problems app |}, None)
  end.

Definition scanStateExists (app : App) : bool :=
  match scan_state_gob (disk app) with
  | Some _ => true
  | None => false
  end.

Definition deleteScanState (app : App) : App * option error :=
  match scan_state_gob (disk app) with
  | None => (app, None)
  | Some _ =>
      if writable (disk app)
      then (set_disk {| scan_state_gob := None; writable := true |} app, None)
      else (app, Some (Errorf "error deleting scan state file: "
                              (OsError "permission denied")))
  end.

Definition note (err : option error) (app : App) : App :=
  match err with
  | None => app
  | Some e =>
      {| scanState := scanState app; scanning := scanning app;
         paused := paused app; status := status app; disk := disk app;
         problems := problems app ++ [e] |}
  end.

Definition set_status (msg : string) (app : App) : App :=
  {| scanState := scanState app; scanning := scanning app; paused := paused app;
     status := msg; disk := disk app; problems := problems app |}.

Definition set_scanning (b : bool) (app : App) : App :=
  {| scanState := scanState app; scanning := b; paused := paused app;
     status := status app; disk := disk app; problems := problems app |}.

(** The goroutine started by the Start handler, from the return of
    [scanFolder] on: [err] is what [scanFolder] returned. *)
Definition scanFinished (err : option error) (app : App) : App :=
  let app1 :=
    match err with
    | Some Canceled => set_status "Status: Scan stopped" app
    | Some _ => set_status "Error during scan" app
    | None => set_status "Status: Scan completed successfully" app
    end in
  let '(app2, e1) := saveScanState app1 in
  let app3 := set_scanning false (note e1 app2) in
  let '(app4, e2) := deleteScanState app3 in
  note e2 app4.

(** The Start handler up to the launch of [scanFolder]: the scan state the
    walker is going to consult. *)
Definition startScan (folderPath : string) (app : App) : App :=
  let '(app1, e) := loadScanState (set_status "Status: Scanning" app) in
  let app2 := note e app1 in
  {| scanState := {| FolderPath := folderPath;
                     FilesScanned := FilesScanned (scanState app2);
                     LastModified := LastModified (scanState app2) |};
     scanning := true; paused := false; status := status app2;
     disk := disk app2; problems := problems app2 |}.

End Controller.

(** ** [scanFolder]: the goroutines and the channels between them *)

Module ScanFolder.

(** A buffered channel. *)
Record Chan (A : Type) := MkChan {
  buf : list A;
  closed : bool }.
Arguments MkChan {A} buf closed.
Arguments buf {A} c.
Arguments closed {A} c.

Inductive SendResult (A : Type) :=
| SendBlocked
| SendPanics
| SendOk (c : Chan A).
Arguments SendBlocked {A}.
Arguments SendPanics {A}.
Arguments SendOk {A} c.

Inductive RecvResult (A : Type) :=
| RecvBlocked
| RecvClosed
| RecvOk (x : A) (c : Chan A).
Arguments RecvBlocked {A}.
Arguments RecvClosed {A}.
Arguments RecvOk {A} x c.

Definition send {A} (capacity : nat) (c : Chan A) (x : A) : SendResult A :=
  if closed c then SendPanics
  else if (length (buf c) <? capacity)%nat
       then SendOk (MkChan (buf c ++ [x]) false)
       else SendBlocked.

Definition recv {A} (c : Chan A) : RecvResult A :=
  match buf c with
  | x :: rest => RecvOk x (MkChan rest (closed c))
  | [] => if closed c then RecvClosed else RecvBlocked
  end.

(** [close(c)]: [None] is the run-time panic "close of closed channel". *)
Definition close {A} (c : Chan A) : option (Chan A) :=
  if closed c then None else Some (MkChan (buf c) true).

(** [select { case c <- x: default: }] on a channel nobody closes. *)
Definition try_send {A} (capacity : nat) (c : Chan A) (x : A) : Chan A :=
  match send capacity c x with
  | SendOk c' => c'
  | _ => c
  end.

Definition fileChan_cap : nat := 10000.
Definition resultChan_cap : nat := 10000.
Definition errChan_cap : nat := 1.

(** Where each goroutine stands.  A worker: at [range fileChan]; asleep
    in the [for paused] loop; at its [select]; at [resultChan <- fileInfo];
    at the counter update; returned ([wg.Done()] has run). *)
Inductive WorkerPc :=
| WRange
| WSleep (filePath : string)
| WSelect (filePath : string)
| WForward (fileInfo : FileInfo)
| WCount
| WDone.

(** The batch stage: at [range resultChan]; at a blocking
    [errChan <- ...] (VariantB); at its deferred [close(resultChan)];
    returned. *)
Inductive SinkPc :=
| SRange
| SReport (e : error)
| SClose
| SDone.

(** The walker: between two calls of the callback, [todo] being the calls
    still to make; at the [select] of the callback; at a blocking
    [errChan <- ...] (VariantB); at its deferred [close(fileChan)];
    returned. *)
Inductive WalkerPc :=
| KWalk (todo : list Visit)
| KSelect (path : string) (todo : list Visit)
| KReport (e : error)
| KClose
| KDone.

(** The waiter: at [wg.Wait()]; past its [close(resultChan)]. *)
Inductive WaiterPc :=
| TWait
| TDone.

(** [scanFolder] itself: at its final [select]; returned. *)
Inductive MainPc :=
| MSelect
| MReturned (err : option error).

Inductive Panic :=
| CloseOfClosedChannel
| SendOnClosedChannel
| NilPointerDereference.

(** The state of a scan: the context and the pause flag, the three
    channels, the goroutines, the processed-path set, the counters, and what
    the walker and the workers have done so far.  The channels and the
    goroutines belong to this call of [scanFolder]; [paused], the
    processed-path set [files] and the two counters ([totalFilesScanned]
    here, [totalFilesWritten] in [sinkState]) are package variables, which
    goroutines outside this call read and write too (see [Elsewhere]). *)
Record State := {
  ctxDone : bool;
  paused : bool;
  fileChan : Chan string;
  resultChan : Chan FileInfo;
  errChan : Chan error;
  workers : list WorkerPc;
  sink : SinkPc;
  sinkState : @Sink.State Database.DB;
  walker : WalkerPc;
  files : gmap string bool;
  walked : list Walker.Event;
  waiter : WaiterPc;
  main : MainPc;
  totalFilesScanned : Z;
  worked : list Worker.Event;
  panic : option Panic }.

Definition with_ctxDone (b : bool) (s : State) : State :=
  {| ctxDone := b; paused := paused s; fileChan := fileChan s;
     resultChan := resultChan s; errChan := errChan s; workers := workers s;
     sink := sink s; sinkState := sinkState s; walker := walker s;
     files := files s; walked := walked s; waiter := waiter s; main := main s;
     totalFilesScanned := totalFilesScanned s; worked := worked s;
     panic := panic s |}.

Definition with_paused (b : bool) (s : State) : State :=
  {| ctxDone := ctxDone s; paused := b; fileChan := fileChan s;
     resultChan := resultChan s; errChan := errChan s; workers := workers s;
     sink := sink s; sinkState := sinkState s; walker := walker s;
     files := files s; walked := walked s; waiter := waiter s; main := main s;
     totalFilesScanned := totalFilesScanned s; worked := worked s;
     panic := panic s |}.

Definition with_fileChan (c : Chan string) (s : State) : State :=
  {| ctxDone := ctxDone s; paused := paused s; fileChan := c;
     resultChan := resultChan s; errChan := errChan s; workers := workers s;
     sink := sink s; sinkState := sinkState s; walker := walker s;
     files := files s; walked := walked s; waiter := waiter s; main := main s;
     totalFilesScanned := totalFilesScanned s; worked := worked s;
     panic := panic s |}.

Definition with_resultChan (c : Chan FileInfo) (s : State) : State :=
  {| ctxDone := ctxDone s; paused := paused s; fileChan := fileChan s;
     resultChan := c; errChan := errChan s; workers := workers s;
     sink := sink s; sinkState := sinkState s; walker := walker s;
     files := files s; walked := walked s; waiter := waiter s; main := main s;
     totalFilesScanned := totalFilesScanned s; worked := worked s;
     panic := panic s |}.

Definition with_errChan (c : Chan error) (s : State) : State :=
  {| ctxDone := ctxDone s; paused := paused s; fileChan := fileChan s;
     resultChan := resultChan s; errChan := c; workers := workers s;
     sink := sink s; sinkState := sinkState s; walker := walker s;
     files := files s; walked := walked s; waiter := waiter s; main := main s;
     totalFilesScanned := totalFilesScanned s; worked := worked s;
     panic := panic s |}.

Definition with_worker (i : nat) (pc : WorkerPc) (evs : list Worker.Event)
    (s : State) : State :=
  {| ctxDone := ctxDone s; paused := paused s; fileChan := fileChan s;
     resultChan := resultChan s; errChan := errChan s;
     workers := <[i := pc]> (workers s);
     sink := sink s; sinkState := sinkState s; walker := walker s;
     files := files s; walked := walked s; waiter := waiter s; main := main s;
     totalFilesScanned := totalFilesScanned s; worked := worked s ++ evs;
     panic := panic s |}.

Definition with_sink (pc : SinkPc) (st : @Sink.State Database.DB) (s : State)
  : State :=
  {| ctxDone := ctxDone s; paused := paused s; fileChan := fileChan s;
     resultChan := resultChan s; errChan := errChan s; workers := workers s;
     sink := pc; sinkState := st; walker := walker s;
     files := files s; walked := walked s; waiter := waiter s; main := main s;
     totalFilesScanned := totalFilesScanned s; worked := worked s;
     panic := panic s |}.

Definition with_walker (pc : WalkerPc) (fl : gmap string bool)
    (evs : list Walker.Event) (s : State) : State :=
  {| ctxDone := ctxDone s; paused := paused s; fileChan := fileChan s;
     resultChan := resultChan s; errChan := errChan s; workers := workers s;
     sink := sink s; sinkState := sinkState s; walker := pc;
     files := fl; walked := walked s ++ evs; waiter := waiter s; main := main s;
     totalFilesScanned := totalFilesScanned s; worked := worked s;
     panic := panic s |}.

Definition with_waiter (pc : WaiterPc) (s : State) : State :=
  {| ctxDone := ctxDone s; paused := paused s; fileChan := fileChan s;
     resultChan := resultChan s; errChan := errChan s; workers := workers s;
     sink := sink s; sinkState := sinkState s; walker := walker s;
     files := files s; walked := walked s; waiter := pc; main := main s;
     totalFilesScanned := totalFilesScanned s; worked := worked s;
     panic := panic s |}.

Definition with_main (pc : MainPc) (s : State) : State :=
  {| ctxDone := ctxDone s; paused := paused s; fileChan := fileChan s;
     resultChan := resultChan s; errChan := errChan s; workers := workers s;
     sink := sink s; sinkState := sinkState s; walker := walker s;
     files := files s; walked := walked s; waiter := waiter s; main := pc;
     totalFilesScanned := totalFilesScanned s; worked := worked s;
     panic := panic s |}.

Definition with_scanned (n : Z) (s : State) : State :=
  {| ctxDone := ctxDone s; paused := paused s; fileChan := fileChan s;
     resultChan := resultChan s; errChan := errChan s; workers := workers s;
     sink := sink s; sinkState := sinkState s; walker := walker s;
     files := files s; walked := walked s; waiter := waiter s; main := main s;
     totalFilesScanned := n; worked := worked s; panic := panic s |}.

Definition with_panic (p : Panic) (s : State) : State :=
  {| ctxDone := ctxDone s; paused := paused s; fileChan := fileChan s;
     resultChan := resultChan s; errChan := errChan s; workers := workers s;
     sink := sink s; sinkState := sinkState s; walker := walker s;
     files := files s; walked := walked s; waiter := waiter s; main := main s;
     totalFilesScanned := totalFilesScanned s; worked := worked s;
     panic := Some p |}.

Definition with_files (fl : gmap string bool) (s : State) : State :=
  {| ctxDone := ctxDone s; paused := paused s; fileChan := fileChan s;
     resultChan := resultChan s; errChan := errChan s; workers := workers s;
     sink := sink s; sinkState := sinkState s; walker := walker s;
     files := fl; walked := walked s; waiter := waiter s; main := main s;
     totalFilesScanned := totalFilesScanned s; worked := worked s;
     panic := panic s |}.

Definition with_written (n : Z) (s : State) : State :=
  with_sink (sink s)
    {| Sink.batch := Sink.batch (sinkState s); Sink.db := Sink.db (sinkState s);
       Sink.totalFilesWritten := n; Sink.trace := Sink.trace (sinkState s) |} s.

(** What a scan is started on: the file system, the table name and the
    folder, and whether the [*sql.DB] handed to [scanFolder] is a
    connection ([connected]) or nil, as it is when Start is enabled by the
    resume dialog before any Connect. *)
Record Env := {
  fs : gmap string Inode;
  tableName : string;
  root : WalkRoot;
  connected : bool }.

(** The scan when [scanFolder] has made its channels, reset the two
    counters and started its goroutines.  [db] is the server behind the
    handle; a scan whose handle is nil ([connected env = false]) never
    reaches it. *)
Definition init (var : variant) (env : Env) (scanState : ScanState)
    (db : Database.DB) : State :=
  {| ctxDone := false; paused := false;
     fileChan := MkChan [] false;
     resultChan := MkChan [] false;
     errChan := MkChan [] false;
     workers := repeat WRange (numWorkers var);
     sink := SRange; sinkState := Sink.start db;
     walker := KWalk (WalkDir.root_visits (root env));
     files := FilesScanned scanState; walked := [];
     waiter := TWait; main := MSelect;
     totalFilesScanned := 0; worked := []; panic := None |}.

(** Which ready case the [select] of [scanFolder] itself takes. *)
Inductive MainChoice := OnCtx | OnErr | OnResult.

(** What goroutines outside this call do to the package variables while
    it runs.  [scanFolder] returns without waiting for its goroutines, so
    those of an earlier call may still be at work, and a later call may
    start: its two [atomic.StoreInt64(..., 0)], the
    [atomic.AddInt64(&totalFilesScanned, 1)] of another call's worker, the
    [atomic.AddInt64(&totalFilesWritten, n)] of another call's batch stage,
    and the [scanState.FilesScanned[path] = true] of another call's
    walker, or of the [loadScanState] of a later Start, which writes the
    entries of the state file into the map (a file [saveScanState] wrote
    holds paths marked true only).  The Start handler writes the map
    outside [scanStateLock]; the fatal error with which the Go run time may
    stop the program when it detects such an access is not a panic and is
    not modelled. *)
Inductive Elsewhere :=
| ResetScanned
| ResetWritten
| CountScanned
| CountWritten (n : Z)
| MarkProcessed (path : string).

(** One move of the scheduler, of the operator, or of a goroutine outside
    this call. *)
Inductive Action :=
| Cancel
| Pause (b : bool)
| StepWorker (i : nat)
| StepSink
| StepWalker (c : Walker.Choice)
| StepWaiter
| StepMain (c : MainChoice)
| Other (o : Elsewhere).

Definition all_done (ws : list WorkerPc) : bool :=
  forallb (fun pc => match pc with WDone => true | _ => false end) ws.

Definition step_worker (var : variant) (env : Env) (i : nat) (s : State)
  : option State :=
  match workers s !! i with
  | None => None
  | Some WRange =>
      match recv (fileChan s) with
      | RecvBlocked => None
      | RecvClosed => Some (with_worker i WDone [] s)
      | RecvOk filePath c =>
          Some (with_worker i (if paused s then WSleep filePath
                               else WSelect filePath) []
                  (with_fileChan c s))
      end
  | Some (WSleep filePath) =>
      if ctxDone s then Some (with_worker i WDone [] s)
      else if paused s then Some s
      else Some (with_worker i (WSelect filePath) [] s)
  | Some (WSelect filePath) =>
      if ctxDone s then Some (with_worker i WDone [] s)
      else
        match Extractor.processFile (fs env) filePath with
        | Err err =>
            match var with
            | VariantA =>
                Some (with_worker i WDone
                        [Worker.Log filePath err; Worker.Escalate err]
                        (with_errChan (try_send errChan_cap (errChan s) err) s))
            | VariantB =>
                Some (with_worker i WRange [Worker.Log filePath err] s)
            end
        | Ok fileInfo => Some (with_worker i (WForward fileInfo) [] s)
        end
  | Some (WForward fileInfo) =>
      match send resultChan_cap (resultChan s) fileInfo with
      | SendBlocked => None
      | SendPanics => Some (with_panic SendOnClosedChannel s)
      | SendOk c =>
          Some (with_worker i WCount [Worker.Forward fileInfo]
                  (with_resultChan c s))
      end
  | Some WCount =>
      Some (with_worker i WRange [Worker.Scanned]
              (with_scanned (AddInt64 (totalFilesScanned s) 1) s))
  | Some WDone => None
  end.

(** A stage that has an error to report: VariantA offers it without
    blocking, VariantB blocks on the send. *)
Definition sink_after (var : variant)
    (r : @Sink.State Database.DB * option error) (s : State) : State :=
  match r with
  | (st, None) => with_sink SRange st s
  | (st, Some e) =>
      match var with
      | VariantA =>
          with_sink SClose st (with_errChan (try_send errChan_cap (errChan s) e) s)
      | VariantB => with_sink (SReport e) st s
      end
  end.

(** The stage has appended [fileInfo] to its batch. *)
Definition accepted (fileInfo : FileInfo) (st : @Sink.State Database.DB)
  : @Sink.State Database.DB :=
  {| Sink.batch := Sink.batch st ++ [fileInfo]; Sink.db := Sink.db st;
     Sink.totalFilesWritten := Sink.totalFilesWritten st;
     Sink.trace := Sink.trace st ++ [Sink.Recv fileInfo] |}.

(** A flush on a nil [*sql.DB] does not return: [batchInsert] has a
    batch to send, and [db.Exec] dereferences the nil pointer. *)
Definition step_sink (var : variant) (env : Env) (s : State) : option State :=
  match sink s with
  | SRange =>
      match recv (resultChan s) with
      | RecvBlocked => None
      | RecvOk fileInfo c =>
          if negb (connected env)
             && (batchSize var
                 <=? length (Sink.batch (sinkState s) ++ [fileInfo]))%nat
          then Some (with_panic NilPointerDereference
                       (with_sink SRange (accepted fileInfo (sinkState s))
                          (with_resultChan c s)))
          else
            Some (sink_after var
                    (Sink.receive (Database.batchInsert var) var (tableName env)
                       fileInfo (sinkState s))
                    (with_resultChan c s))
      | RecvClosed =>
          if negb (connected env)
             && (0 <? length (Sink.batch (sinkState s)))%nat
          then Some (with_panic NilPointerDereference s)
          else
            match Sink.finish (Database.batchInsert var) var (tableName env)
                    (sinkState s) with
            | (st, None) => Some (with_sink SClose st s)
            | r => Some (sink_after var r s)
            end
      end
  | SReport e =>
      match send errChan_cap (errChan s) e with
      | SendOk c => Some (with_sink SClose (sinkState s) (with_errChan c s))
      | _ => None
      end
  | SClose =>
      match close (resultChan s) with
      | None => Some (with_panic CloseOfClosedChannel s)
      | Some c => Some (with_sink SDone (sinkState s) (with_resultChan c s))
      end
  | SDone => None
  end.

Definition walker_after (var : variant) (err : error) (evs : list Walker.Event)
    (fl : gmap string bool) (s : State) : State :=
  let e := Errorf "error walking directory: " err in
  match var with
  | VariantA =>
      with_walker KClose fl evs
        (with_errChan (try_send errChan_cap (errChan s) e) s)
  | VariantB => with_walker (KReport e) fl evs s
  end.

Definition step_walker (var : variant) (c : Walker.Choice) (s : State)
  : option State :=
  match walker s with
  | KWalk [] => Some (with_walker KClose (files s) [] s)
  | KWalk (v :: todo) =>
      match Walker.walkFn var v (files s) with
      | (fl, evs, Walker.Return None) => Some (with_walker (KWalk todo) fl evs s)
      | (fl, evs, Walker.Return (Some err)) => Some (walker_after var err evs fl s)
      | (fl, evs, Walker.Select path) =>
          Some (with_walker (KSelect path todo) fl evs s)
      end
  | KSelect path todo =>
      match c with
      | Walker.CtxDone =>
          if ctxDone s then Some (walker_after var Canceled [] (files s) s)
          else None
      | Walker.Send =>
          match send fileChan_cap (fileChan s) path with
          | SendOk ch =>
              Some (with_walker (KWalk todo) (files s) [Walker.Emit path]
                      (with_fileChan ch s))
          | SendPanics => Some (with_panic SendOnClosedChannel s)
          | SendBlocked => None
          end
      end
  | KReport e =>
      match send errChan_cap (errChan s) e with
      | SendOk ch => Some (with_walker KClose (files s) [] (with_errChan ch s))
      | _ => None
      end
  | KClose =>
      match close (fileChan s) with
      | None => Some (with_panic CloseOfClosedChannel s)
      | Some ch => Some (with_walker KDone (files s) [] (with_fileChan ch s))
      end
  | KDone => None
  end.

(** [wg.Wait(); close(resultChan)] *)
Definition step_waiter (s : State) : option State :=
  match waiter s with
  | TWait =>
      if all_done (workers s) then
        match close (resultChan s) with
        | None => Some (with_panic CloseOfClosedChannel s)
        | Some c => Some (with_waiter TDone (with_resultChan c s))
        end
      else None
  | TDone => None
  end.

(** The final [select] of [scanFolder].  VariantA has no [resultChan]
    case; what it receives from [errChan] is never nil. *)
Definition step_main (var : variant) (c : MainChoice) (s : State)
  : option State :=
  match main s with
  | MReturned _ => None
  | MSelect =>
      match c with
      | OnCtx =>
          if ctxDone s then Some (with_main (MReturned (Some Canceled)) s)
          else None
      | OnErr =>
          match recv (errChan s) with
          | RecvOk e ch => Some (with_main (MReturned (Some e)) (with_errChan ch s))
          | _ => None
          end
      | OnResult =>
          match var with
          | VariantA => None
          | VariantB =>
              match recv (resultChan s) with
              | RecvOk _ ch =>
                  Some (with_main (MReturned None) (with_resultChan ch s))
              | RecvClosed => Some (with_main (MReturned None) s)
              | RecvBlocked => None
              end
          end
      end
  end.

Definition step_other (o : Elsewhere) (s : State) : State :=
  match o with
  | ResetScanned => with_scanned 0 s
  | ResetWritten => with_written 0 s
  | CountScanned => with_scanned (AddInt64 (totalFilesScanned s) 1) s
  | CountWritten n =>
      with_written (AddInt64 (Sink.totalFilesWritten (sinkState s)) n) s
  | MarkProcessed path => with_files (<[path := true]> (files s)) s
  end.

(** A panic in any goroutine ends the process: nothing moves after it. *)
Definition step (var : variant) (env : Env) (a : Action) (s : State)
  : option State :=
  match panic s with
  | Some _ => None
  | None =>
      match a with
      | Cancel => Some (with_ctxDone true s)
      | Pause b => Some (with_paused b s)
      | StepWorker i => step_worker var env i s
      | StepSink => step_sink var env s
      | StepWalker c => step_walker var c s
      | StepWaiter => step_waiter s
      | StepMain c => step_main var c s
      | Other o => Some (step_other o s)
      end
  end.

Fixpoint run (var : variant) (env : Env) (acts : list Action) (s : State)
  : option State :=
  match acts with
  | [] => Some s
  | a :: rest =>
      match step var env a s with
      | None => None
      | Some s' => run var env rest s'
      end
  end.

End ScanFolder.

(** ** The log writer (database.go, [multiWriter]) *)

Module MultiWriter.

(** [io.Writer]: a call of [Write] changes the writer and answers with a
    count and an error. *)
Class Writer (W : Type) := Write : W -> list byte -> W * (nat * option error).

Record multiWriter (W : Type) := { writers : list W }.
Arguments writers {W} m.

(** The body of [(mw *multiWriter).Write]: the loop over [mw.writers],
    left at the first writer that returns an error with that writer's
    count and error, and [len(p), nil] after the loop. *)
Fixpoint write_each {W} `{Writer W} (ws : list W) (p : list byte)
  : list W * (nat * option error) :=
  match ws with
  | [] => ([], (length p, None))
  | w :: rest =>
      let '(w', (n, err)) := Write w p in
      match err with
      | Some e => (w' :: rest, (n, Some e))
      | None =>
          let '(rest', r) := write_each rest p in
          (w' :: rest', r)
      end
  end.

#[export] Instance multiWriter_Writer {W} `{Writer W} : Writer (multiWriter W) :=
  fun mw p =>
    let '(ws, r) := write_each (writers mw) p in
    ({| writers := ws |}, r).

End MultiWriter.

(** ** The saved connection settings (database.go, [saveCredentials] and
    [loadCredentials]) *)

Module Credentials.

(** The texts of the five entries of the connection form. *)
Record Entries := {
  ipEntry : string;
  portEntry : string;
  usernameEntry : string;
  passwordEntry : string;
  dbNameEntry : string }.

(** What [credentials.gob] holds: a gob stream of a [map[string]string],
    or bytes that do not decode. *)
Inductive Content :=
| Encoded (credentials : gmap string string)
| Undecodable (err : error).

(** The application's data directory: the error of [getAppDataDir], of
    [os.Create] and of an [os.Open] of the existing file, if any, and the
    file.  Writing the map to a file that was created is taken to
    succeed. *)
Record Disk := {
  appDataDir : option error;
  create : option error;
  open : option error;
  credentials_gob : option Content }.

Definition saveCredentials (e : Entries) (d : Disk) : Disk * option error :=
  match appDataDir d with
  | Some err => (d, Some (Errorf "error getting app data directory: " err))
  | None =>
      match create d with
      | Some err => (d, Some (Errorf "error creating credentials file: " err))
      | None =>
          let credentials : gmap string string :=
            <["ip"%string := ipEntry e]>
              (<["port"%string := portEntry e]>
                 (<["username"%string := usernameEntry e]>
                    (<["password"%string := passwordEntry e]>
                       (<["dbname"%string := dbNameEntry e]> ∅)))) in
          ({| appDataDir := None; create := None; open := open d;
              credentials_gob := Some (Encoded credentials) |}, None)
      end
  end.

(** [credentials[key]]: the empty string when the key is missing. *)
Definition text (credentials : gmap string string) (key : string) : string :=
  match credentials !! key with
  | Some v => v
  | None => EmptyString
  end.

Definition loadCredentials (e : Entries) (d : Disk) : Entries * option error :=
  match appDataDir d with
  | Some err => (e, Some (Errorf "error getting app data directory: " err))
  | None =>
      match credentials_gob d with
      | None => (e, None)
      | Some content =>
          match open d with
          | Some err => (e, Some (Errorf "error opening credentials file: " err))
          | None =>
              match content with
              | Undecodable err =>
                  (e, Some (Errorf "error decoding credentials: " err))
              | Encoded credentials =>
                  ({| ipEntry := text credentials "ip";
                      portEntry := text credentials "port";
                      usernameEntry := text credentials "username";
                      passwordEntry := text credentials "password";
                      dbNameEntry := text credentials "dbname" |}, None)
              end
          end
      end
  end.

End Credentials.

(** * Properties

    The stages are first studied on their own (the extractor, the walker,
    a worker, the upsert, the controller's handler, the batch stage), then
    inside [ScanFolder], where the goroutines interleave freely. *)

(** ** The content identifier *)

Example sha256_abc :
  Hex.EncodeToString (Sha256.Sum (list_byte_of_string "abc"))
  = "ba7816bf8f01cfea414140de5dae2223b00361a396177a9cb410ff61f20015ad"%string.
Proof. vm_compute. reflexivity. Qed.

Example sha256_empty :
  Hex.EncodeToString (Sha256.Sum [])
  = "e3b0c44298fc1c149afbf4c8996fb92427ae41e4649b934ca495991b7852b855"%string.
Proof. vm_compute. reflexivity. Qed.

Example sha256_two_blocks :
  Hex.EncodeToString (Sha256.Sum (list_byte_of_string
    "abcdbcdecdefdefgefghfghighijhijkijkljklmklmnlmnomnopnopq"))
  = "248d6a61d20638b8e5c026930c3e6039a33ce45964ff2167f6ecedd419db06c1"%string.
Proof. vm_compute. reflexivity. Qed.

Lemma Sum_length (p : list byte) : length (Sha256.Sum p) = 32%nat.
Proof.
  unfold Sha256.Sum.
  generalize (Sha256.blocks
    (length (map (fun b => Z.of_N (Byte.to_N b)) p
             ++ Sha256.padding (length (map (fun b => Z.of_N (Byte.to_N b)) p))) / 64)
    Sha256.init
    (Sha256.be_words (map (fun b => Z.of_N (Byte.to_N b)) p
             ++ Sha256.padding (length (map (fun b => Z.of_N (Byte.to_N b)) p))))).
  intros d. reflexivity.
Qed.

Lemma EncodeToString_length (src : list Z) :
  String.length (Hex.EncodeToString src) = (2 * length src)%nat.
Proof.
  induction src as [|v rest IH]; simpl; [reflexivity|].
  rewrite IH. lia.
Qed.

Lemma digit_is_digit (v : Z) : Hex.is_digit (Hex.digit v) = true.
Proof.
  unfold Hex.digit.
  generalize (Z.to_nat v). intros n.
  do 16 (destruct n as [|n]; [reflexivity|]).
  reflexivity.
Qed.

Lemma EncodeToString_digits (src : list Z) :
  forallb Hex.is_digit (list_ascii_of_string (Hex.EncodeToString src)) = true.
Proof.
  induction src as [|v rest IH]; [reflexivity|].
  cbn [Hex.EncodeToString list_ascii_of_string forallb].
  rewrite !digit_is_digit, IH. reflexivity.
Qed.

(** C2: whenever [processFile] yields a record, its content identifier is
    the lower-case hexadecimal SHA-256 of the bytes of the path, 64
    characters long, and it is the same whatever the file system holds at
    that path (its bytes, its size, its time stamp). *)
Theorem processFile_path_hash :
  forall (fs : gmap string Inode) (filePath : string) (info : FileInfo),
    Extractor.processFile fs filePath = Ok info ->
    PathHash info
      = Hex.EncodeToString (Sha256.Sum (list_byte_of_string filePath))
    /\ String.length (PathHash info) = 64%nat
    /\ forallb Hex.is_digit (list_ascii_of_string (PathHash info)) = true
    /\ (forall (fs' : gmap string Inode) (info' : FileInfo),
          Extractor.processFile fs' filePath = Ok info' ->
          PathHash info' = PathHash info).
Proof.
  intros fs filePath info H.
  assert (Hid : forall f i, Extractor.processFile f filePath = Ok i ->
            PathHash i
            = Hex.EncodeToString (Sha256.Sum (list_byte_of_string filePath))).
  { intros f i Hf. unfold Extractor.processFile in Hf.
    destruct (Extractor.os_Stat f filePath); inversion Hf; reflexivity. }
  rewrite (Hid _ _ H). split; [reflexivity|]. split; [|split].
  - rewrite EncodeToString_length, Sum_length. reflexivity.
  - apply EncodeToString_digits.
  - intros fs' info' H'. apply (Hid _ _ H').
Qed.

Definition sample_stat : FileStat :=
  {| stat_name := "a.txt"; stat_size := 3; stat_mtime := 1700000000 |}.

Definition sample_fs : gmap string Inode :=
  {[ "/srv/a.txt"%string := Stored sample_stat (list_byte_of_string "abc") ]}.

Definition sample_info : FileInfo :=
  {| FileName := "a.txt";
     FilePath := "/srv/a.txt";
     PathHash := "2389625cea14aabcd0d01c95c2c3f3f1546e1959eb3e0b802843cb0f30a5106c";
     FileSize := 3;
     ModTime := 1700000000;
     OtherMetadata := "";
     Extension := ".txt" |}.

Lemma sample_processFile :
  Extractor.processFile sample_fs "/srv/a.txt" = Ok sample_info.
Proof. vm_compute. reflexivity. Qed.

Lemma processFile_path_hash_witness :
  String.length (PathHash sample_info) = 64%nat.
Proof.
  exact (proj1 (proj2 (processFile_path_hash sample_fs "/srv/a.txt" sample_info
                         sample_processFile))).
Defined.

(** ** The walk as a loop over its visits *)

Lemma DirTree_nested_ind (P : DirTree -> Prop) :
  (forall path, P (File path)) ->
  (forall path readErr entries, Forall P entries -> P (Dir path readErr entries)) ->
  forall d, P d.
Proof.
  intros HFile HDir. fix IH 1. intros [path | path readErr entries].
  - apply HFile.
  - apply HDir. induction entries as [|d rest IHrest]; constructor.
    + apply IH.
    + apply IHrest.
Qed.

Section WalkLoop.
Context {S : Type} (fn : Visit -> S -> S * option error).

Lemma run_app (vs ws : list Visit) (s : S) :
  WalkDir.run fn (vs ++ ws) s
  = match WalkDir.run fn vs s with
    | (s', Some e) => (s', Some e)
    | (s', None) => WalkDir.run fn ws s'
    end.
Proof.
  revert s. induction vs as [|v vs IH]; intros s; simpl; [reflexivity|].
  destruct (fn v s) as [s' [e|]]; [reflexivity | apply IH].
Qed.

Lemma walkDir_run (d : DirTree) :
  forall s, WalkDir.walkDir fn d s = WalkDir.run fn (WalkDir.visits d) s.
Proof.
  induction d as [path | path readErr entries IH] using DirTree_nested_ind;
    intros s.
  - simpl. destruct (fn _ s) as [s' [e|]]; reflexivity.
  - cbn [WalkDir.walkDir WalkDir.visits WalkDir.run].
    destruct (fn _ s) as [s1 [e|]]; [reflexivity|].
    rewrite run_app.
    assert (Hentries : forall s2,
      (fix each (dirs : list DirTree) (s0 : S) {struct dirs} : S * option error :=
         match dirs with
         | [] => (s0, None)
         | d1 :: rest =>
             let '(s', err1) := WalkDir.walkDir fn d1 s0 in
             match err1 with
             | Some e => (s', Some e)
             | None => each rest s'
             end
         end) entries s2
      = WalkDir.run fn (List.flat_map WalkDir.visits entries) s2).
    { induction IH as [|d rest Hd _ IHrest]; intros s2; [reflexivity|].
      cbn [List.flat_map]. rewrite run_app, <- Hd.
      destruct (WalkDir.walkDir fn d s2) as [s' [e|]]; [reflexivity|].
      apply IHrest. }
    destruct readErr as [e|]; simpl.
    + destruct (fn _ s1) as [s2 [e'|]]; [reflexivity | apply Hentries].
    + apply Hentries.
Qed.

Lemma WalkDir_run (root : WalkRoot) (s : S) :
  WalkDir.WalkDir fn root s = WalkDir.run fn (WalkDir.root_visits root) s.
Proof.
  destruct root as [path e | d]; simpl.
  - destruct (fn _ s) as [s' [e'|]]; reflexivity.
  - apply walkDir_run.
Qed.

End WalkLoop.

(** ** The walker and the processed-path set *)

Lemma scanned_insert (fl : gmap string bool) (p q : string) :
  scanned (<[p := true]> fl) q = if decide (p = q) then true else scanned fl q.
Proof.
  unfold scanned. rewrite lookup_insert. destruct (decide (p = q)); reflexivity.
Qed.

(** The shape of what the walker records from the processed set [fl] on:
    log lines, look-ups of paths already present, and claims of absent
    paths, each marked under the lock and then emitted; a walk cancelled at
    its [select] ends on a claim that is not emitted. *)
Inductive Walked : gmap string bool -> list Walker.Event -> gmap string bool -> Prop :=
| Walked_nil fl : Walked fl [] fl
| Walked_log fl path e evs fl' :
    Walked fl evs fl' -> Walked fl (Walker.Log path e :: evs) fl'
| Walked_seen fl evs fl' :
    Walked fl evs fl' -> Walked fl (Walker.Lock :: Walker.Unlock :: evs) fl'
| Walked_claim fl path evs fl' :
    scanned fl path = false ->
    Walked (<[path := true]> fl) evs fl' ->
    Walked fl (Walker.Lock :: Walker.Mark path :: Walker.Unlock
               :: Walker.Emit path :: evs) fl'
| Walked_stop fl path :
    scanned fl path = false ->
    Walked fl [Walker.Lock; Walker.Mark path; Walker.Unlock] (<[path := true]> fl).

Lemma run_Walked (var : variant) (vs : list Visit) :
  forall st st' err,
    WalkDir.run (Walker.callback var) vs st = (st', err) ->
    exists evs, Walker.trace st' = Walker.trace st ++ evs
                /\ Walked (Walker.files st) evs (Walker.files st').
Proof.
  induction vs as [|v vs IH]; intros st st' err Hrun; simpl in Hrun.
  - inversion Hrun; subst. exists []. rewrite app_nil_r. split; [reflexivity | constructor].
  - unfold Walker.callback, Walker.walkFn in Hrun.
    destruct (v_err v) as [e|].
    + destruct var; simpl in Hrun.
      * inversion Hrun; subst; simpl. eexists; split; [reflexivity|].
        repeat constructor.
      * apply IH in Hrun. destruct Hrun as (evs & Ht & Hw). simpl in *.
        exists (Walker.Log (v_path v) e :: evs). split.
        -- rewrite Ht, <- app_assoc. reflexivity.
        -- constructor. exact Hw.
    + destruct (v_isDir v).
      * apply IH in Hrun. destruct Hrun as (evs & Ht & Hw). simpl in *.
        exists evs. split; [|exact Hw]. rewrite Ht, app_nil_r. reflexivity.
      * destruct (scanned (Walker.files st) (v_path v)) eqn:Hseen.
        -- apply IH in Hrun. destruct Hrun as (evs & Ht & Hw). simpl in *.
           exists (Walker.Lock :: Walker.Unlock :: evs). split.
           ++ rewrite Ht, <- app_assoc. reflexivity.
           ++ constructor. exact Hw.
        -- destruct (Walker.choices st) as [|[|] later].
           ++ apply IH in Hrun. destruct Hrun as (evs & Ht & Hw). simpl in *.
              eexists. split.
              ** rewrite Ht, <- !app_assoc. simpl. reflexivity.
              ** constructor; assumption.
           ++ inversion Hrun; subst; simpl. eexists; split; [reflexivity|].
              apply Walked_stop. exact Hseen.
           ++ apply IH in Hrun. destruct Hrun as (evs & Ht & Hw). simpl in *.
              eexists. split.
              ** rewrite Ht, <- !app_assoc. simpl. reflexivity.
              ** constructor; assumption.
Qed.

Lemma Walked_emitted_absent fl evs fl' :
  Walked fl evs fl' ->
  forall p, In p (Walker.emitted evs) -> scanned fl p = false.
Proof.
  induction 1 as [fl | fl path e evs fl' _ IH | fl evs fl' _ IH
                 | fl path evs fl' Habs _ IH | fl path Habs];
    intros p Hin; simpl in Hin; try (apply IH; exact Hin); try contradiction.
  destruct Hin as [<- | Hin]; [exact Habs|].
  apply IH in Hin. rewrite scanned_insert in Hin.
  destruct (decide (path = p)); [discriminate | exact Hin].
Qed.

Lemma Walked_emitted_NoDup fl evs fl' :
  Walked fl evs fl' -> List.NoDup (Walker.emitted evs).
Proof.
  induction 1 as [fl | fl path e evs fl' _ IH | fl evs fl' _ IH
                 | fl path evs fl' Habs Hw IH | fl path Habs];
    simpl; try exact IH; try constructor.
  - intros Hin. apply (Walked_emitted_absent _ _ _ Hw) in Hin.
    rewrite scanned_insert in Hin. destruct (decide (path = path)); congruence.
  - exact IH.
Qed.

Lemma Walked_files fl evs fl' :
  Walked fl evs fl' ->
  forall p, scanned fl' p = true
            <-> scanned fl p = true \/ In p (Walker.marked evs).
Proof.
  induction 1 as [fl | fl path e evs fl' _ IH | fl evs fl' _ IH
                 | fl path evs fl' Habs _ IH | fl path Habs];
    intros p; simpl; try (apply IH).
  - tauto.
  - rewrite IH, scanned_insert. destruct (decide (path = p)); subst; tauto.
  - rewrite scanned_insert. destruct (decide (path = p)); subst; tauto.
Qed.


Lemma Walked_emit_after_mark fl evs fl' :
  Walked fl evs fl' ->
  forall pre post p,
    evs = pre ++ Walker.Emit p :: post ->
    exists pre', pre = pre' ++ [Walker.Lock; Walker.Mark p; Walker.Unlock].
Proof.
  induction 1 as [fl | fl path e evs fl' _ IH | fl evs fl' _ IH
                 | fl path evs fl' Habs _ IH | fl path Habs];
    intros pre post p Heq.
  - destruct pre; discriminate.
  - destruct pre as [|a pre]; [discriminate|]. inversion Heq; subst.
    destruct (IH _ _ _ eq_refl) as [pre' ->]. exists (Walker.Log path e :: pre').
    reflexivity.
  - destruct pre as [|a [|b pre]]; try discriminate. inversion Heq; subst.
    destruct (IH _ _ _ eq_refl) as [pre' ->].
    exists (Walker.Lock :: Walker.Unlock :: pre'). reflexivity.
  - destruct pre as [|a [|b [|c [|d pre]]]]; try discriminate.
    + inversion Heq; subst. exists []. reflexivity.
    + inversion Heq; subst. destruct (IH _ _ _ eq_refl) as [pre' ->].
      exists (Walker.Lock :: Walker.Mark path :: Walker.Unlock
              :: Walker.Emit path :: pre'). reflexivity.
  - destruct pre as [|a [|b [|c [|d pre]]]]; discriminate.
Qed.

Lemma walk_Walked var root st st' err :
  Walker.walk var root st = (st', err) ->
  exists evs, Walker.trace st' = Walker.trace st ++ evs
              /\ Walked (Walker.files st) evs (Walker.files st').
Proof.
  unfold Walker.walk. rewrite WalkDir_run. apply run_Walked.
Qed.

(** *** Traversal errors *)

Definition start_walk (fl : gmap string bool) : Walker.State :=
  {| Walker.files := fl; Walker.trace := []; Walker.choices := [] |}.

Definition is_file_visit (v : Visit) : bool :=
  match v_err v with
  | Some _ => false
  | None => negb (v_isDir v)
  end.

Definition is_error_visit (v : Visit) : bool :=
  match v_err v with
  | Some _ => true
  | None => false
  end.

Lemma emitted_app (a b : list Walker.Event) :
  Walker.emitted (a ++ b) = Walker.emitted a ++ Walker.emitted b.
Proof. apply flat_map_app. Qed.

Lemma logged_app (a b : list Walker.Event) :
  Walker.logged (a ++ b) = Walker.logged a ++ Walker.logged b.
Proof. apply flat_map_app. Qed.

(** One call of VariantB's callback when nothing cancels the walk. *)
Lemma callbackB_step (v : Visit) (st : Walker.State) :
  Walker.choices st = [] ->
  exists st',
    Walker.callback VariantB v st = (st', None)
    /\ Walker.choices st' = []
    /\ Walker.logged (Walker.trace st')
       = Walker.logged (Walker.trace st)
         ++ (if is_error_visit v then [v_path v] else [])
    /\ (forall p, scanned (Walker.files st) p = true ->
                  scanned (Walker.files st') p = true)
    /\ (forall p, In p (Walker.emitted (Walker.trace st)) ->
                  In p (Walker.emitted (Walker.trace st')))
    /\ (is_file_visit v = true ->
        scanned (Walker.files st') (v_path v) = true
        /\ (scanned (Walker.files st) (v_path v) = false ->
            In (v_path v) (Walker.emitted (Walker.trace st')))).
Proof.
  intros Hch.
  unfold Walker.callback, Walker.walkFn, is_file_visit, is_error_visit.
  destruct (v_err v) as [e|].
  - eexists. split; [reflexivity|]. simpl. rewrite logged_app, emitted_app. simpl.
    rewrite app_nil_r. repeat split; auto; discriminate.
  - destruct (v_isDir v).
    + eexists. split; [reflexivity|]. simpl. rewrite !app_nil_r.
      repeat split; auto; discriminate.
    + destruct (scanned (Walker.files st) (v_path v)) eqn:Hseen.
      * eexists. split; [reflexivity|]. simpl.
        rewrite logged_app, emitted_app. simpl. rewrite !app_nil_r.
        repeat split; auto; congruence.
      * rewrite Hch. eexists. split; [reflexivity|]. simpl.
        rewrite logged_app, emitted_app. simpl. rewrite !app_nil_r.
        split; [reflexivity|]. split; [reflexivity|]. split; [|split].
        -- intros p Hp. rewrite scanned_insert.
           destruct (decide (v_path v = p)); [reflexivity | exact Hp].
        -- intros p Hp. apply in_or_app. left. exact Hp.
        -- intros _. split.
           ++ rewrite scanned_insert.
              destruct (decide (v_path v = v_path v)); congruence.
           ++ intros _. apply in_or_app. right. left. reflexivity.
Qed.

(** VariantB: a walk that is not cancelled never returns an error, logs
    every traversal error once, and leaves every regular file of the tree in
    the processed set, having emitted those that were absent from it. *)
Lemma runB_completes (vs : list Visit) :
  forall st, Walker.choices st = [] ->
    exists st',
      WalkDir.run (Walker.callback VariantB) vs st = (st', None)
      /\ Walker.choices st' = []
      /\ Walker.logged (Walker.trace st')
         = Walker.logged (Walker.trace st)
           ++ map v_path (List.filter is_error_visit vs)
      /\ (forall p, scanned (Walker.files st) p = true ->
                    scanned (Walker.files st') p = true)
      /\ (forall p, In p (Walker.emitted (Walker.trace st)) ->
                    In p (Walker.emitted (Walker.trace st')))
      /\ (forall v, In v vs -> is_file_visit v = true ->
            scanned (Walker.files st') (v_path v) = true
            /\ (scanned (Walker.files st) (v_path v) = false ->
                In (v_path v) (Walker.emitted (Walker.trace st')))).
Proof.
  induction vs as [|v vs IH]; intros st Hch.
  - exists st. simpl. rewrite app_nil_r. repeat split; auto; contradiction.
  - destruct (callbackB_step v st Hch)
      as (st1 & Hcb & Hch1 & Hlog1 & Hmono1 & Hem1 & Hfile1).
    destruct (IH st1 Hch1) as (st' & Hrun & Hch' & Hlog' & Hmono' & Hem' & Hfiles').
    exists st'. simpl. rewrite Hcb, Hrun.
    split; [reflexivity|]. split; [exact Hch'|]. split; [|split; [|split]].
    + rewrite Hlog', Hlog1, <- app_assoc.
      destruct (is_error_visit v); reflexivity.
    + intros p Hp. apply Hmono', Hmono1, Hp.
    + intros p Hp. apply Hem', Hem1, Hp.
    + intros w [<- | Hin] Hfile.
      * destruct (Hfile1 Hfile) as [Hs He]. split.
        -- apply Hmono', Hs.
        -- intros Habs. apply Hem', He, Habs.
      * destruct (Hfiles' w Hin Hfile) as [Hs He]. split; [exact Hs|].
        intros Habs.
        destruct (scanned (Walker.files st1) (v_path w)) eqn:Hs1;
          [|apply He; reflexivity].
        (* marked by the call on [v]: then [v] is a file at the same path *)
        destruct (is_file_visit v) eqn:Hfv.
        -- destruct (Hfile1 eq_refl) as [_ He1].
           destruct (decide (v_path v = v_path w)) as [Heq|Hne].
           ++ apply Hem'. rewrite <- Heq. apply He1. rewrite Heq. exact Habs.
           ++ exfalso. revert Hcb Hs1 Habs Hne. clear.
              unfold Walker.callback, Walker.walkFn.
              destruct (v_err v); [intros H; inversion H; subst; simpl; congruence|].
              destruct (v_isDir v); [intros H; inversion H; subst; simpl; congruence|].
              destruct (scanned (Walker.files st) (v_path v));
                [intros H; inversion H; subst; simpl; congruence|].
              destruct (Walker.choices st) as [|[|] ?]; intros H; inversion H; subst;
                simpl; rewrite scanned_insert;
                destruct (decide (v_path v = v_path w)); congruence.
        -- exfalso. revert Hcb Hs1 Habs Hfv. clear.
           unfold Walker.callback, Walker.walkFn, is_file_visit.
           destruct (v_err v); [intros H; inversion H; subst; simpl; congruence|].
           destruct (v_isDir v); [intros H; inversion H; subst; simpl; congruence|].
           simpl. discriminate.
Qed.

(** VariantA: a walk over a tree with a traversal error returns an error
    (the traversal error itself, unless the walk was cancelled before). *)
Lemma runA_aborts (vs : list Visit) :
  (exists v, In v vs /\ is_error_visit v = true) ->
  forall st, exists st' e,
    WalkDir.run (Walker.callback VariantA) vs st = (st', Some e).
Proof.
  induction vs as [|v vs IH]; intros (w & Hin & Hw) st; [contradiction|].
  simpl. destruct (Walker.callback VariantA v st) as [st1 [e|]] eqn:Hcb.
  - eauto.
  - destruct Hin as [<- | Hin].
    + exfalso. revert Hcb Hw. unfold Walker.callback, Walker.walkFn, is_error_visit.
      destruct (v_err v); [intros H; inversion H | discriminate].
    + apply IH. eauto.
Qed.

Definition outcome (r : option ScanFolder.State) : option ScanFolder.MainPc :=
  match r with
  | Some s => Some (ScanFolder.main s)
  | None => None
  end.

Definition sample_db (var : variant) : Database.DB :=
  {| Database.tables := {[ "files"%string := Database.empty_table var ]};
     Database.faults := [] |}.

Definition fresh_state : ScanState :=
  {| FolderPath := "/data"; FilesScanned := ∅; LastModified := 0 |}.

Definition denied : error := OsError "permission denied".

Definition locked_root : WalkRoot :=
  RootTree (Dir "/data" None
              [ Dir "/data/locked" (Some denied) []; File "/data/z.txt" ]).

Definition locked_env : ScanFolder.Env :=
  {| ScanFolder.fs :=
       {[ "/data/z.txt"%string := Stored sample_stat (list_byte_of_string "abc") ]};
     ScanFolder.tableName := "files";
     ScanFolder.root := locked_root;
     ScanFolder.connected := true |}.

(** C5, VariantA (scanner.go 117-121): on the tree [/data] holding the
    unreadable directory [/data/locked] and then the file [/data/z.txt], the
    callback returns the traversal error, so the walk stops there: the file
    behind the unreadable directory is neither looked at nor emitted, the
    error is offered to [errChan], and [scanFolder] returns it.  VariantB
    (scanner.go 312-316) logs the same error, goes on and emits the file. *)
Theorem walker_variantA_stops_at_unreadable_subtree :
  let a := Walker.walk VariantA locked_root (start_walk ∅) in
  let b := Walker.walk VariantB locked_root (start_walk ∅) in
  snd a = Some denied
  /\ Walker.report (snd a) = Some (Errorf "error walking directory: " denied)
  /\ Walker.logged (Walker.trace (fst a)) = ["/data/locked"%string]
  /\ Walker.emitted (Walker.trace (fst a)) = []
  /\ scanned (Walker.files (fst a)) "/data/z.txt" = false
  /\ outcome (ScanFolder.run VariantA locked_env
        [ ScanFolder.StepWalker Walker.Send; ScanFolder.StepWalker Walker.Send;
          ScanFolder.StepWalker Walker.Send; ScanFolder.StepMain ScanFolder.OnErr ]
        (ScanFolder.init VariantA locked_env fresh_state (sample_db VariantA)))
     = Some (ScanFolder.MReturned
               (Some (Errorf "error walking directory: " denied)))
  /\ snd b = None
  /\ Walker.logged (Walker.trace (fst b)) = ["/data/locked"%string]
  /\ Walker.emitted (Walker.trace (fst b)) = ["/data/z.txt"%string].
Proof. vm_compute. repeat split; reflexivity. Qed.

(** VariantB, for comparison: whatever the tree and the processed set, a
    walk that is not cancelled returns no error, logs each traversal error,
    and gets past it to every regular file the tree lists. *)
Theorem walker_variantB_continues_past_errors :
  forall (root : WalkRoot) (fl : gmap string bool),
    let r := Walker.walk VariantB root (start_walk fl) in
    snd r = None
    /\ Walker.report (snd r) = None
    /\ Walker.logged (Walker.trace (fst r))
       = map v_path (List.filter is_error_visit (WalkDir.root_visits root))
    /\ (forall v, In v (WalkDir.root_visits root) -> is_file_visit v = true ->
          scanned (Walker.files (fst r)) (v_path v) = true
          /\ (scanned fl (v_path v) = false ->
              In (v_path v) (Walker.emitted (Walker.trace (fst r))))).
Proof.
  intros root fl r. subst r. unfold Walker.walk. rewrite WalkDir_run.
  destruct (runB_completes (WalkDir.root_visits root) (start_walk fl) eq_refl)
    as (st' & Hrun & _ & Hlog & _ & _ & Hfiles).
  rewrite Hrun. simpl. repeat split; auto.
  - apply (Hfiles v H H0).
  - apply (Hfiles v H H0).
Qed.

(** ** The workers and extraction failures *)

Definition extraction_fails (fs : gmap string Inode) (p : string) : bool :=
  match Extractor.processFile fs p with
  | Err _ => true
  | Ok _ => false
  end.

Definition extracted (fs : gmap string Inode) (p : string) : list FileInfo :=
  match Extractor.processFile fs p with
  | Err _ => []
  | Ok r => [r]
  end.

(** VariantB, for comparison: a worker that is not cancelled handles
    every path it receives; it logs exactly the paths whose extraction
    fails, forwards exactly the records of the others, in order, counts each
    of them, offers nothing to [errChan], and ends only when [fileChan] is
    drained. *)
Theorem worker_variantB_skips_failures :
  forall (fs : gmap string Inode) (paths : list string),
    let r := Worker.loop VariantB fs None paths in
    snd r = Worker.Drained
    /\ Worker.escalated (fst r) = []
    /\ Worker.failures (fst r) = List.filter (extraction_fails fs) paths
    /\ Worker.forwarded (fst r) = List.flat_map (extracted fs) paths.
Proof.
  intros fs paths. simpl. induction paths as [|p rest IH]; simpl.
  - repeat split.
  - unfold Worker.handle, extraction_fails, extracted in *.
    destruct (Worker.loop VariantB fs None rest) as [evs x].
    simpl in IH. destruct IH as (Hx & Hesc & Hfail & Hfwd).
    destruct (Extractor.processFile fs p) as [r|e]; simpl;
      rewrite Hesc, Hfail, Hfwd; repeat split; assumption.
Qed.

Definition missing : error :=
  Errorf "error getting file info: " (OsError "no such file or directory").

Definition two_files_env : ScanFolder.Env :=
  {| ScanFolder.fs := sample_fs;
     ScanFolder.tableName := "files";
     ScanFolder.root :=
       RootTree (Dir "/srv" None [ File "/srv/0.txt"; File "/srv/a.txt" ]);
     ScanFolder.connected := true |}.

(** C4, VariantA (scanner.go 66-74): a worker that receives [/srv/0.txt],
    which cannot be stat'ed, and then [/srv/a.txt], logs the failure, offers
    the error to [errChan] and returns: [/srv/a.txt] is never extracted, and
    [scanFolder] returns the extraction error as the result of the scan.
    VariantB on the same input logs the failure and forwards the record of
    [/srv/a.txt]. *)
Theorem worker_variantA_escalates_extraction_failure :
  Worker.loop VariantA sample_fs None ["/srv/0.txt"; "/srv/a.txt"]%string
  = ([Worker.Log "/srv/0.txt" missing; Worker.Escalate missing],
     Worker.Failed missing)
  /\ outcome (ScanFolder.run VariantA two_files_env
        [ ScanFolder.StepWalker Walker.Send; ScanFolder.StepWalker Walker.Send;
          ScanFolder.StepWalker Walker.Send; ScanFolder.StepWorker 0;
          ScanFolder.StepWorker 0; ScanFolder.StepMain ScanFolder.OnErr ]
        (ScanFolder.init VariantA two_files_env fresh_state (sample_db VariantA)))
     = Some (ScanFolder.MReturned (Some missing))
  /\ Worker.loop VariantB sample_fs None ["/srv/0.txt"; "/srv/a.txt"]%string
     = ([Worker.Log "/srv/0.txt" missing; Worker.Forward sample_info;
         Worker.Scanned], Worker.Drained).
Proof. vm_compute. repeat split; reflexivity. Qed.

(** ** The upsert *)

Section Merge.
Import Database.

Lemma distinct_NoDup (keys : list string) :
  distinct keys = true <-> List.NoDup keys.
Proof.
  induction keys as [|k rest IH]; simpl.
  - split; [constructor | reflexivity].
  - rewrite andb_true_iff, negb_true_iff, IH. split.
    + intros [Hk Hrest]. constructor; [|exact Hrest].
      intros Hin. assert (existsb (String.eqb k) rest = true); [|congruence].
      apply existsb_exists. exists k. split; [exact Hin | apply String.eqb_refl].
    + intros Hnd. inversion Hnd as [|? ? Hk Hrest]; subst. split; [|exact Hrest].
      destruct (existsb (String.eqb k) rest) eqn:Hex; [|reflexivity].
      apply existsb_exists in Hex. destruct Hex as (k' & Hin & Heq).
      apply String.eqb_eq in Heq. subst k'. contradiction.
Qed.

(** The source row a target row is joined with. *)
Definition source_of (values : list FileInfo) (target : Row) : option FileInfo :=
  List.find (fun s => same_hash s (fields target)) values.

Definition upsert_row (values : list FileInfo) (target : Row) : Row :=
  match source_of values target with
  | Some s => update target s
  | None => target
  end.

Lemma filter_find_distinct (values : list FileInfo) (k : string) :
  List.NoDup (map PathHash values) ->
  List.filter (fun s => String.eqb (PathHash s) k) values
  = match List.find (fun s => String.eqb (PathHash s) k) values with
    | Some s => [s]
    | None => []
    end.
Proof.
  induction values as [|x rest IH]; intros Hnd; [reflexivity|].
  inversion Hnd as [|? ? Hx Hrest]; subst. simpl.
  destruct (String.eqb (PathHash x) k) eqn:Hk.
  - f_equal. apply String.eqb_eq in Hk. subst k.
    clear IH Hnd Hrest. induction rest as [|y rest IH]; [reflexivity|].
    simpl. destruct (String.eqb (PathHash y) (PathHash x)) eqn:Hy.
    + apply String.eqb_eq in Hy. exfalso. apply Hx. left. exact Hy.
    + apply IH. intros Hin. apply Hx. right. exact Hin.
  - apply IH. exact Hrest.
Qed.

Lemma find_distinct (values : list FileInfo) (s : FileInfo) :
  List.NoDup (map PathHash values) -> In s values ->
  List.find (fun x => String.eqb (PathHash x) (PathHash s)) values = Some s.
Proof.
  induction values as [|x rest IH]; intros Hnd Hin; [contradiction|].
  inversion Hnd as [|? ? Hx Hrest]; subst. simpl.
  destruct Hin as [-> | Hin].
  - rewrite String.eqb_refl. reflexivity.
  - destruct (String.eqb (PathHash x) (PathHash s)) eqn:Hk.
    + apply String.eqb_eq in Hk. exfalso. apply Hx. rewrite Hk.
      apply in_map. exact Hin.
    + apply IH; assumption.
Qed.

Lemma merge_row_distinct (values : list FileInfo) (target : Row) :
  List.NoDup (map PathHash values) ->
  merge_row values target = Ok (upsert_row values target).
Proof.
  intros Hnd. unfold merge_row, upsert_row, source_of, same_hash.
  rewrite (filter_find_distinct values _ Hnd).
  destruct (List.find _ values); reflexivity.
Qed.

Lemma merge_rows_distinct (values : list FileInfo) (targets : list Row) :
  List.NoDup (map PathHash values) ->
  merge_rows values targets = Ok (map (upsert_row values) targets).
Proof.
  intros Hnd. induction targets as [|t rest IH]; [reflexivity|].
  simpl. rewrite (merge_row_distinct _ _ Hnd), IH. reflexivity.
Qed.

Lemma upsert_row_hash (values : list FileInfo) (t : Row) :
  PathHash (fields (upsert_row values t)) = PathHash (fields t).
Proof. unfold upsert_row. destruct (source_of values t); reflexivity. Qed.

Lemma hashes_upsert (values : list FileInfo) (targets : list Row) :
  hashes (map (upsert_row values) targets) = hashes targets.
Proof.
  unfold hashes. rewrite map_map. apply map_ext. intros t. apply upsert_row_hash.
Qed.

Lemma hashes_insert_rows (id : Z) (values : list FileInfo) :
  hashes (insert_rows id values) = map PathHash values.
Proof.
  revert id. induction values as [|s rest IH]; intros id; [reflexivity|].
  simpl. f_equal. apply IH.
Qed.

Lemma in_insert_rows (values : list FileInfo) :
  forall id s, In s values ->
    exists row, In row (insert_rows id values) /\ fields row = s.
Proof.
  induction values as [|x rest IH]; intros id s Hin; [contradiction|].
  destruct Hin as [-> | Hin].
  - eexists. split; [left; reflexivity | reflexivity].
  - destruct (IH (id + 1)%Z s Hin) as (row & Hrow & Hf).
    exists row. split; [right; exact Hrow | exact Hf].
Qed.

Lemma insert_rows_fields (values : list FileInfo) :
  forall id row, In row (insert_rows id values) -> In (fields row) values.
Proof.
  induction values as [|x rest IH]; intros id row Hin; [contradiction|].
  destruct Hin as [<- | Hin]; [left; reflexivity | right; eauto].
Qed.

Lemma matched_spec (targets : list Row) (s : FileInfo) :
  matched targets s = true
  <-> exists t, In t targets /\ PathHash (fields t) = PathHash s.
Proof.
  unfold matched, same_hash. rewrite existsb_exists. split.
  - intros (t & Hin & Heq). apply String.eqb_eq in Heq. eauto.
  - intros (t & Hin & Heq). exists t. split; [exact Hin|].
    apply String.eqb_eq. congruence.
Qed.

Lemma NoDup_filter_map (P : FileInfo -> bool) (values : list FileInfo) :
  List.NoDup (map PathHash values) ->
  List.NoDup (map PathHash (List.filter P values)).
Proof.
  induction values as [|x rest IH]; intros Hnd; [constructor|].
  inversion Hnd as [|? ? Hx Hrest]; subst. simpl.
  destruct (P x); [|apply IH; exact Hrest].
  simpl. constructor; [|apply IH; exact Hrest].
  intros Hin. apply Hx. apply in_map_iff in Hin.
  destruct Hin as (y & Hy & Hin). apply filter_In in Hin.
  rewrite <- Hy. apply in_map. apply Hin.
Qed.

Lemma update_same (id : Z) (s : FileInfo) :
  update {| Id := id; fields := s |} s = {| Id := id; fields := s |}.
Proof. destruct s. reflexivity. Qed.

Lemma update_twice (t : Row) (s : FileInfo) :
  update (update t s) s = update t s.
Proof. reflexivity. Qed.

Lemma update_fields (t : Row) (s : FileInfo) :
  PathHash (fields t) = PathHash s -> fields (update t s) = s.
Proof. destruct s. simpl. intros ->. reflexivity. Qed.

(** The rows a MERGE of [values] leaves in a table. *)
Definition merged_rows (t : Table) (values : list FileInfo) : list Row :=
  map (upsert_row values) (rows t)
  ++ insert_rows (identity t)
       (List.filter (fun s => negb (matched (rows t) s)) values).

Lemma merged_rows_NoDup (t : Table) (values : list FileInfo) :
  List.NoDup (hashes (rows t)) ->
  List.NoDup (map PathHash values) ->
  List.NoDup (hashes (merged_rows t values)).
Proof.
  intros Ht Hv. unfold merged_rows, hashes. rewrite map_app.
  fold (hashes (map (upsert_row values) (rows t))).
  fold (hashes (insert_rows (identity t)
                  (List.filter (fun s => negb (matched (rows t) s)) values))).
  rewrite hashes_upsert, hashes_insert_rows.
  apply List.NoDup_app; [exact Ht | apply NoDup_filter_map; exact Hv |].
  intros k Hk Hk'.
  apply in_map_iff in Hk'. destruct Hk' as (s & Hs & Hin).
  apply filter_In in Hin. destruct Hin as [_ Hm]. apply negb_true_iff in Hm.
  assert (matched (rows t) s = true); [|congruence].
  apply matched_spec. unfold hashes in Hk. apply in_map_iff in Hk.
  destruct Hk as (row & Hrow & Hin). exists row. split; [exact Hin | congruence].
Qed.

Lemma merged_rows_hold (t : Table) (values : list FileInfo) :
  List.NoDup (map PathHash values) ->
  forall s, In s values ->
    exists row, In row (merged_rows t values) /\ fields row = s.
Proof.
  intros Hv s Hin. unfold merged_rows.
  destruct (matched (rows t) s) eqn:Hm.
  - apply matched_spec in Hm. destruct Hm as (row & Hrow & Hk).
    exists (upsert_row values row). split.
    + apply in_or_app. left. apply in_map. exact Hrow.
    + unfold upsert_row, source_of, same_hash. rewrite Hk.
      rewrite (find_distinct _ _ Hv Hin). apply update_fields. exact Hk.
  - destruct (in_insert_rows
                (List.filter (fun s => negb (matched (rows t) s)) values)
                (identity t) s) as (row & Hrow & Hf).
    { apply filter_In. split; [exact Hin|]. rewrite Hm. reflexivity. }
    exists row. split; [apply in_or_app; right; exact Hrow | exact Hf].
Qed.

Lemma merged_rows_fixed (t : Table) (values : list FileInfo) :
  List.NoDup (map PathHash values) ->
  map (upsert_row values) (merged_rows t values) = merged_rows t values.
Proof.
  intros Hv. rewrite <- (map_id (merged_rows t values)) at 2.
  apply map_ext_in. intros row Hin. unfold merged_rows in Hin.
  apply in_app_or in Hin. destruct Hin as [Hin | Hin].
  - apply in_map_iff in Hin. destruct Hin as (t0 & <- & _).
    assert (Hsrc : source_of values (upsert_row values t0) = source_of values t0).
    { unfold source_of, same_hash. rewrite upsert_row_hash. reflexivity. }
    unfold upsert_row at 1. rewrite Hsrc. unfold upsert_row.
    destruct (source_of values t0); reflexivity.
  - pose proof (insert_rows_fields _ _ _ Hin) as Hf.
    apply filter_In in Hf. destruct Hf as [Hf _].
    unfold upsert_row, source_of, same_hash.
    rewrite (find_distinct _ _ Hv Hf). destruct row as [id s]. apply update_same.
Qed.

Lemma merge_distinct (t : Table) (values : list FileInfo) :
  List.NoDup (hashes (rows t)) ->
  List.NoDup (map PathHash values) ->
  merge t values
  = Ok {| rows := merged_rows t values;
          identity := (identity t + Z.of_nat (length
            (List.filter (fun s => negb (matched (rows t) s)) values)))%Z;
          unique_path_hash := unique_path_hash t |}.
Proof.
  intros Ht Hv. unfold merge. rewrite (merge_rows_distinct _ _ Hv).
  fold (merged_rows t values).
  destruct (distinct_NoDup (hashes (merged_rows t values))) as [_ Hd].
  rewrite (Hd (merged_rows_NoDup t values Ht Hv)).
  rewrite andb_false_r. reflexivity.
Qed.

(** The MERGE of VariantB is an upsert keyed on [path_hash]: on a table
    with distinct keys and a batch with distinct keys it succeeds, leaves a
    table with distinct keys that holds every record of the batch, and
    a second delivery of the same batch leaves that table as it is. *)
Theorem merge_is_idempotent_upsert :
  forall (t : Table) (values : list FileInfo),
    List.NoDup (hashes (rows t)) ->
    List.NoDup (map PathHash values) ->
    exists t',
      merge t values = Ok t'
      /\ List.NoDup (hashes (rows t'))
      /\ (forall s, In s values -> exists row, In row (rows t') /\ fields row = s)
      /\ (forall row, In row (rows t) -> source_of values row = None ->
            In row (rows t'))
      /\ merge t' values = Ok t'.
Proof.
  intros t values Ht Hv. eexists. split; [apply merge_distinct; assumption|].
  simpl. split; [apply merged_rows_NoDup; assumption|].
  split; [apply merged_rows_hold; assumption|]. split.
  - intros row Hin Hnone. unfold merged_rows. apply in_or_app. left.
    apply in_map_iff. exists row. split; [|exact Hin].
    unfold upsert_row. rewrite Hnone. reflexivity.
  - rewrite merge_distinct; simpl;
      [|apply merged_rows_NoDup; assumption | assumption].
    assert (Hfresh : List.filter
              (fun s => negb (matched (merged_rows t values) s)) values = []).
    { assert (Hall : forall s, In s values ->
                matched (merged_rows t values) s = true).
      { intros s Hin. apply matched_spec.
        destruct (merged_rows_hold t values Hv s Hin) as (row & Hrow & Hf).
        exists row. split; [exact Hrow | congruence]. }
      revert Hall. generalize (merged_rows t values). intros rs.
      induction values as [|x rest IH]; intros Hall; [reflexivity|].
      simpl. rewrite (Hall x (or_introl eq_refl)). simpl.
      apply IH; [inversion Hv; assumption|].
      intros s Hin. apply Hall. right. exact Hin. }
    unfold merged_rows at 1. simpl. rewrite Hfresh. simpl.
    rewrite app_nil_r, (merged_rows_fixed _ _ Hv), Z.add_0_r. reflexivity.
Qed.

End Merge.

Definition table_rows (db : Database.DB) (name : string)
  : option (list Database.Row) :=
  match Database.tables db !! name with
  | Some t => Some (Database.rows t)
  | None => None
  end.

Definition syntax_error : error :=
  Errorf "error batch inserting: "
         (OsError "Incorrect syntax near the keyword 'ON'.").

(** VariantA's statement is refused whatever the batch and the table. *)
Lemma batchInsert_variantA_fails (db : Database.DB) (name : string)
    (files : list FileInfo) :
  files <> [] ->
  (exists e, snd (Database.batchInsert VariantA db name files) = Some e)
  /\ Database.tables (fst (Database.batchInsert VariantA db name files))
     = Database.tables db.
Proof.
  intros Hne. unfold Database.batchInsert, Database.Exec.
  destruct files as [|f rest]; [contradiction|]. simpl.
  destruct (Database.faults db) as [|[|] later]; simpl; eauto.
Qed.

(** VariantB's [batchInsert] on a reachable server and an existing table:
    both deliveries of a batch with distinct identifiers succeed, the table
    then holds every record of the batch under distinct identifiers, and the
    second delivery changes nothing. *)
Lemma batchInsert_variantB_idempotent (db : Database.DB) (name : string)
    (t : Database.Table) (files : list FileInfo) :
  Database.faults db = [] ->
  Database.tables db !! name = Some t ->
  List.NoDup (Database.hashes (Database.rows t)) ->
  List.NoDup (map PathHash files) ->
  files <> [] ->
  exists t',
    let r1 := Database.batchInsert VariantB db name files in
    let r2 := Database.batchInsert VariantB (fst r1) name files in
    snd r1 = None /\ snd r2 = None
    /\ Database.tables (fst r1) !! name = Some t'
    /\ Database.tables (fst r2) !! name = Some t'
    /\ List.NoDup (Database.hashes (Database.rows t'))
    /\ (forall s, In s files ->
          exists row, In row (Database.rows t') /\ Database.fields row = s).
Proof.
  intros Hon Hlook Ht Hv Hne.
  destruct (merge_is_idempotent_upsert t files Ht Hv)
    as (t' & Hm & Hnd & Hall & _ & Hm').
  exists t'.
  assert (Hstep : forall d t0, Database.faults d = [] ->
            Database.tables d !! name = Some t0 ->
            Database.merge t0 files = Ok t' ->
            Database.batchInsert VariantB d name files
            = ({| Database.tables := <[name := t']> (Database.tables d);
                  Database.faults := [] |}, None)).
  { intros d t0 Hd Hl Hmerge. unfold Database.batchInsert, Database.Exec.
    destruct files as [|f rest]; [contradiction|]. cbn [length Nat.eqb].
    rewrite Hd, Hl, Hmerge. reflexivity. }
  cbv zeta. rewrite (Hstep db t Hon Hlook Hm). cbn [fst snd].
  rewrite (Hstep _ t'); [|reflexivity | apply lookup_insert_eq | exact Hm'].
  cbn [fst snd Database.tables]. rewrite !lookup_insert_eq.
  repeat split; auto.
Qed.

(** C3, VariantA (database.go 62-95): the statement sent is
    [INSERT ... ON DUPLICATE KEY UPDATE], which the SQL Server the program
    connects to refuses; [batchInsert] returns the error and the table stays
    empty, so no row is inserted for an absent identifier.  VariantB
    (database.go 161-214) on the same batch inserts the row at the first
    delivery and leaves the table as it is at the second. *)
Theorem batchInsert_variantA_never_upserts :
  let a := Database.batchInsert VariantA (sample_db VariantA) "files" [sample_info] in
  let b1 := Database.batchInsert VariantB (sample_db VariantB) "files" [sample_info] in
  let b2 := Database.batchInsert VariantB (fst b1) "files" [sample_info] in
  snd a = Some syntax_error
  /\ table_rows (fst a) "files" = Some []
  /\ snd b1 = None
  /\ table_rows (fst b1) "files"
     = Some [ {| Database.Id := 1; Database.fields := sample_info |} ]
  /\ snd b2 = None
  /\ table_rows (fst b2) "files" = table_rows (fst b1) "files".
Proof. vm_compute. repeat split; reflexivity. Qed.

(** ** The persisted scan state at the end of a scan *)

Definition running_app : Controller.App :=
  {| Controller.scanState :=
       {| FolderPath := "/data";
          FilesScanned := {[ "/data/a.txt"%string := true ]};
          LastModified := 0 |};
     Controller.scanning := true;
     Controller.paused := false;
     Controller.status := "Status: Scanning";
     Controller.disk := {| Controller.scan_state_gob := None;
                           Controller.writable := true |};
     Controller.problems := [] |}.

(** Whatever [scanFolder] returned, a scan that can write its state file
    ends with the file removed: it is written and then deleted. *)
Lemma scanFinished_deletes (err : option error) (app : Controller.App) :
  Controller.writable (Controller.disk app) = true ->
  Controller.scanStateExists (fst (Controller.saveScanState app)) = true
  /\ Controller.scanStateExists (Controller.scanFinished err app) = false.
Proof.
  intros Hw. unfold Controller.scanFinished, Controller.saveScanState,
    Controller.deleteScanState, Controller.scanStateExists.
  rewrite Hw. split; [reflexivity|].
  destruct err as [[| |]|]; simpl; rewrite Hw; reflexivity.
Qed.

(** The scan state in memory is not touched by the end of a scan, and the
    next Start finds it again. *)
Lemma resumed_start_keeps_processed (err : option error) (folder : string)
    (app : Controller.App) :
  Controller.writable (Controller.disk app) = true ->
  FilesScanned (Controller.scanState
                  (Controller.startScan folder (Controller.scanFinished err app)))
  = FilesScanned (Controller.scanState app).
Proof.
  intros Hw. unfold Controller.startScan, Controller.loadScanState,
    Controller.scanFinished, Controller.saveScanState, Controller.deleteScanState.
  destruct err as [[| |]|]; simpl; rewrite Hw; reflexivity.
Qed.

(** C6 (database.go 496-510 and 913-927): after a Stop ([scanFolder]
    returned [context.Canceled]) and after a fatal error the handler saves
    the scan state and then deletes the file, exactly as after a natural
    completion: no persisted scan state is left to resume from. *)
Theorem scanFinished_deletes_state_after_stop :
  Controller.scanStateExists
    (Controller.scanFinished (Some Canceled) running_app) = false
  /\ Controller.scanStateExists
       (Controller.scanFinished
          (Some (Errorf "error batch inserting: "
                   (Errorf "error batch merging: " (OsError "connection lost"))))
          running_app) = false
  /\ Controller.scanStateExists (Controller.scanFinished None running_app) = false
  /\ Controller.scanStateExists (fst (Controller.saveScanState running_app)) = true.
Proof. vm_compute. repeat split; reflexivity. Qed.

(** ** The walker and the next Start *)

(** The scan state of a process that has just started. *)
Definition zero_ScanState : ScanState :=
  {| FolderPath := EmptyString; FilesScanned := ∅; LastModified := 0 |}.

Lemma gob_decode_into_zero (stored : ScanState) :
  Controller.gob_decode_into stored zero_ScanState = stored.
Proof.
  destruct stored as [folder fl modified]. unfold Controller.gob_decode_into.
  simpl. rewrite map_union_empty.
  destruct (String.eqb folder EmptyString) eqn:Hf;
    [apply String.eqb_eq in Hf; subst folder|];
    (destruct (Z.eqb modified 0) eqn:Hm;
     [apply Z.eqb_eq in Hm; subst modified|]); reflexivity.
Qed.

(** One call of the callback that returns nil: the processed set only
    grows, and a path that enters it has been sent. *)
Lemma callback_nil_step (var : variant) (v : Visit) (st st' : Walker.State) :
  Walker.callback var v st = (st', None) ->
  (forall p, scanned (Walker.files st) p = true ->
             scanned (Walker.files st') p = true)
  /\ (forall p, scanned (Walker.files st) p = false ->
                scanned (Walker.files st') p = true ->
                In p (Walker.emitted (Walker.trace st')))
  /\ (forall p, In p (Walker.emitted (Walker.trace st)) ->
                In p (Walker.emitted (Walker.trace st')))
  /\ (is_file_visit v = true -> scanned (Walker.files st') (v_path v) = true).
Proof.
  unfold Walker.callback, Walker.walkFn, is_file_visit.
  destruct (v_err v) as [e|].
  - destruct var; intros H; inversion H; subst; cbn [Walker.files Walker.trace].
    rewrite emitted_app. simpl. rewrite app_nil_r.
    repeat split; auto; try congruence; discriminate.
  - destruct (v_isDir v).
    + intros H; inversion H; subst; cbn [Walker.files Walker.trace].
      rewrite app_nil_r. repeat split; auto; try congruence; discriminate.
    + destruct (scanned (Walker.files st) (v_path v)) eqn:Hseen.
      * intros H; inversion H; subst; cbn [Walker.files Walker.trace].
        rewrite emitted_app. simpl. rewrite app_nil_r.
        repeat split; auto; congruence.
      * assert (Hsend : forall later,
                  let st1 := {| Walker.files := <[v_path v := true]> (Walker.files st);
                                Walker.trace :=
                                  Walker.trace st
                                  ++ [Walker.Lock; Walker.Mark (v_path v);
                                      Walker.Unlock] ++ [Walker.Emit (v_path v)];
                                Walker.choices := later |} in
                  (forall p, scanned (Walker.files st) p = true ->
                             scanned (Walker.files st1) p = true)
                  /\ (forall p, scanned (Walker.files st) p = false ->
                                scanned (Walker.files st1) p = true ->
                                In p (Walker.emitted (Walker.trace st1)))
                  /\ (forall p, In p (Walker.emitted (Walker.trace st)) ->
                                In p (Walker.emitted (Walker.trace st1)))
                  /\ (negb false = true ->
                      scanned (Walker.files st1) (v_path v) = true)).
        { intros later st1. subst st1. cbn [Walker.files Walker.trace].
          rewrite emitted_app. simpl. split; [|split; [|split]].
          - intros p Hp. rewrite scanned_insert.
            destruct (decide (v_path v = p)); [reflexivity | exact Hp].
          - intros p Hp. rewrite scanned_insert, in_app_iff.
            destruct (decide (v_path v = p)) as [<-|Hne];
              [intros _; right; left; reflexivity | congruence].
          - intros p Hp. apply in_or_app. left. exact Hp.
          - intros _. rewrite scanned_insert.
            destruct (decide (v_path v = v_path v)); congruence. }
        destruct (Walker.choices st) as [|[|] later]; intros H; inversion H;
          subst; apply Hsend.
Qed.

(** A walk that returns nil leaves every regular file it visited in the
    processed set, and has sent every one that was not there before. *)
Lemma run_nil_marks (var : variant) (vs : list Visit) :
  forall st st',
    WalkDir.run (Walker.callback var) vs st = (st', None) ->
    (forall p, scanned (Walker.files st) p = true ->
               scanned (Walker.files st') p = true)
    /\ (forall p, scanned (Walker.files st) p = false ->
                  scanned (Walker.files st') p = true ->
                  In p (Walker.emitted (Walker.trace st')))
    /\ (forall p, In p (Walker.emitted (Walker.trace st)) ->
                  In p (Walker.emitted (Walker.trace st')))
    /\ (forall v, In v vs -> is_file_visit v = true ->
                  scanned (Walker.files st') (v_path v) = true).
Proof.
  induction vs as [|v vs IH]; intros st st' Hrun; simpl in Hrun.
  - inversion Hrun; subst. repeat split; auto; try congruence; intros v [].
  - destruct (Walker.callback var v st) as [st1 [e|]] eqn:Hcb; [discriminate|].
    destruct (callback_nil_step var v st st1 Hcb) as (Hm1 & He1 & Hk1 & Hf1).
    destruct (IH st1 st' Hrun) as (Hm & He & Hk & Hf).
    split; [|split; [|split]].
    + intros p Hp. apply Hm, Hm1, Hp.
    + intros p Hp Hp'.
      destruct (scanned (Walker.files st1) p) eqn:H1.
      * apply Hk, He1; assumption.
      * apply He; assumption.
    + intros p Hp. apply Hk, Hk1, Hp.
    + intros w [<- | Hin] Hw; [apply Hm, Hf1, Hw | apply Hf; assumption].
Qed.

(** The end of a scan and the next Start in the same process leave every
    processed path in the set, when the data directory is writable or the
    state file there, if any, holds no path marked false (a file written by
    [saveScanState] holds none). *)
Lemma next_start_keeps_processed (err : option error) (folder : string)
    (app : Controller.App) :
  Controller.writable (Controller.disk app) = true
  \/ (forall stored q,
        Controller.scan_state_gob (Controller.disk app) = Some stored ->
        FilesScanned stored !! q <> Some false) ->
  forall p,
    scanned (FilesScanned (Controller.scanState app)) p = true ->
    scanned (FilesScanned (Controller.scanState
               (Controller.startScan folder (Controller.scanFinished err app)))) p
    = true.
Proof.
  intros Hdisk p Hp.
  destruct (Controller.writable (Controller.disk app)) eqn:Hw.
  - rewrite (resumed_start_keeps_processed err folder app Hw). exact Hp.
  - destruct Hdisk as [Hd | Hd]; [discriminate|].
    unfold Controller.startScan, Controller.loadScanState,
      Controller.scanFinished, Controller.saveScanState,
      Controller.deleteScanState.
    destruct (Controller.scan_state_gob (Controller.disk app)) as [stored|] eqn:Hg.
    + specialize (Hd stored p eq_refl).
      destruct err as [[| |]|]; simpl; rewrite Hw; simpl; rewrite Hg; simpl;
        rewrite Hw; simpl; rewrite Hg; simpl;
        unfold scanned in *; rewrite lookup_union;
        destruct (FilesScanned stored !! p) as [[|]|];
        destruct (FilesScanned (Controller.scanState app) !! p) as [[|]|];
        first [ reflexivity | congruence | exact Hp ].
    + destruct err as [[| |]|]; simpl; rewrite Hw; simpl; rewrite Hg; simpl;
        rewrite Hg; simpl; exact Hp.
Qed.

(** C1: in a walk started on the processed set [files0], a path already in
    the set is never emitted; an emitted path was absent, and was marked
    present between [Lock] and [Unlock] just before it was emitted; every
    marked path is in the set the walk leaves; no path is emitted twice.
    The callback, called on a regular file whose path is absent, puts the
    path into the set between [Lock] and [Unlock] and then sends it, unless
    its [select] finds the context done; called on one whose path is
    present, it changes nothing and sends nothing.  A walk that returns nil
    has left every regular file it visited in the set and has sent every one
    that was absent.
    A later walk (any root, so also the same one) emits no path processed
    so far when it starts on a set that keeps them, and it does: the next
    Start of the same process takes the set from memory, which neither the
    end of a scan nor Start removes a path from, and a process started
    later that finds the state file as [saveScanState] wrote it loads the
    set from there, whatever it holds in memory by then (nothing, or what
    the resume dialog has loaded already).  The end of a scan,
    [Controller.scanFinished], deletes the file it has just written: that
    is C6. *)
Theorem walker_never_reemits :
  forall (var : variant) (root1 root2 : WalkRoot)
         (choices1 choices2 : list Walker.Choice) (files0 files1 : gmap string bool),
    let walk1 := Walker.walk var root1
        {| Walker.files := files0; Walker.trace := []; Walker.choices := choices1 |} in
    let first := fst walk1 in
    let second_from (files : gmap string bool) :=
      fst (Walker.walk var root2
        {| Walker.files := files; Walker.trace := []; Walker.choices := choices2 |}) in
    let second := second_from files1 in
    let processed p :=
      scanned files0 p = true \/ In p (Walker.marked (Walker.trace first)) in
    (forall p, scanned files0 p = true ->
               ~ In p (Walker.emitted (Walker.trace first)))
    /\ (forall pre post p,
          Walker.trace first = pre ++ Walker.Emit p :: post ->
          scanned files0 p = false
          /\ exists pre', pre = pre' ++ [Walker.Lock; Walker.Mark p; Walker.Unlock])
    /\ (forall p, In p (Walker.marked (Walker.trace first)) ->
                  scanned (Walker.files first) p = true)
    /\ List.NoDup (Walker.emitted (Walker.trace first))
    /\ ((forall p, scanned (Walker.files first) p = true -> scanned files1 p = true) ->
        forall p, processed p -> ~ In p (Walker.emitted (Walker.trace second)))
    /\ (forall (v : Visit) (st : Walker.State),
          is_file_visit v = true ->
          let r := Walker.callback var v st in
          if scanned (Walker.files st) (v_path v)
          then Walker.files (fst r) = Walker.files st
               /\ Walker.trace (fst r)
                  = Walker.trace st ++ [Walker.Lock; Walker.Unlock]
               /\ snd r = None
          else Walker.files (fst r) = <[v_path v := true]> (Walker.files st)
               /\ ((Walker.trace (fst r)
                    = Walker.trace st
                      ++ [Walker.Lock; Walker.Mark (v_path v); Walker.Unlock;
                          Walker.Emit (v_path v)]
                    /\ snd r = None)
                   \/ (Walker.trace (fst r)
                       = Walker.trace st
                         ++ [Walker.Lock; Walker.Mark (v_path v); Walker.Unlock]
                       /\ snd r = Some Canceled
                       /\ exists later,
                            Walker.choices st = Walker.CtxDone :: later)))
    /\ (snd walk1 = None ->
        forall v, In v (WalkDir.root_visits root1) -> is_file_visit v = true ->
          scanned (Walker.files first) (v_path v) = true
          /\ (scanned files0 (v_path v) = false ->
              In (v_path v) (Walker.emitted (Walker.trace first))))
    /\ (forall (app : Controller.App) (folder : string) (err : option error),
          FilesScanned (Controller.scanState app) = Walker.files first ->
          Controller.writable (Controller.disk app) = true
          \/ (forall stored q,
                Controller.scan_state_gob (Controller.disk app) = Some stored ->
                FilesScanned stored !! q <> Some false) ->
          let next :=
            Controller.startScan folder (Controller.scanFinished err app) in
          forall p, processed p ->
            ~ In p (Walker.emitted (Walker.trace
                      (second_from (FilesScanned (Controller.scanState next))))))
    /\ (forall (app fresh : Controller.App) (folder : string),
          FilesScanned (Controller.scanState app) = Walker.files first ->
          Controller.writable (Controller.disk app) = true ->
          Controller.disk fresh
          = Controller.disk (fst (Controller.saveScanState app)) ->
          let next := Controller.startScan folder fresh in
          forall p, processed p ->
            ~ In p (Walker.emitted (Walker.trace
                      (second_from (FilesScanned (Controller.scanState next)))))).
Proof.
  intros var root1 root2 choices1 choices2 files0 files1
         walk1 first second_from second processed.
  assert (Hlater : forall files,
            (forall p, scanned (Walker.files first) p = true ->
                       scanned files p = true) ->
            forall p, processed p ->
              ~ In p (Walker.emitted (Walker.trace (second_from files)))).
  { intros files Hkeep p Hp Hin. clear second.
    subst second_from processed first walk1. cbv beta in *.
    destruct (Walker.walk var root1 _) as [st1 err1] eqn:H1.
    destruct (Walker.walk var root2 _) as [st2 err2] eqn:H2.
    apply walk_Walked in H1. destruct H1 as (evs1 & Ht1 & Hw1).
    apply walk_Walked in H2. destruct H2 as (evs2 & Ht2 & Hw2).
    simpl in *. rewrite Ht2 in Hin.
    apply (Walked_emitted_absent _ _ _ Hw2) in Hin.
    assert (scanned (Walker.files st1) p = true) as Hs.
    { apply (Walked_files _ _ _ Hw1). rewrite Ht1 in Hp. exact Hp. }
    apply Hkeep in Hs. congruence. }
  split; [|split; [|split; [|split; [|split; [|split; [|split; [|split]]]]]]].
  - subst first walk1. destruct (Walker.walk var root1 _) as [st1 err1] eqn:H1.
    apply walk_Walked in H1. destruct H1 as (evs1 & Ht1 & Hw1). simpl in *.
    intros p Hp Hin. rewrite Ht1 in Hin.
    apply (Walked_emitted_absent _ _ _ Hw1) in Hin. congruence.
  - subst first walk1. destruct (Walker.walk var root1 _) as [st1 err1] eqn:H1.
    apply walk_Walked in H1. destruct H1 as (evs1 & Ht1 & Hw1). simpl in *.
    intros pre post p Heq. split.
    + apply (Walked_emitted_absent _ _ _ Hw1). rewrite <- Ht1, Heq.
      unfold Walker.emitted. rewrite flat_map_app. apply in_or_app. right.
      simpl. left. reflexivity.
    + apply (Walked_emit_after_mark _ _ _ Hw1 pre post). rewrite <- Heq.
      symmetry. exact Ht1.
  - subst first walk1. destruct (Walker.walk var root1 _) as [st1 err1] eqn:H1.
    apply walk_Walked in H1. destruct H1 as (evs1 & Ht1 & Hw1). simpl in *.
    intros p Hin. rewrite Ht1 in Hin. apply (Walked_files _ _ _ Hw1). right.
    exact Hin.
  - subst first walk1. destruct (Walker.walk var root1 _) as [st1 err1] eqn:H1.
    apply walk_Walked in H1. destruct H1 as (evs1 & Ht1 & Hw1). simpl in *.
    rewrite Ht1. apply (Walked_emitted_NoDup _ _ _ Hw1).
  - intros Hkeep. apply Hlater. exact Hkeep.
  - intros v st Hfile r. subst r.
    unfold Walker.callback, Walker.walkFn. unfold is_file_visit in Hfile.
    destruct (v_err v); [discriminate|].
    destruct (v_isDir v); [discriminate|].
    destruct (scanned (Walker.files st) (v_path v)).
    + simpl. auto.
    + destruct (Walker.choices st) as [|[|] later]; simpl;
        (split; [reflexivity|]); eauto 6.
  - intros Hnil v Hin Hfile. subst first walk1. unfold Walker.walk in *.
    rewrite WalkDir_run in *.
    destruct (WalkDir.run _ _ _) as [st1 err1] eqn:Hrun. simpl in Hnil.
    subst err1. destruct (run_nil_marks _ _ _ _ Hrun) as (_ & He & _ & Hf).
    simpl in *. split; [apply Hf; assumption|].
    intros Habs. apply He; [exact Habs | apply Hf; assumption].
  - intros app folder err Hset Hdisk next. apply Hlater. intros p Hp.
    apply (next_start_keeps_processed err folder app Hdisk).
    rewrite Hset. exact Hp.
  - intros app fresh folder Hset Hw Hdisk next. apply Hlater.
    intros p Hp. subst next.
    unfold Controller.startScan, Controller.loadScanState.
    cbn [Controller.disk Controller.set_status]. rewrite Hdisk.
    unfold Controller.saveScanState. rewrite Hw. simpl.
    unfold scanned in *. rewrite lookup_union, Hset.
    destruct (Walker.files first !! p) as [[|]|]; try discriminate.
    destruct (FilesScanned (Controller.scanState fresh) !! p); reflexivity.
Qed.

(** ** The batch sink stage *)

Lemma batchSize_pos (var : variant) : (0 < batchSize var)%nat.
Proof. destruct var; simpl; lia. Qed.

Lemma chunks_from_concat {A} (n : nat) (l : list A) :
  forall cur, concat (Sink.chunks_from n cur l) = cur ++ l.
Proof.
  induction l as [|x rest IH]; intros cur; simpl.
  - destruct cur; simpl; rewrite ?app_nil_r; reflexivity.
  - destruct (n <=? length (cur ++ [x]))%nat; simpl; rewrite IH, <- ?app_assoc;
      reflexivity.
Qed.

(** Every piece is non-empty and at most [n] long, and every piece but the
    last is exactly [n] long. *)
Lemma chunks_from_lengths {A} (n : nat) (l : list A) :
  forall cur pre b post,
    (0 < n)%nat -> (length cur < n)%nat ->
    Sink.chunks_from n cur l = pre ++ b :: post ->
    (0 < length b <= n)%nat /\ (post <> [] -> length b = n).
Proof.
  induction l as [|x rest IH]; intros cur pre b post Hn Hcur Heq; simpl in Heq.
  - destruct cur as [|c cur]; [destruct pre; discriminate|].
    destruct pre as [|p pre]; [|destruct pre; discriminate].
    inversion Heq; subst. simpl in *. split; [lia | congruence].
  - destruct (n <=? length (cur ++ [x]))%nat eqn:Hfull.
    + apply Nat.leb_le in Hfull. rewrite length_app in Hfull. simpl in Hfull.
      destruct pre as [|p pre].
      * inversion Heq; subst. rewrite length_app. simpl. split; [lia|]. intros _. lia.
      * inversion Heq; subst. apply (IH [] pre b post Hn); [simpl; lia | assumption].
    + apply Nat.leb_gt in Hfull. apply (IH (cur ++ [x]) pre b post Hn Hfull Heq).
Qed.

(** The shape of what the stage records: a counter update stands right
    after the successful flush it accounts for, with the size of that batch,
    and a failed flush is followed by the report of the error and nothing
    else. *)
Inductive Accounted : list Sink.Event -> Prop :=
| Accounted_nil : Accounted []
| Accounted_recv r evs : Accounted evs -> Accounted (Sink.Recv r :: evs)
| Accounted_stored b evs :
    Accounted evs ->
    Accounted (Sink.Flush b None :: Sink.Written (Z.of_nat (length b)) :: evs)
| Accounted_failed b e e' :
    Accounted [Sink.Flush b (Some e); Sink.Report e'].

Lemma Accounted_written (evs : list Sink.Event) :
  Accounted evs ->
  forall pre post k,
    evs = pre ++ Sink.Written k :: post ->
    exists pre' b, pre = pre' ++ [Sink.Flush b None] /\ k = Z.of_nat (length b).
Proof.
  induction 1 as [|r evs _ IH|b evs _ IH|b e e']; intros pre post k Heq.
  - destruct pre; discriminate.
  - destruct pre as [|a pre]; [discriminate|]. inversion Heq; subst.
    destruct (IH _ _ _ eq_refl) as (pre' & b & -> & ->).
    exists (Sink.Recv r :: pre'), b. split; reflexivity.
  - destruct pre as [|a [|a' pre]]; [discriminate| |].
    + inversion Heq; subst. exists [], b. split; reflexivity.
    + inversion Heq; subst. destruct (IH _ _ _ eq_refl) as (pre' & b' & -> & ->).
      exists (Sink.Flush b None :: Sink.Written (Z.of_nat (length b)) :: pre'), b'.
      split; reflexivity.
  - destruct pre as [|a [|a' [|a'' pre]]]; discriminate.
Qed.

Lemma Accounted_failure (evs : list Sink.Event) :
  Accounted evs ->
  forall pre post b e,
    evs = pre ++ Sink.Flush b (Some e) :: post ->
    Sink.increments (pre ++ Sink.Flush b (Some e) :: post) = Sink.increments pre
    /\ exists e', post = [Sink.Report e'].
Proof.
  induction 1 as [|r evs _ IH|b0 evs _ IH|b0 e0 e']; intros pre post b e Heq.
  - destruct pre; discriminate.
  - destruct pre as [|a pre]; [discriminate|]. inversion Heq; subst.
    destruct (IH _ _ _ _ eq_refl) as [Hinc Hpost]. split; [|exact Hpost].
    simpl. exact Hinc.
  - destruct pre as [|a [|a' pre]]; [discriminate|discriminate|].
    inversion Heq; subst. destruct (IH _ _ _ _ eq_refl) as [Hinc Hpost].
    split; [|exact Hpost]. simpl. f_equal. exact Hinc.
  - destruct pre as [|a [|a' [|a'' pre]]]; try discriminate.
    inversion Heq; subst. split; [reflexivity | eauto].
Qed.

Lemma Accounted_counted (evs : list Sink.Event) :
  Accounted evs ->
  forall pre post b,
    evs = pre ++ Sink.Flush b None :: post ->
    exists post', post = Sink.Written (Z.of_nat (length b)) :: post'.
Proof.
  induction 1 as [|r evs _ IH|b0 evs _ IH|b0 e0 e']; intros pre post b Heq.
  - destruct pre; discriminate.
  - destruct pre as [|a pre]; [discriminate|]. inversion Heq; subst.
    apply (IH _ _ _ eq_refl).
  - destruct pre as [|a [|a' pre]].
    + inversion Heq; subst. eauto.
    + discriminate.
    + inversion Heq; subst. apply (IH _ _ _ eq_refl).
  - destruct pre as [|a [|a' [|a'' pre]]]; discriminate.
Qed.

(** A call of [batchInsert] that returned nil. *)
Definition accepted_call (c : list FileInfo * option error) : Prop :=
  snd c = None.

Section SinkLoop.
Context {DB : Type}.
Variable batchInsert : DB -> string -> list FileInfo -> DB * option error.
Variable var : variant.
Variable tableName : string.

Let n := batchSize var.

(** What the stage is to do with the batches it forms, in the spec's
    words: hand each one to [batchInsert], on the database the call before
    left, and stop at the first call that fails.  The result is the database
    left by the last call and the calls made, each with its answer. *)
Fixpoint deliver (batches : list (list FileInfo)) (d : DB)
  : DB * list (list FileInfo * option error) :=
  match batches with
  | [] => (d, [])
  | b :: rest =>
      let '(d', err) := batchInsert d tableName b in
      match err with
      | Some e => (d', [(b, Some e)])
      | None =>
          let '(d'', made) := deliver rest d' in
          (d'', (b, None) :: made)
      end
  end.

(** What one run of the stage's loop has asked of [batchInsert]. *)
Record Delivered (records : list FileInfo) (st st' : @Sink.State DB)
    (err : option error) (evs : list Sink.Event) : Prop := {
  del_trace : Sink.trace st' = Sink.trace st ++ evs;
  del_calls :
    Sink.calls evs
    = snd (deliver (Sink.chunks_from n (Sink.batch st) records) (Sink.db st));
  del_db :
    Sink.db st'
    = fst (deliver (Sink.chunks_from n (Sink.batch st) records) (Sink.db st));
  del_ok : err = None <-> Forall accepted_call (Sink.calls evs);
  del_err : forall e, err = Some e ->
    exists pre b e0,
      Sink.calls evs = pre ++ [(b, Some e0)]
      /\ Forall accepted_call pre
      /\ e = Sink.wrap var (length b <? n)%nat e0 }.

Lemma loop_deliver (records : list FileInfo) :
  forall st st' err,
    (length (Sink.batch st) < n)%nat ->
    Sink.loop batchInsert var tableName records st = (st', err) ->
    exists evs, Delivered records st st' err evs.
Proof.
  induction records as [|r records IH]; intros [cur d c tr] st' err Hlen Hloop;
    cbn [Sink.loop] in Hloop; cbn [Sink.batch] in Hlen.
  - unfold Sink.finish, Sink.flush in Hloop.
    cbn [Sink.batch Sink.db Sink.trace Sink.totalFilesWritten] in Hloop.
    destruct cur as [|b0 bs].
    + simpl in Hloop. inversion Hloop; subst; clear Hloop.
      exists []. split; simpl; rewrite ?app_nil_r; auto.
      * split; [constructor | reflexivity].
      * discriminate.
    + cbn [length Nat.ltb Nat.leb] in Hloop.
      destruct (batchInsert d tableName (b0 :: bs)) as [db' [e|]] eqn:Hins;
        inversion Hloop; subst; clear Hloop; eexists;
        (split; cbn [Sink.trace Sink.db Sink.batch Sink.chunks_from deliver];
         rewrite ?Hins; cbn [fst snd]; [reflexivity | reflexivity
           | reflexivity | |]).
      * split; [discriminate|]. intros Hall. inversion Hall as [|? ? Hc _]; subst.
        discriminate.
      * intros e0 He0. inversion He0; subst. exists [], (b0 :: bs), e.
        split; [reflexivity|]. split; [constructor|].
        apply Nat.ltb_lt in Hlen. rewrite Hlen. reflexivity.
      * split; [intros _; repeat constructor | reflexivity].
      * discriminate.
  - unfold Sink.receive, Sink.flush in Hloop. fold n in Hloop.
    cbn [Sink.batch Sink.db Sink.trace Sink.totalFilesWritten] in Hloop.
    destruct (n <=? length (cur ++ [r]))%nat eqn:Hfull.
    + destruct (batchInsert d tableName (cur ++ [r])) as [db' [e|]] eqn:Hins.
      * inversion Hloop; subst; clear Hloop. eexists.
        split; cbn [Sink.trace Sink.db Sink.batch Sink.chunks_from deliver];
          rewrite ?Hfull; cbn [deliver]; rewrite ?Hins; cbn [fst snd];
          [rewrite <- app_assoc; reflexivity | reflexivity | reflexivity | |].
        -- split; [discriminate|]. intros Hall.
           inversion Hall as [|? ? Hc _]; subst. discriminate.
        -- intros e0 He0. inversion He0; subst.
           exists [], (cur ++ [r]), e.
           split; [reflexivity|]. split; [constructor|].
           apply Nat.leb_le in Hfull. apply Nat.ltb_ge in Hfull.
           rewrite Hfull. reflexivity.
      * apply IH in Hloop; [|simpl; apply batchSize_pos].
        destruct Hloop as (evs & [Ht Hc Hd Hok Herr]).
        cbn [Sink.batch Sink.db Sink.trace] in *.
        exists (Sink.Recv r :: Sink.Flush (cur ++ [r]) None
                :: Sink.Written (Z.of_nat (length (cur ++ [r]))) :: evs).
        split; cbn [Sink.trace Sink.db Sink.batch Sink.chunks_from];
          rewrite ?Hfull; cbn [deliver]; rewrite ?Hins;
          destruct (deliver (Sink.chunks_from n [] records) db') as [d2 made];
          cbn [fst snd Sink.calls flat_map app] in *; fold (Sink.calls evs).
        -- rewrite Ht, <- !app_assoc. reflexivity.
        -- rewrite Hc. reflexivity.
        -- exact Hd.
        -- rewrite Hok. split.
           ++ intros Hall. constructor; [reflexivity | exact Hall].
           ++ intros Hall. inversion Hall; assumption.
        -- intros e0 He0.
           destruct (Herr e0 He0) as (pre & b & e1 & Hcalls & Hpre & He).
           exists ((cur ++ [r], None) :: pre), b, e1.
           rewrite Hcalls. split; [reflexivity|].
           split; [constructor; [reflexivity | exact Hpre] | exact He].
    + pose proof Hfull as Hfull'. apply Nat.leb_gt in Hfull'.
      apply IH in Hloop; [|simpl; exact Hfull'].
      destruct Hloop as (evs & [Ht Hc Hd Hok Herr]).
      cbn [Sink.batch Sink.db Sink.trace] in *.
      exists (Sink.Recv r :: evs).
      split; cbn [Sink.trace Sink.db Sink.batch Sink.chunks_from Sink.calls
                  flat_map app];
        rewrite ?Hfull; fold (Sink.calls evs); try assumption.
      rewrite Ht, <- app_assoc. reflexivity.
Qed.

Definition sizes (batches : list (list FileInfo)) : list Z :=
  map (fun b => Z.of_nat (length b)) batches.

(** What one run of the stage's loop adds to the trace. *)
Record LoopSpec (records : list FileInfo) (st st' : @Sink.State DB)
    (err : option error) (evs : list Sink.Event) (rest : list FileInfo) : Prop := {
  spec_trace : Sink.trace st' = Sink.trace st ++ evs;
  spec_received : records = Sink.received evs ++ rest;
  spec_all : err = None -> rest = [];
  spec_flushed :
    Sink.flushed evs = Sink.chunks_from n (Sink.batch st) (Sink.received evs);
  spec_partial :
    rest = [] \/ Forall (fun b => (n <= length b)%nat) (Sink.flushed evs);
  spec_accounted : Accounted evs;
  spec_increments : Sink.increments evs = sizes (Sink.stored evs);
  spec_counter :
    Sink.totalFilesWritten st'
    = fold_left AddInt64 (Sink.increments evs) (Sink.totalFilesWritten st) }.

Lemma loop_spec (records : list FileInfo) :
  forall st st' err,
    (length (Sink.batch st) < n)%nat ->
    Sink.loop batchInsert var tableName records st = (st', err) ->
    exists evs rest, LoopSpec records st st' err evs rest.
Proof.
  induction records as [|r records IH]; intros st st' err Hlen Hloop;
    simpl in Hloop.
  - unfold Sink.finish, Sink.flush in Hloop.
    destruct (0 <? length (Sink.batch st))%nat eqn:Hne.
    + apply Nat.ltb_lt in Hne.
      destruct (batchInsert _ _ _) as [db' [e|]]; inversion Hloop; subst; clear Hloop;
        eexists; exists []; (split; simpl;
          [reflexivity | reflexivity | auto | | auto | | reflexivity | reflexivity]).
      * destruct (Sink.batch st); [simpl in Hne; lia | reflexivity].
      * constructor.
      * destruct (Sink.batch st); [simpl in Hne; lia | reflexivity].
      * apply (Accounted_stored _ []). constructor.
    + apply Nat.ltb_ge in Hne. inversion Hloop; subst; clear Hloop.
      exists [], []. split; simpl; auto using app_nil_r; try constructor.
      destruct (Sink.batch st'); [reflexivity | simpl in Hne; lia].
  - unfold Sink.receive, Sink.flush in Hloop. fold n in Hloop.
    cbn [Sink.batch Sink.db Sink.trace Sink.totalFilesWritten] in Hloop.
    destruct (n <=? length (Sink.batch st ++ [r]))%nat eqn:Hfull.
    + destruct (batchInsert _ _ _) as [db' [e|]].
      * inversion Hloop; subst; clear Hloop.
        exists [Sink.Recv r; Sink.Flush (Sink.batch st ++ [r]) (Some e);
                Sink.Report (Sink.wrap var false e)], records.
        split; simpl; auto.
        -- rewrite <- app_assoc. reflexivity.
        -- discriminate.
        -- fold n. rewrite Hfull. reflexivity.
        -- right. repeat constructor. apply Nat.leb_le. exact Hfull.
        -- repeat constructor.
      * apply IH in Hloop; [|simpl; apply batchSize_pos].
        destruct Hloop as (evs & rest & [Ht Hr Hall Hfl Hp Hacc Hinc Hcnt]).
        cbn [Sink.batch Sink.db Sink.trace Sink.totalFilesWritten] in *.
        exists (Sink.Recv r :: Sink.Flush (Sink.batch st ++ [r]) None
                :: Sink.Written (Z.of_nat (length (Sink.batch st ++ [r]))) :: evs),
               rest.
        split; simpl; auto.
        -- rewrite Ht, <- !app_assoc. reflexivity.
        -- rewrite Hr. reflexivity.
        -- fold n. rewrite Hfull, Hfl. reflexivity.
        -- destruct Hp as [Hp|Hp]; [left; exact Hp | right].
           constructor; [apply Nat.leb_le; exact Hfull | exact Hp].
        -- repeat constructor. exact Hacc.
        -- rewrite Hinc. reflexivity.
    + apply Nat.leb_gt in Hfull. pose proof Hfull as Hfull'.
      apply Nat.leb_gt in Hfull'.
      apply IH in Hloop; [|simpl; exact Hfull].
      destruct Hloop as (evs & rest & [Ht Hr Hall Hfl Hp Hacc Hinc Hcnt]).
      cbn [Sink.batch Sink.db Sink.trace Sink.totalFilesWritten] in *.
      exists (Sink.Recv r :: evs), rest.
      split; simpl; auto.
      * rewrite Ht, <- app_assoc. reflexivity.
      * rewrite Hr. reflexivity.
      * fold n. rewrite Hfull', Hfl. reflexivity.
      * constructor. exact Hacc.
Qed.

End SinkLoop.

Lemma AddInt64_wrap (a b : Z) : AddInt64 (wrap64 a) b = wrap64 (a + b).
Proof.
  unfold AddInt64, wrap64.
  set (h := (2 ^ 63)%Z). set (m := (2 ^ 64)%Z). f_equal.
  replace (((a + h) mod m - h + b + h)%Z) with (((a + h) mod m + b)%Z) by ring.
  rewrite Zplus_mod_idemp_l. f_equal. ring.
Qed.

Lemma fold_AddInt64 (deltas : list Z) :
  forall a, fold_left AddInt64 deltas (wrap64 a)
            = wrap64 (a + fold_right Z.add 0%Z deltas).
Proof.
  induction deltas as [|d rest IH]; intros a; simpl.
  - rewrite Z.add_0_r. reflexivity.
  - rewrite AddInt64_wrap, IH. f_equal. ring.
Qed.

(** C7: in every run of the stage, started on whatever value the "files
    written" counter holds, the calls of [batchInsert] recorded with their
    answers are the calls really made: each batch of the stream in turn, on
    the database the call before left, up to the first one that fails.  A
    call that returned nil is followed at once by one update of the counter,
    which adds the size of exactly that batch; every update of the counter
    stands right after such a call; a call that failed is followed by the
    report of its error only, so it adds nothing.  When nothing else writes
    the counter during the run, it ends as what it held plus the sizes of
    the accepted batches (an [int64]).  The counter being a package
    variable, the last conjunct says what one flush does to it whatever it
    holds at that moment: [batchInsert] is called once, on the whole batch;
    when it returns nil the counter is that value plus the size of the
    batch, and when it returns an error the counter is that value and the
    error is what the stage reports. *)
Theorem written_counter_follows_successful_flush :
  forall (DB : Type)
         (batchInsert : DB -> string -> list FileInfo -> DB * option error)
         (var : variant) (tableName : string) (records : list FileInfo) (d : DB)
         (held : Z),
    let r := Sink.loop batchInsert var tableName records
               {| Sink.batch := []; Sink.db := d;
                  Sink.totalFilesWritten := wrap64 held; Sink.trace := [] |} in
    let evs := Sink.trace (fst r) in
    let delivered :=
      deliver batchInsert tableName (Sink.chunks (batchSize var) records) d in
    Sink.calls evs = snd delivered
    /\ Sink.db (fst r) = fst delivered
    /\ (forall pre post b,
          evs = pre ++ Sink.Flush b None :: post ->
          exists post', post = Sink.Written (Z.of_nat (length b)) :: post')
    /\ (forall pre post k,
          evs = pre ++ Sink.Written k :: post ->
          exists pre' b, pre = pre' ++ [Sink.Flush b None]
                         /\ k = Z.of_nat (length b))
    /\ (forall pre post b e,
          evs = pre ++ Sink.Flush b (Some e) :: post ->
          Sink.increments evs = Sink.increments pre
          /\ exists e', post = [Sink.Report e'])
    /\ Sink.increments evs = sizes (Sink.stored evs)
    /\ Sink.totalFilesWritten (fst r)
       = fold_left AddInt64 (sizes (Sink.stored evs)) (wrap64 held)
    /\ Sink.totalFilesWritten (fst r)
       = wrap64 (held + fold_right Z.add 0%Z (sizes (Sink.stored evs)))
    /\ (forall (final : bool) (b : list FileInfo) (st : Sink.State),
          let answer := batchInsert (Sink.db st) tableName b in
          let f := Sink.flush batchInsert var tableName final b st in
          Sink.db (fst f) = fst answer
          /\ match snd answer with
             | None =>
                 snd f = None
                 /\ Sink.totalFilesWritten (fst f)
                    = AddInt64 (Sink.totalFilesWritten st) (Z.of_nat (length b))
                 /\ Sink.trace (fst f)
                    = Sink.trace st
                      ++ [Sink.Flush b None; Sink.Written (Z.of_nat (length b))]
             | Some e =>
                 snd f = Some (Sink.wrap var final e)
                 /\ Sink.totalFilesWritten (fst f) = Sink.totalFilesWritten st
                 /\ Sink.trace (fst f)
                    = Sink.trace st
                      ++ [Sink.Flush b (Some e);
                          Sink.Report (Sink.wrap var final e)]
             end).
Proof.
  intros DB batchInsert var tableName records d held r evs delivered.
  subst delivered evs r.
  destruct (Sink.loop batchInsert var tableName records _) as [st' err] eqn:Hloop.
  pose proof Hloop as Hdel.
  apply loop_deliver in Hdel; [|simpl; apply batchSize_pos].
  destruct Hdel as (evs' & [Ht' Hc Hd _ _]).
  apply loop_spec in Hloop; [|simpl; apply batchSize_pos].
  destruct Hloop as (evs & rest & [Ht Hr Hall Hfl Hp Hacc Hinc Hcnt]).
  simpl in Ht, Ht', Hc, Hd, Hcnt. subst evs'. simpl. rewrite Ht in *.
  split; [exact Hc|]. split; [exact Hd|].
  split; [apply Accounted_counted; exact Hacc|].
  split; [apply Accounted_written; exact Hacc|].
  split.
  - intros pre post b e Heq. rewrite Heq.
    apply (Accounted_failure _ Hacc). exact Heq.
  - split; [exact Hinc|]. rewrite Hcnt, Hinc. split; [reflexivity|].
    split; [apply fold_AddInt64|].
    intros final b st. cbv zeta. unfold Sink.flush.
    destruct (batchInsert (Sink.db st) tableName b) as [db' [e|]]; simpl; auto.
Qed.

(** C8: in every run of the stage the flush attempts are the pieces of
    [batchSize] records the stream is cut into, in order, the last one being
    shorter when the stream does not fill it: each is handed to
    [batchInsert] when the batch reaches the threshold, the last, partial one
    when the stream is exhausted, up to the first attempt that fails.  The
    stage returns an error exactly when a flush failed, with the error of
    that flush, which is then the last thing it attempted; when none fails,
    every piece of the stream has been flushed.  The flushed batches together
    are the records received, in order: no record the stage has taken is
    left out of a flush attempt. *)
Theorem sink_flushes_at_threshold_and_exhaustion :
  forall (DB : Type)
         (batchInsert : DB -> string -> list FileInfo -> DB * option error)
         (var : variant) (tableName : string) (records : list FileInfo) (d : DB),
    let r := Sink.loop batchInsert var tableName records (Sink.start d) in
    let evs := Sink.trace (fst r) in
    let delivered :=
      deliver batchInsert tableName (Sink.chunks (batchSize var) records) d in
    Sink.calls evs = snd delivered
    /\ (snd r = None <-> Forall accepted_call (Sink.calls evs))
    /\ (forall e, snd r = Some e ->
          exists pre b e0,
            Sink.calls evs = pre ++ [(b, Some e0)]
            /\ Forall accepted_call pre
            /\ e = Sink.wrap var (length b <? batchSize var)%nat e0)
    /\ (snd r = None ->
        Sink.flushed evs = Sink.chunks (batchSize var) records)
    /\ (exists rest, records = Sink.received evs ++ rest
                     /\ (snd r = None -> rest = []))
    /\ Sink.flushed evs = Sink.chunks (batchSize var) (Sink.received evs)
    /\ concat (Sink.flushed evs) = Sink.received evs
    /\ (forall pre b post,
          Sink.flushed evs = pre ++ b :: post ->
          length b = batchSize var
          \/ (post = [] /\ (0 < length b < batchSize var)%nat
              /\ Sink.received evs = records)).
Proof.
  intros DB batchInsert var tableName records d r evs delivered.
  subst delivered evs r.
  destruct (Sink.loop batchInsert var tableName records (Sink.start d))
    as [st' err] eqn:Hloop.
  pose proof Hloop as Hdel.
  apply loop_deliver in Hdel; [|simpl; apply batchSize_pos].
  destruct Hdel as (evs' & [Ht' Hc _ Hok Herr]).
  apply loop_spec in Hloop; [|simpl; apply batchSize_pos].
  destruct Hloop as (evs & rest & [Ht Hr Hall Hfl Hp Hacc Hinc Hcnt]).
  simpl in Ht, Ht', Hc, Hfl. subst evs'. simpl. rewrite Ht in *.
  split; [exact Hc|]. split; [exact Hok|]. split; [exact Herr|].
  split.
  { intros Hnone. rewrite Hfl. rewrite Hr, (Hall Hnone), app_nil_r. reflexivity. }
  split; [exists rest; split; assumption|].
  split; [exact Hfl|].
  split; [rewrite Hfl; apply (chunks_from_concat _ _ [])|].
  intros pre b post Heq.
  destruct (chunks_from_lengths (batchSize var) (Sink.received evs) [] pre b post
              (batchSize_pos var) (batchSize_pos var)) as [Hb Hlast];
    [rewrite <- Hfl; exact Heq|].
  destruct (Nat.eq_dec (length b) (batchSize var)) as [Hfull|Hshort];
    [left; exact Hfull | right].
  split; [|split; [lia|]].
  - destruct post; [reflexivity|]. exfalso. apply Hshort, Hlast. discriminate.
  - destruct Hp as [-> | Hp]; [rewrite Hr, app_nil_r; reflexivity|].
    exfalso. rewrite Heq in Hp. apply Forall_app in Hp. destruct Hp as [_ Hp].
    inversion Hp; subst. lia.
Qed.

(** ** The record channel *)

Definition observe {A} (f : ScanFolder.State -> A) (r : option ScanFolder.State)
  : option A :=
  match r with
  | Some s => Some (f s)
  | None => None
  end.

Definition one_file_env : ScanFolder.Env :=
  {| ScanFolder.fs := sample_fs;
     ScanFolder.tableName := "files";
     ScanFolder.root := RootTree (Dir "/srv" None [ File "/srv/a.txt" ]);
     ScanFolder.connected := true |}.

Definition start_of (var : variant) (env : ScanFolder.Env) : ScanFolder.State :=
  ScanFolder.init var env fresh_state (sample_db var).

(** The walker visits the directory and the file, sends the path, ends the
    walk and closes [fileChan]. *)
Definition walk_one_file : list ScanFolder.Action :=
  repeat (ScanFolder.StepWalker Walker.Send) 5.

(** Worker 0 receives the path, extracts the record, forwards it, counts it
    and finds [fileChan] closed; the other workers find it closed at once. *)
Definition work_one_file (var : variant) : list ScanFolder.Action :=
  repeat (ScanFolder.StepWorker 0) 5
  ++ map ScanFolder.StepWorker (seq 1 (numWorkers var - 1)).

(** A scan of one file that nothing disturbs, in VariantB: the stage
    receives the record, the waiter closes [resultChan] once the workers are
    done, the stage flushes its final batch, [scanFolder] finds [resultChan]
    closed and returns nil, and the stage returns, which runs its deferred
    [close(resultChan)]. *)
Definition one_file_scan : list ScanFolder.Action :=
  walk_one_file ++ work_one_file VariantB
  ++ [ ScanFolder.StepSink; ScanFolder.StepWaiter; ScanFolder.StepSink;
       ScanFolder.StepMain ScanFolder.OnResult; ScanFolder.StepSink ].

Definition empty_folder_env : ScanFolder.Env :=
  {| ScanFolder.fs := ∅;
     ScanFolder.tableName := "files";
     ScanFolder.root := RootTree (Dir "/srv" None []);
     ScanFolder.connected := true |}.

(** A scan of an empty folder that nothing disturbs: the walker visits the
    folder, ends the walk and closes [fileChan]; every worker finds it
    closed; the waiter closes [resultChan]; the stage finds it closed, has
    nothing to flush, and returns. *)
Definition empty_folder_scan (var : variant) : list ScanFolder.Action :=
  repeat (ScanFolder.StepWalker Walker.Send) 3
  ++ map ScanFolder.StepWorker (seq 0 (numWorkers var))
  ++ [ ScanFolder.StepWaiter; ScanFolder.StepSink; ScanFolder.StepSink ].

(** *** Steps and channel operations *)

Ltac break_step H :=
  repeat match type of H with
         | context [match ?x with _ => _ end] => destruct x eqn:?
         | context [if ?x then _ else _] => destruct x eqn:?
         end;
  try discriminate; inversion H; subst; clear H.

(** What [step] leaves alone. *)
Ltac frame_step H :=
  unfold ScanFolder.step, ScanFolder.step_worker, ScanFolder.step_sink,
    ScanFolder.step_walker, ScanFolder.step_waiter, ScanFolder.step_main,
    ScanFolder.step_other, ScanFolder.sink_after, ScanFolder.walker_after in H;
  break_step H.

Lemma send_ok {A} (capacity : nat) (c c' : ScanFolder.Chan A) (x : A) :
  ScanFolder.send capacity c x = ScanFolder.SendOk c' ->
  ScanFolder.closed c = false /\ ScanFolder.closed c' = false
  /\ ScanFolder.buf c' = ScanFolder.buf c ++ [x].
Proof.
  unfold ScanFolder.send. destruct (ScanFolder.closed c); [discriminate|].
  destruct (_ <? _)%nat; [|discriminate]. intros H. inversion H; subst.
  auto.
Qed.

Lemma send_panics {A} (capacity : nat) (c : ScanFolder.Chan A) (x : A) :
  ScanFolder.send capacity c x = ScanFolder.SendPanics ->
  ScanFolder.closed c = true.
Proof.
  unfold ScanFolder.send. destruct (ScanFolder.closed c); [reflexivity|].
  destruct (_ <? _)%nat; discriminate.
Qed.

Lemma recv_ok {A} (c c' : ScanFolder.Chan A) (x : A) :
  ScanFolder.recv c = ScanFolder.RecvOk x c' ->
  ScanFolder.closed c' = ScanFolder.closed c
  /\ ScanFolder.buf c = x :: ScanFolder.buf c'.
Proof.
  unfold ScanFolder.recv. destruct (ScanFolder.buf c) as [|y rest].
  - destruct (ScanFolder.closed c); discriminate.
  - intros H. inversion H; subst. auto.
Qed.

Lemma close_some {A} (c c' : ScanFolder.Chan A) :
  ScanFolder.close c = Some c' ->
  ScanFolder.closed c = false /\ ScanFolder.closed c' = true
  /\ ScanFolder.buf c' = ScanFolder.buf c.
Proof.
  unfold ScanFolder.close. destruct (ScanFolder.closed c) eqn:Hc; [discriminate|].
  intros H. inversion H; subst. auto.
Qed.

Lemma close_none {A} (c : ScanFolder.Chan A) :
  ScanFolder.close c = None -> ScanFolder.closed c = true.
Proof.
  unfold ScanFolder.close. destruct (ScanFolder.closed c); [reflexivity | discriminate].
Qed.

Lemma try_send_closed {A} (capacity : nat) (c : ScanFolder.Chan A) (x : A) :
  ScanFolder.closed (ScanFolder.try_send capacity c x) = ScanFolder.closed c.
Proof.
  unfold ScanFolder.try_send, ScanFolder.send.
  destruct (ScanFolder.closed c) eqn:Hc; [exact Hc|].
  destruct (_ <? _)%nat; [reflexivity | exact Hc].
Qed.

(** What the channel operations of a step say about the channels. *)
Ltac chan_facts :=
  repeat match goal with
    | H : ScanFolder.send _ _ _ = ScanFolder.SendOk _ |- _ =>
        apply send_ok in H; destruct H as (? & ? & ?)
    | H : ScanFolder.send _ _ _ = ScanFolder.SendPanics |- _ =>
        apply send_panics in H
    | H : ScanFolder.recv _ = ScanFolder.RecvOk _ _ |- _ =>
        apply recv_ok in H; destruct H as (? & ?)
    | H : ScanFolder.close _ = Some _ |- _ =>
        apply close_some in H; destruct H as (? & ? & ?)
    | H : ScanFolder.close _ = None |- _ => apply close_none in H
    end.

Definition closes_done (s : ScanFolder.State) : Prop :=
  ScanFolder.sink s = ScanFolder.SDone /\ ScanFolder.waiter s = ScanFolder.TDone.

(** Once the stage or the waiter has closed [resultChan] it stays closed,
    and the two never both get their [close] through. *)
Definition close_inv (s : ScanFolder.State) : Prop :=
  (ScanFolder.sink s = ScanFolder.SDone \/ ScanFolder.waiter s = ScanFolder.TDone ->
   ScanFolder.closed (ScanFolder.resultChan s) = true)
  /\ ~ closes_done s.

Lemma close_inv_init var env st db : close_inv (ScanFolder.init var env st db).
Proof.
  unfold close_inv, closes_done. simpl. split.
  - intros [H|H]; discriminate.
  - intros [H _]; discriminate.
Qed.

Lemma close_inv_step var env a s s' :
  close_inv s -> ScanFolder.step var env a s = Some s' -> close_inv s'.
Proof.
  intros [Hc Hn] Hstep.
  frame_step Hstep; chan_facts; unfold close_inv, closes_done in *;
    cbn [ScanFolder.sink ScanFolder.waiter ScanFolder.resultChan
         ScanFolder.with_ctxDone ScanFolder.with_paused ScanFolder.with_fileChan
         ScanFolder.with_resultChan ScanFolder.with_errChan
         ScanFolder.with_worker ScanFolder.with_sink ScanFolder.with_walker
         ScanFolder.with_waiter ScanFolder.with_main ScanFolder.with_scanned
         ScanFolder.with_panic ScanFolder.with_files ScanFolder.with_written
         ScanFolder.step_other] in *;
    intuition (try discriminate; congruence).
Qed.

Lemma close_inv_run var env acts :
  forall s s', close_inv s -> ScanFolder.run var env acts s = Some s' -> close_inv s'.
Proof.
  induction acts as [|a acts IH]; intros s s' Hinv Hrun; simpl in Hrun.
  - inversion Hrun; subst. exact Hinv.
  - destruct (ScanFolder.step var env a s) as [s1|] eqn:Hstep; [|discriminate].
    apply (IH s1 s'); [|exact Hrun]. apply (close_inv_step _ _ _ _ _ Hinv Hstep).
Qed.

(** C9 ([scanFolder], both variants, scanner.go 83-84 with 149-152 and
    284-285 with 341-344): [resultChan] is closed by the waiter and again by
    the deferred [close] of the batch stage.  In no execution do both
    closes go through; whichever comes second panics with "close of closed
    channel".  That is how the undisturbed scan of an empty folder ends in
    either variant, and the undisturbed scan of one file in VariantB, after
    the record was written and [scanFolder] returned nil. *)
Theorem resultChan_closed_twice :
  (forall var env scanState db acts s,
      ScanFolder.run var env acts (ScanFolder.init var env scanState db) = Some s ->
      ~ closes_done s
      /\ (ScanFolder.panic s = None ->
          ScanFolder.waiter s = ScanFolder.TDone ->
          ScanFolder.sink s = ScanFolder.SClose ->
          observe ScanFolder.panic (ScanFolder.step var env ScanFolder.StepSink s)
          = Some (Some ScanFolder.CloseOfClosedChannel))
      /\ (ScanFolder.panic s = None ->
          ScanFolder.sink s = ScanFolder.SDone ->
          ScanFolder.waiter s = ScanFolder.TWait ->
          ScanFolder.all_done (ScanFolder.workers s) = true ->
          observe ScanFolder.panic (ScanFolder.step var env ScanFolder.StepWaiter s)
          = Some (Some ScanFolder.CloseOfClosedChannel)))
  /\ observe ScanFolder.panic
       (ScanFolder.run VariantA empty_folder_env (empty_folder_scan VariantA)
          (start_of VariantA empty_folder_env))
     = Some (Some ScanFolder.CloseOfClosedChannel)
  /\ observe ScanFolder.panic
       (ScanFolder.run VariantB empty_folder_env (empty_folder_scan VariantB)
          (start_of VariantB empty_folder_env))
     = Some (Some ScanFolder.CloseOfClosedChannel)
  /\ observe (fun s => (ScanFolder.panic s, ScanFolder.waiter s, ScanFolder.sink s,
                        ScanFolder.main s,
                        Sink.totalFilesWritten (ScanFolder.sinkState s)))
       (ScanFolder.run VariantB one_file_env one_file_scan
          (start_of VariantB one_file_env))
     = Some (Some ScanFolder.CloseOfClosedChannel, ScanFolder.TDone,
             ScanFolder.SClose, ScanFolder.MReturned None, 1%Z).
Proof.
  split; [|vm_compute; repeat split; reflexivity].
  intros var env scanState db acts s Hrun.
  pose proof (close_inv_run var env acts _ _ (close_inv_init _ _ _ _) Hrun)
    as [Hclosed Hnot].
  split; [exact Hnot|]. split.
  - intros Hp Hw Hs. unfold ScanFolder.step, ScanFolder.step_sink, ScanFolder.close.
    rewrite Hp, Hs, (Hclosed (or_intror Hw)). reflexivity.
  - intros Hp Hs Hw Hall. unfold ScanFolder.step, ScanFolder.step_waiter, ScanFolder.close.
    rewrite Hp, Hw, Hall, (Hclosed (or_introl Hs)). reflexivity.
Qed.

(** ** The result of [scanFolder] *)

(** The walker sends the path, worker 0 forwards the record, and
    [scanFolder] takes the [resultChan] case of its [select]. *)
Definition first_record_taken : list ScanFolder.Action :=
  repeat (ScanFolder.StepWalker Walker.Send) 3
  ++ repeat (ScanFolder.StepWorker 0) 3
  ++ [ ScanFolder.StepMain ScanFolder.OnResult ].

(** The rest of that scan: the walker and the workers finish, the waiter
    closes [resultChan], and the stage finds it closed and empty. *)
Definition rest_of_scan : list ScanFolder.Action :=
  repeat (ScanFolder.StepWalker Walker.Send) 2
  ++ repeat (ScanFolder.StepWorker 0) 2
  ++ map ScanFolder.StepWorker (seq 1 (numWorkers VariantB - 1))
  ++ [ ScanFolder.StepWaiter; ScanFolder.StepSink ].

Definition sink_view (s : ScanFolder.State) :=
  (Sink.received (Sink.trace (ScanFolder.sinkState s)),
   Sink.flushed (Sink.trace (ScanFolder.sinkState s)),
   Sink.totalFilesWritten (ScanFolder.sinkState s),
   table_rows (Sink.db (ScanFolder.sinkState s)) "files").

(** VariantA never reports success: its [select] has no case that returns
    nil. *)
Lemma variantA_never_returns_nil env scanState db acts :
  forall s,
    ScanFolder.run VariantA env acts (ScanFolder.init VariantA env scanState db) = Some s ->
    ScanFolder.main s <> ScanFolder.MReturned None.
Proof.
  assert (Hstep : forall a s s',
            ScanFolder.main s <> ScanFolder.MReturned None ->
            ScanFolder.step VariantA env a s = Some s' ->
            ScanFolder.main s' <> ScanFolder.MReturned None).
  { intros a s s' Hm H.
    unfold ScanFolder.step, ScanFolder.step_worker, ScanFolder.step_sink,
      ScanFolder.step_walker, ScanFolder.step_waiter, ScanFolder.step_main,
      ScanFolder.step_other, ScanFolder.sink_after, ScanFolder.walker_after in H.
    break_step H; simpl; try exact Hm; discriminate. }
  assert (Hgen : forall s0 s, ScanFolder.main s0 <> ScanFolder.MReturned None ->
            ScanFolder.run VariantA env acts s0 = Some s ->
            ScanFolder.main s <> ScanFolder.MReturned None).
  { induction acts as [|a acts IH]; intros s0 s Hm Hrun; simpl in Hrun.
    - inversion Hrun; subst. exact Hm.
    - destruct (ScanFolder.step VariantA env a s0) as [s1|] eqn:H1; [|discriminate].
      apply (IH s1 s); [|exact Hrun]. apply (Hstep a s0 s1 Hm H1). }
  intros s Hrun.
  apply (Hgen (ScanFolder.init VariantA env scanState db) s); [discriminate | exact Hrun].
Qed.

(** C10, VariantB (scanner.go 346-357): in the scan of one file,
    [scanFolder] itself receives the only record from [resultChan] and
    returns nil.  At that moment the record has been forwarded by a worker,
    the batch stage has received nothing and flushed nothing, and the table
    is empty; when the rest of the scan has run, the stage has found the
    channel closed and empty: the record was never passed to
    [batchInsert], the "files written" counter is 0 and the table is still
    empty. *)
Theorem scanFolder_variantB_reports_success_before_flush :
  let start := start_of VariantB one_file_env in
  let early := ScanFolder.run VariantB one_file_env first_record_taken start in
  let final := ScanFolder.run VariantB one_file_env
                 (first_record_taken ++ rest_of_scan) start in
  observe ScanFolder.main early = Some (ScanFolder.MReturned None)
  /\ observe (fun s => Worker.forwarded (ScanFolder.worked s)) early
     = Some [sample_info]
  /\ observe (fun s => ScanFolder.buf (ScanFolder.resultChan s)) early = Some []
  /\ observe sink_view early = Some ([], [], 0%Z, Some [])
  /\ observe ScanFolder.main final = Some (ScanFolder.MReturned None)
  /\ observe (fun s => (ScanFolder.walker s, ScanFolder.waiter s, ScanFolder.sink s))
       final
     = Some (ScanFolder.KDone, ScanFolder.TDone, ScanFolder.SClose)
  /\ observe ScanFolder.totalFilesScanned final = Some 1%Z
  /\ observe sink_view final = Some ([], [], 0%Z, Some []).
Proof. vm_compute. repeat split; reflexivity. Qed.

(** ** The stages inside the pipeline *)

(** The stage's loop while [resultChan] has not been found closed. *)
Fixpoint feed (var : variant) (tbl : string) (records : list FileInfo)
    (st : @Sink.State Database.DB) : @Sink.State Database.DB * option error :=
  match records with
  | [] => (st, None)
  | r :: rest =>
      match Sink.receive (Database.batchInsert var) var tbl r st with
      | (st', Some e) => (st', Some e)
      | (st', None) => feed var tbl rest st'
      end
  end.



Lemma received_app (a b : list Sink.Event) :
  Sink.received (a ++ b) = Sink.received a ++ Sink.received b.
Proof. apply flat_map_app. Qed.

Lemma receive_received {DB : Type}
    (batchInsert : DB -> string -> list FileInfo -> DB * option error)
    var tbl r (st st' : @Sink.State DB) err :
  Sink.receive batchInsert var tbl r st = (st', err) ->
  Sink.received (Sink.trace st') = Sink.received (Sink.trace st) ++ [r].
Proof.
  unfold Sink.receive, Sink.flush. cbn [Sink.db Sink.trace].
  destruct (_ <=? _)%nat.
  - destruct (batchInsert _ _ _) as [db' [e|]]; intros H; inversion H; subst;
      cbn [Sink.trace]; rewrite !received_app; simpl; rewrite app_nil_r;
      reflexivity.
  - intros H. inversion H; subst. cbn [Sink.trace]. rewrite received_app.
    reflexivity.
Qed.

Lemma finish_received {DB : Type}
    (batchInsert : DB -> string -> list FileInfo -> DB * option error)
    var tbl (st st' : @Sink.State DB) err :
  Sink.finish batchInsert var tbl st = (st', err) ->
  Sink.received (Sink.trace st') = Sink.received (Sink.trace st).
Proof.
  unfold Sink.finish, Sink.flush. destruct (_ <? _)%nat.
  - destruct (batchInsert _ _ _) as [db' [e|]]; intros H; inversion H; subst;
      cbn [Sink.trace]; rewrite received_app; simpl; rewrite app_nil_r;
      reflexivity.
  - intros H. inversion H; subst. reflexivity.
Qed.

(** Two states of the stage that differ at most in the counter, and not
    even there when no goroutine outside the scan has written it
    ([quiet]). *)
Definition stage_agrees (quiet : bool) (a b : @Sink.State Database.DB) : Prop :=
  Sink.batch a = Sink.batch b /\ Sink.db a = Sink.db b
  /\ Sink.trace a = Sink.trace b
  /\ (quiet = true -> Sink.totalFilesWritten a = Sink.totalFilesWritten b).




Definition writes_scanned (a : ScanFolder.Action) : bool :=
  match a with
  | ScanFolder.Other ScanFolder.ResetScanned
  | ScanFolder.Other ScanFolder.CountScanned => true
  | _ => false
  end.

(** The stage of a running scan is the stage run on its own over the
    records it has received: still in its loop, or past it.  The exception
    is the stage stopped by a flush on a nil database. *)
Definition sink_sim (quiet : bool) (var : variant) (env : ScanFolder.Env)
    (d : Database.DB) (s : ScanFolder.State) : Prop :=
  let records := Sink.received (Sink.trace (ScanFolder.sinkState s)) in
  match ScanFolder.sink s with
  | ScanFolder.SRange =>
      ScanFolder.panic s = Some ScanFolder.NilPointerDereference
      \/ exists st,
           feed var (ScanFolder.tableName env) records (Sink.start d) = (st, None)
           /\ stage_agrees quiet st (ScanFolder.sinkState s)
  | _ =>
      stage_agrees quiet
        (fst (Sink.loop (Database.batchInsert var) var (ScanFolder.tableName env)
                records (Sink.start d)))
        (ScanFolder.sinkState s)
  end.


Ltac sink_view :=
  unfold sink_sim;
  cbn [ScanFolder.sink ScanFolder.sinkState ScanFolder.panic
       ScanFolder.with_sink ScanFolder.with_errChan
       ScanFolder.with_resultChan ScanFolder.with_panic ScanFolder.accepted
       Sink.trace].





Lemma marked_app (a b : list Walker.Event) :
  Walker.marked (a ++ b) = Walker.marked a ++ Walker.marked b.
Proof. apply flat_map_app. Qed.

(** The marked path the walker has not sent: the one it is offering at
    its [select], none while it walks, and possibly the one it gave up
    sending once the walk is over. *)
Definition pending (k : ScanFolder.WalkerPc) (tail : list string) : Prop :=
  match k with
  | ScanFolder.KWalk _ => tail = []
  | ScanFolder.KSelect p _ => tail = [p]
  | _ => True
  end.

(** The walker of a running scan, from the processed set [fl0] the scan
    was started on: the set now holds the paths of [fl0] and the paths the
    walker marked (and what other walkers marked meanwhile), the marked
    paths were absent from [fl0] and are pairwise different, and the paths
    sent to [fileChan] are the marked ones but for the pending one. *)
Record walker_inv (fl0 : gmap string bool) (s : ScanFolder.State) : Prop := {
  inv_files : forall p,
    scanned fl0 p = true \/ In p (Walker.marked (ScanFolder.walked s)) ->
    scanned (ScanFolder.files s) p = true;
  inv_absent : forall p,
    In p (Walker.marked (ScanFolder.walked s)) -> scanned fl0 p = false;
  inv_NoDup : List.NoDup (Walker.marked (ScanFolder.walked s));
  inv_sent : exists tail,
    Walker.marked (ScanFolder.walked s)
    = Walker.emitted (ScanFolder.walked s) ++ tail
    /\ pending (ScanFolder.walker s) tail }.

Lemma walker_inv_frame fl0 (s s' : ScanFolder.State) :
  ScanFolder.files s' = ScanFolder.files s ->
  ScanFolder.walked s' = ScanFolder.walked s ->
  ScanFolder.walker s' = ScanFolder.walker s ->
  walker_inv fl0 s -> walker_inv fl0 s'.
Proof.
  intros Hf Hw Hk [Ha Hb Hc Hd]. split; rewrite ?Hf, ?Hw, ?Hk; assumption.
Qed.

(** The walker moves on without marking or sending anything. *)
Lemma walker_inv_quiet fl0 (s s' : ScanFolder.State) (evs : list Walker.Event) :
  ScanFolder.files s' = ScanFolder.files s ->
  ScanFolder.walked s' = ScanFolder.walked s ++ evs ->
  Walker.marked evs = [] -> Walker.emitted evs = [] ->
  (forall tail, pending (ScanFolder.walker s) tail ->
                pending (ScanFolder.walker s') tail) ->
  walker_inv fl0 s -> walker_inv fl0 s'.
Proof.
  intros Hf Hw Hm He Hk [Ha Hb Hc (tail & Hd & Hp)].
  split; rewrite ?Hf, ?Hw, ?marked_app, ?emitted_app, ?Hm, ?He, ?app_nil_r;
    try assumption.
  exists tail. split; [exact Hd | apply Hk; exact Hp].
Qed.

Ltac quiet_step fl0 s evs Hk Hinv :=
  apply (walker_inv_quiet fl0 s _ evs);
  [reflexivity | reflexivity | reflexivity | reflexivity
  | rewrite Hk; simpl; tauto | exact Hinv].

Lemma walker_inv_step var env fl0 a s s' :
  walker_inv fl0 s -> ScanFolder.step var env a s = Some s' -> walker_inv fl0 s'.
Proof.
  intros Hinv Hstep. destruct a as [| b | i | | c | | c | o];
    try (frame_step Hstep;
         match goal with
         | H : walker_inv _ ?s0 |- _ =>
             first [ exact H
                   | apply (walker_inv_frame fl0 s0); [reflexivity..|exact H] ]
         end).
  - unfold ScanFolder.step in Hstep.
    destruct (ScanFolder.panic s); [discriminate|].
    unfold ScanFolder.step_walker, ScanFolder.walker_after in Hstep.
    destruct (ScanFolder.walker s) as [[|v todo] | p todo | e | |] eqn:Hk.
    + inversion Hstep; subst. quiet_step fl0 s (@nil Walker.Event) Hk Hinv.
    + unfold Walker.walkFn in Hstep.
      destruct (v_err v) as [err|].
      * destruct var; inversion Hstep; subst;
          quiet_step fl0 s [Walker.Log (v_path v) err] Hk Hinv.
      * destruct (v_isDir v).
        -- inversion Hstep; subst. quiet_step fl0 s (@nil Walker.Event) Hk Hinv.
        -- destruct (scanned (ScanFolder.files s) (v_path v)) eqn:Hseen.
           ++ inversion Hstep; subst.
              quiet_step fl0 s [Walker.Lock; Walker.Unlock] Hk Hinv.
           ++ inversion Hstep; subst. destruct Hinv as [Ha Hb Hc (tail & Hd & Hp)].
              rewrite Hk in Hp. simpl in Hp. subst tail. rewrite app_nil_r in Hd.
              assert (Hnew : ~ In (v_path v) (Walker.marked (ScanFolder.walked s))).
              { intros Hin. assert (scanned (ScanFolder.files s) (v_path v) = true);
                  [apply Ha; right; exact Hin | congruence]. }
              assert (Hfresh : scanned fl0 (v_path v) = false).
              { destruct (scanned fl0 (v_path v)) eqn:H0; [|reflexivity].
                assert (scanned (ScanFolder.files s) (v_path v) = true);
                  [apply Ha; left; exact H0 | congruence]. }
              split; cbn [ScanFolder.files ScanFolder.walked ScanFolder.walker
                          ScanFolder.with_walker];
                rewrite ?marked_app, ?emitted_app; simpl; rewrite ?app_nil_r.
              ** intros p. rewrite scanned_insert, in_app_iff. simpl.
                 destruct (decide (v_path v = p)) as [->|Hne]; [reflexivity|].
                 intros [H0 | [Hin | [Heq | []]]];
                   [apply Ha; left; exact H0 | apply Ha; right; exact Hin
                   | contradiction].
              ** intros p Hin. apply in_app_or in Hin.
                 destruct Hin as [Hin | [<- | []]]; [apply Hb; exact Hin | exact Hfresh].
              ** apply List.NoDup_app; [exact Hc | repeat constructor; simpl; tauto |].
                 intros q Hq [<- | []]. contradiction.
              ** exists [v_path v]. rewrite Hd. split; reflexivity.
    + destruct Hinv as [Ha Hb Hc (tail & Hd & Hp)]. rewrite Hk in Hp.
      simpl in Hp. subst tail.
      destruct c.
      * destruct (ScanFolder.ctxDone s); [|discriminate].
        destruct var; inversion Hstep; subst;
          (split; cbn [ScanFolder.files ScanFolder.walked ScanFolder.walker
                       ScanFolder.with_walker ScanFolder.with_errChan];
           rewrite ?app_nil_r; try assumption; exists [p]; split;
           [exact Hd | exact I]).
      * destruct (ScanFolder.send _ _ _); inversion Hstep; subst.
        -- split; simpl; try assumption. exists [p]. rewrite Hk. split;
             [exact Hd | reflexivity].
        -- split; cbn [ScanFolder.files ScanFolder.walked ScanFolder.walker
                       ScanFolder.with_walker ScanFolder.with_fileChan];
             rewrite ?marked_app, ?emitted_app; simpl; rewrite ?app_nil_r;
             try assumption.
           exists []. rewrite app_nil_r. split; [exact Hd | reflexivity].
    + destruct (ScanFolder.send _ _ _); inversion Hstep; subst.
      quiet_step fl0 s (@nil Walker.Event) Hk Hinv.
    + destruct (ScanFolder.close _); inversion Hstep; subst.
      * quiet_step fl0 s (@nil Walker.Event) Hk Hinv.
      * apply (walker_inv_frame fl0 s); [reflexivity..|exact Hinv].
    + discriminate.
  - (* another walker marks a path *)
    unfold ScanFolder.step in Hstep.
    destruct (ScanFolder.panic s); [discriminate|].
    inversion Hstep; subst; clear Hstep.
    destruct o; cbn [ScanFolder.step_other];
      try (apply (walker_inv_frame fl0 s); [reflexivity..|exact Hinv]).
    destruct Hinv as [Ha Hb Hc Hd].
    split; cbn [ScanFolder.files ScanFolder.walked ScanFolder.walker
                ScanFolder.with_files]; try assumption.
    intros p Hp. rewrite scanned_insert.
    destruct (decide (path = p)); [reflexivity | apply Ha; exact Hp].
Qed.

(** In every state a scan can reach, whatever the interleaving: the paths
    the walker has sent to [fileChan] were absent from the processed set the
    scan started on, are present in the set now, and none was sent twice. *)
Lemma pipeline_walker_never_reemits var env scanState d acts s :
  ScanFolder.run var env acts (ScanFolder.init var env scanState d) = Some s ->
  (forall p, In p (Walker.emitted (ScanFolder.walked s)) ->
             scanned (FilesScanned scanState) p = false
             /\ scanned (ScanFolder.files s) p = true)
  /\ List.NoDup (Walker.emitted (ScanFolder.walked s)).
Proof.
  intros Hrun.
  assert (Hinv : walker_inv (FilesScanned scanState) s).
  { assert (Hinit : walker_inv (FilesScanned scanState)
                      (ScanFolder.init var env scanState d)).
    { split; simpl; try tauto; try constructor. exists []. split; reflexivity. }
    revert Hinit Hrun. generalize (ScanFolder.init var env scanState d).
    induction acts as [|a acts IH]; intros s0 Hinit Hrun; simpl in Hrun.
    - inversion Hrun; subst. exact Hinit.
    - destruct (ScanFolder.step var env a s0) as [s1|] eqn:Hstep; [|discriminate].
      apply (IH s1); [|exact Hrun]. apply (walker_inv_step _ _ _ _ _ _ Hinit Hstep). }
  destruct Hinv as [Ha Hb Hc (tail & Htail & _)]. split.
  - intros p Hin.
    assert (Hm : In p (Walker.marked (ScanFolder.walked s))).
    { rewrite Htail. apply in_or_app. left. exact Hin. }
    split; [apply Hb; exact Hm | apply Ha; right; exact Hm].
  - rewrite Htail in Hc. apply NoDup_app_remove_r in Hc. exact Hc.
Qed.

(** * Further properties of the program *)

(** ** The scan state file (database.go, [saveScanState], [loadScanState],
    [scanStateExists], [deleteScanState]) *)

(** A scan state saved to a writable data directory is there afterwards,
    and a process that starts with the zero scan state and that file loads
    exactly the state that was saved. *)
Theorem scan_state_round_trip :
  forall (app fresh : Controller.App),
    Controller.writable (Controller.disk app) = true ->
    Controller.scanState fresh = zero_ScanState ->
    Controller.disk fresh
    = Controller.disk (fst (Controller.saveScanState app)) ->
    snd (Controller.saveScanState app) = None
    /\ Controller.scanStateExists (fst (Controller.saveScanState app)) = true
    /\ snd (Controller.loadScanState fresh) = None
    /\ Controller.scanState (fst (Controller.loadScanState fresh))
       = Controller.scanState app.
Proof.
  intros app fresh Hw Hzero Hdisk.
  unfold Controller.saveScanState in *. rewrite Hw in *. simpl in Hdisk.
  unfold Controller.loadScanState, Controller.scanStateExists.
  rewrite Hdisk. simpl. rewrite Hzero, gob_decode_into_zero. repeat split.
Qed.

Definition restarted_app : Controller.App :=
  {| Controller.scanState := zero_ScanState;
     Controller.scanning := false;
     Controller.paused := false;
     Controller.status := "Status: Not connected";
     Controller.disk :=
       Controller.disk (fst (Controller.saveScanState running_app));
     Controller.problems := [] |}.

Lemma scan_state_round_trip_witness :
  Controller.scanState (fst (Controller.loadScanState restarted_app))
  = Controller.scanState running_app.
Proof.
  exact (proj2 (proj2 (proj2
    (scan_state_round_trip running_app restarted_app eq_refl eq_refl eq_refl)))).
Defined.

(** A [deleteScanState] that reports no error leaves no state file, leaves
    the scan state in memory as it was, and a missing file is no error for
    what follows: deleting again and loading both succeed and change
    nothing. *)
Theorem deleteScanState_missing_file_is_no_error :
  forall (app : Controller.App),
    snd (Controller.deleteScanState app) = None ->
    let app' := fst (Controller.deleteScanState app) in
    Controller.scanStateExists app' = false
    /\ Controller.scanState app' = Controller.scanState app
    /\ Controller.deleteScanState app' = (app', None)
    /\ Controller.loadScanState app' = (app', None).
Proof.
  intros app. unfold Controller.deleteScanState, Controller.scanStateExists,
    Controller.loadScanState.
  destruct (Controller.scan_state_gob (Controller.disk app)) eqn:Hfile.
  - destruct (Controller.writable (Controller.disk app)); simpl;
      [intros _; repeat split | discriminate].
  - simpl. intros _. rewrite Hfile. repeat split.
Qed.

Lemma deleteScanState_missing_file_is_no_error_witness :
  Controller.scanStateExists
    (fst (Controller.deleteScanState (fst (Controller.saveScanState running_app))))
  = false.
Proof.
  exact (proj1 (deleteScanState_missing_file_is_no_error
                  (fst (Controller.saveScanState running_app)) eq_refl)).
Defined.

(** ** A second scan in the same process *)

Lemma run_all_seen (var : variant) (vs : list Visit) :
  forall st,
    (forall v, In v vs -> is_file_visit v = true ->
               scanned (Walker.files st) (v_path v) = true) ->
    Walker.emitted
      (Walker.trace (fst (WalkDir.run (Walker.callback var) vs st)))
    = Walker.emitted (Walker.trace st).
Proof.
  induction vs as [|v vs IH]; intros st Hseen; [reflexivity|].
  simpl. unfold Walker.callback, Walker.walkFn.
  assert (Hv := Hseen v (or_introl eq_refl)). unfold is_file_visit in Hv.
  destruct (v_err v) as [e|].
  - destruct var; simpl.
    + rewrite emitted_app. simpl. apply app_nil_r.
    + rewrite IH; simpl; [|intros w Hw; apply Hseen; right; exact Hw].
      rewrite emitted_app. simpl. apply app_nil_r.
  - destruct (v_isDir v).
    + rewrite IH; simpl; [|intros w Hw; apply Hseen; right; exact Hw].
      rewrite app_nil_r. reflexivity.
    + rewrite (Hv eq_refl).
      rewrite IH; simpl; [|intros w Hw; apply Hseen; right; exact Hw].
      rewrite emitted_app. simpl. apply app_nil_r.
Qed.

(** When a walk of VariantB has gone through a tree without being
    cancelled and the scan has ended (in success, by a Stop or by an error),
    the next Start in the same process finds the processed set still in
    memory: a walk of the same tree then sends no path to the workers,
    whatever is cancelled or not. *)
Theorem rescan_in_same_process_emits_nothing :
  forall (root : WalkRoot) (fl0 : gmap string bool) (err : option error)
         (folder : string) (app : Controller.App)
         (choices : list Walker.Choice),
    Controller.writable (Controller.disk app) = true ->
    FilesScanned (Controller.scanState app)
    = Walker.files (fst (Walker.walk VariantB root (start_walk fl0))) ->
    let app' := Controller.startScan folder (Controller.scanFinished err app) in
    Walker.emitted
      (Walker.trace
         (fst (Walker.walk VariantB root
                 {| Walker.files := FilesScanned (Controller.scanState app');
                    Walker.trace := [];
                    Walker.choices := choices |})))
    = [].
Proof.
  intros root fl0 err folder app choices Hw Hfiles app'. subst app'.
  rewrite (resumed_start_keeps_processed err folder app Hw), Hfiles.
  unfold Walker.walk. rewrite !WalkDir_run.
  destruct (runB_completes (WalkDir.root_visits root) (start_walk fl0) eq_refl)
    as (st' & Hrun & _ & _ & _ & _ & Hall).
  rewrite Hrun. simpl. rewrite run_all_seen; [reflexivity|].
  simpl. intros v Hin Hfile. apply (Hall v Hin Hfile).
Qed.

Definition scanned_app : Controller.App :=
  {| Controller.scanState :=
       {| FolderPath := "/data";
          FilesScanned :=
            Walker.files (fst (Walker.walk VariantB locked_root (start_walk ∅)));
          LastModified := 0 |};
     Controller.scanning := true;
     Controller.paused := false;
     Controller.status := "Status: Scanning";
     Controller.disk := {| Controller.scan_state_gob := None;
                           Controller.writable := true |};
     Controller.problems := [] |}.

Lemma rescan_in_same_process_emits_nothing_witness :
  Walker.emitted
    (Walker.trace
       (fst (Walker.walk VariantB locked_root
               {| Walker.files :=
                    FilesScanned (Controller.scanState
                      (Controller.startScan "/data"
                         (Controller.scanFinished None scanned_app)));
                  Walker.trace := [];
                  Walker.choices := [] |})))
  = [].
Proof.
  exact (rescan_in_same_process_emits_nothing locked_root ∅ None "/data"
           scanned_app [] eq_refl eq_refl).
Defined.

(** ** Cancellation *)



(** A worker that finds the context done at its [n]-th next iteration has
    done exactly what an undisturbed worker does on the first [n] paths:
    no path after them is extracted, logged or forwarded.  It leaves by the
    cancellation unless it had left before or the paths ran out. *)
Theorem cancelled_worker_stops_after_n_paths :
  forall (var : variant) (fs : gmap string Inode) (n : nat)
         (paths : list string),
    fst (Worker.loop var fs (Some n) paths)
    = fst (Worker.loop var fs None (firstn n paths))
    /\ snd (Worker.loop var fs (Some n) paths)
       = match snd (Worker.loop var fs None (firstn n paths)) with
         | Worker.Drained =>
             if (n <? length paths)%nat then Worker.Cancelled
             else Worker.Drained
         | x => x
         end.
Proof.
  intros var fs n paths. revert n.
  induction paths as [|p rest IH]; intros n.
  - destruct n; simpl; split; reflexivity.
  - destruct n as [|n]; [simpl; split; reflexivity|].
    cbn [firstn Worker.loop fmap option_fmap option_map pred].
    destruct (Worker.handle var fs p) as [evs [x|]] eqn:Hh.
    + assert (Hx : exists e, x = Worker.Failed e).
      { unfold Worker.handle in Hh.
        destruct (Extractor.processFile fs p); [discriminate|].
        destruct var; inversion Hh; eauto. }
      destruct Hx as [e ->]. simpl. split; reflexivity.
    + specialize (IH n).
      destruct (Worker.loop var fs (Some n) rest) as [evs1 x1].
      destruct (Worker.loop var fs None (firstn n rest)) as [evs2 x2].
      simpl in IH. destruct IH as [-> ->]. simpl. split; reflexivity.
Qed.

(** ** [batchInsert]: what a call leaves on the server *)

Definition batchInsert_prefix (var : variant) : string :=
  match var with
  | VariantA => "error batch inserting: "
  | VariantB => "error batch merging: "
  end.

(** A call with no record returns nil without sending anything.  A call
    with records sends one statement.  When the call returns an error, the
    error is the driver's, wrapped with the variant's prefix, and no table
    has changed: none of the batch is stored.  A table other than the
    one named is never touched. *)
Theorem batchInsert_failure_stores_nothing :
  forall (var : variant) (db : Database.DB) (name : string)
         (files : list FileInfo),
    let r := Database.batchInsert var db name files in
    (files = [] -> r = (db, None))
    /\ (files <> [] -> Database.faults (fst r) = tl (Database.faults db))
    /\ (forall e, snd r = Some e ->
          Database.tables (fst r) = Database.tables db
          /\ exists cause, e = Errorf (batchInsert_prefix var) cause)
    /\ (forall other, other <> name ->
          Database.tables (fst r) !! other = Database.tables db !! other).
Proof.
  intros var db name files r. subst r.
  unfold Database.batchInsert, Database.Exec.
  destruct files as [|f rest].
  - simpl. repeat split; congruence.
  - cbn [length Nat.eqb].
    split; [discriminate|].
    destruct var; destruct (Database.faults db) as [|[|] later];
      cbn [fst snd Database.tables Database.faults tl batchInsert_prefix];
      try (split; [reflexivity|];
           split; [intros e He; inversion He; subst; split; eauto | reflexivity]).
    all: destruct (Database.tables db !! name) as [t|] eqn:Hl;
      cbn [fst snd Database.tables Database.faults tl];
      try (split; [reflexivity|];
           split; [intros e He; inversion He; subst; split; eauto | reflexivity]).
    all: destruct (Database.merge t (f :: rest)) as [t'|e0];
      cbn [fst snd Database.tables Database.faults tl];
      try (split; [reflexivity|];
           split; [intros e He; inversion He; subst; split; eauto | reflexivity]).
    all: split; [reflexivity|]; split; [intros e He; discriminate|];
      intros other Hne; apply lookup_insert_ne; congruence.
Qed.

(** ** A batch that carries an identifier twice *)

Lemma merge_rows_single (values : list FileInfo) (targets : list Database.Row) :
  forall updated,
    Database.merge_rows values targets = Ok updated ->
    Database.hashes updated = Database.hashes targets
    /\ forall t, In t targets ->
         (length (List.filter (fun s => Database.same_hash s (Database.fields t))
                    values) <= 1)%nat.
Proof.
  induction targets as [|t rest IH]; intros updated Hm; simpl in Hm.
  - inversion Hm; subst. split; [reflexivity | intros t []].
  - destruct (Database.merge_row values t) as [t'|e] eqn:Hrow; [|discriminate].
    destruct (Database.merge_rows values rest) as [rest'|e]; [|discriminate].
    inversion Hm; subst. destruct (IH rest' eq_refl) as [Hh Hlen].
    unfold Database.merge_row in Hrow.
    destruct (List.filter _ values) as [|s [|s2 more]] eqn:Hf;
      inversion Hrow; subst; (split; [simpl; f_equal; exact Hh|]);
      (intros t0 [<- | Hin]; [rewrite Hf; simpl; lia | apply Hlen; exact Hin]).
Qed.

Lemma matched_same_hash (targets : list Database.Row) (x y : FileInfo) :
  PathHash x = PathHash y ->
  Database.matched targets x = Database.matched targets y.
Proof.
  intros Heq. unfold Database.matched, Database.same_hash. rewrite Heq.
  reflexivity.
Qed.

Lemma merge_needs_distinct (targets : list Database.Row)
    (values : list FileInfo) :
  (forall t, In t targets ->
     (length (List.filter (fun s => Database.same_hash s (Database.fields t))
                values) <= 1)%nat) ->
  List.NoDup (map PathHash
                (List.filter (fun s => negb (Database.matched targets s)) values)) ->
  List.NoDup (map PathHash values).
Proof.
  induction values as [|x rest IH]; intros Hone Hfresh; [constructor|].
  simpl. constructor.
  - intros Hin. apply in_map_iff in Hin. destruct Hin as (y & Hy & Hin).
    destruct (Database.matched targets x) eqn:Hm.
    + apply matched_spec in Hm. destruct Hm as (t & Ht & Hk).
      specialize (Hone t Ht).
      assert (Hx : Database.same_hash x (Database.fields t) = true).
      { unfold Database.same_hash. apply String.eqb_eq. congruence. }
      assert (Hy' : In y (List.filter
                (fun s => Database.same_hash s (Database.fields t)) rest)).
      { apply filter_In. split; [exact Hin|]. unfold Database.same_hash.
        apply String.eqb_eq. congruence. }
      cbn [List.filter] in Hone. rewrite Hx in Hone.
      clear IH Hfresh.
      destruct (List.filter _ rest); [contradiction | simpl in Hone; lia].
    + simpl in Hfresh. rewrite Hm in Hfresh. simpl in Hfresh.
      inversion Hfresh as [|? ? Hx _]; subst. apply Hx.
      rewrite <- Hy. apply in_map. apply filter_In. split; [exact Hin|].
      rewrite (matched_same_hash targets y x Hy), Hm. reflexivity.
  - apply IH.
    + intros t Ht. specialize (Hone t Ht). simpl in Hone.
      destruct (Database.same_hash x (Database.fields t)); simpl in Hone; lia.
    + simpl in Hfresh. destruct (negb (Database.matched targets x));
        [simpl in Hfresh; inversion Hfresh; assumption | exact Hfresh].
Qed.

(** On a table created with [path_hash ... UNIQUE], a batch in which two
    records carry the same identifier is refused as a whole: [batchInsert]
    returns an error and the table keeps the rows it had. *)
Theorem batchInsert_variantB_rejects_repeated_identifier :
  forall (db : Database.DB) (name : string) (t : Database.Table)
         (files : list FileInfo),
    Database.tables db !! name = Some t ->
    Database.unique_path_hash t = true ->
    ~ List.NoDup (map PathHash files) ->
    (exists cause,
       snd (Database.batchInsert VariantB db name files)
       = Some (Errorf "error batch merging: " cause))
    /\ Database.tables (fst (Database.batchInsert VariantB db name files))
       = Database.tables db.
Proof.
  intros db name t files Hlook Hu Hdup.
  assert (Hmerge : exists e, Database.merge t files = Err e).
  { unfold Database.merge.
    destruct (Database.merge_rows files (Database.rows t)) as [updated|e] eqn:Hm;
      [|eauto].
    apply merge_rows_single in Hm. destruct Hm as [Hh Hone].
    rewrite Hu. cbn [andb].
    match goal with
    | |- context [Database.distinct ?ks] => destruct (Database.distinct ks) eqn:Hd
    end; [|simpl; eauto].
    exfalso. apply Hdup. apply (merge_needs_distinct (Database.rows t)); [exact Hone|].
    apply distinct_NoDup in Hd. unfold Database.hashes in Hd.
    rewrite map_app in Hd. apply NoDup_app_remove_l in Hd.
    fold (Database.hashes (Database.insert_rows (Database.identity t)
            (List.filter (fun s => negb (Database.matched (Database.rows t) s))
               files))) in Hd.
    rewrite hashes_insert_rows in Hd. exact Hd. }
  destruct Hmerge as [e He].
  unfold Database.batchInsert, Database.Exec.
  destruct files as [|f rest]; [exfalso; apply Hdup; constructor|].
  cbn [length Nat.eqb]. rewrite Hlook, He.
  destruct (Database.faults db) as [|[|] later]; simpl; split; eauto.
Qed.

Lemma batchInsert_variantB_rejects_repeated_identifier_witness :
  table_rows
    (fst (Database.batchInsert VariantB (sample_db VariantB) "files"
            [sample_info; sample_info])) "files"
  = Some [].
Proof.
  unfold table_rows.
  rewrite (proj2 (batchInsert_variantB_rejects_repeated_identifier
                    (sample_db VariantB) "files" (Database.empty_table VariantB)
                    [sample_info; sample_info]
                    ltac:(vm_compute; reflexivity) eq_refl
                    ltac:(intros H; inversion H; simpl in *; tauto))).
  vm_compute. reflexivity.
Defined.

(** ** A batch delivered twice *)

(** What the server has accepted: a MERGE that went through on a table
    created with [path_hash ... UNIQUE] found distinct identifiers in the
    table and carried distinct identifiers itself. *)
Lemma merge_accepted_distinct (t t' : Database.Table) (values : list FileInfo) :
  Database.unique_path_hash t = true ->
  Database.merge t values = Ok t' ->
  List.NoDup (Database.hashes (Database.rows t))
  /\ List.NoDup (map PathHash values).
Proof.
  intros Hu Hm. unfold Database.merge in Hm.
  destruct (Database.merge_rows values (Database.rows t)) as [updated|e] eqn:Hrows;
    [|discriminate].
  rewrite Hu in Hm. cbn [andb] in Hm.
  match type of Hm with
  | context [Database.distinct ?ks] => destruct (Database.distinct ks) eqn:Hd
  end; [|discriminate].
  apply merge_rows_single in Hrows. destruct Hrows as [Hh Hone].
  apply distinct_NoDup in Hd. unfold Database.hashes in Hd.
  rewrite map_app in Hd. split.
  - apply NoDup_app_remove_r in Hd. fold (Database.hashes updated) in Hd.
    rewrite Hh in Hd. exact Hd.
  - apply (merge_needs_distinct (Database.rows t)); [exact Hone|].
    apply NoDup_app_remove_l in Hd.
    fold (Database.hashes (Database.insert_rows (Database.identity t)
            (List.filter (fun s => negb (Database.matched (Database.rows t) s))
               values))) in Hd.
    rewrite hashes_insert_rows in Hd. exact Hd.
Qed.

(** A batch delivered twice to a table created with [path_hash ... UNIQUE]
    (database.go 161-214).  If [batchInsert] returned nil for the batch and
    the connection does not fail the next statement, then a second delivery
    of the same batch returns nil as well and leaves every table exactly as
    the first delivery left it: no row is added and none is changed.  What
    makes the server accept the first delivery is not assumed here. *)
Theorem batchInsert_variantB_redelivery_changes_nothing :
  forall (db : Database.DB) (name : string) (t : Database.Table)
         (files : list FileInfo),
    Database.tables db !! name = Some t ->
    Database.unique_path_hash t = true ->
    files <> [] ->
    let r1 := Database.batchInsert VariantB db name files in
    snd r1 = None ->
    hd false (Database.faults (fst r1)) = false ->
    let r2 := Database.batchInsert VariantB (fst r1) name files in
    snd r2 = None
    /\ Database.tables (fst r2) = Database.tables (fst r1).
Proof.
  intros db name t files Hlook Hu Hne r1 Hok Hnext r2. subst r2 r1.
  assert (H1 : exists t1,
            Database.merge t files = Ok t1
            /\ Database.batchInsert VariantB db name files
               = ({| Database.tables := <[name := t1]> (Database.tables db);
                     Database.faults := tl (Database.faults db) |}, None)).
  { unfold Database.batchInsert, Database.Exec in *.
    destruct files as [|f rest]; [contradiction|]. cbn [length Nat.eqb] in *.
    rewrite Hlook in *.
    destruct (Database.faults db) as [|[|] later]; simpl in Hok;
      try discriminate;
      destruct (Database.merge t (f :: rest)) as [t1|e]; simpl in Hok;
      try discriminate; exists t1; split; reflexivity. }
  destruct H1 as (t1 & Hm & Hr1). rewrite Hr1 in *.
  cbn [fst snd Database.faults] in *.
  destruct (merge_accepted_distinct t t1 files Hu Hm) as [Ht Hv].
  destruct (merge_is_idempotent_upsert t files Ht Hv)
    as (t' & Hm1 & _ & _ & _ & Hm2).
  rewrite Hm in Hm1. inversion Hm1; subst t'.
  unfold Database.batchInsert, Database.Exec.
  destruct files as [|f rest]; [contradiction|].
  cbn [length Nat.eqb Database.tables Database.faults].
  rewrite lookup_insert_eq, Hm2.
  destruct (tl (Database.faults db)) as [|[|] later]; simpl in Hnext;
    try discriminate; simpl; (split; [reflexivity | apply insert_insert_eq]).
Qed.

Lemma batchInsert_variantB_redelivery_changes_nothing_witness :
  Database.tables
    (fst (Database.batchInsert VariantB
            (fst (Database.batchInsert VariantB (sample_db VariantB) "files"
                    [sample_info]))
            "files" [sample_info]))
  = Database.tables
      (fst (Database.batchInsert VariantB (sample_db VariantB) "files"
              [sample_info])).
Proof.
  refine (proj2
    (batchInsert_variantB_redelivery_changes_nothing (sample_db VariantB)
       "files" (Database.empty_table VariantB) [sample_info] _ eq_refl _ _ _)).
  - vm_compute. reflexivity.
  - discriminate.
  - vm_compute. reflexivity.
  - vm_compute. reflexivity.
Defined.

(** ** The log writer *)

Section MultiWrite.
Import MultiWriter.
Context {W : Type} `{Writer W}.

(** The writer answers [p] without an error. *)
Definition accepts (p : list byte) (w : W) : Prop :=
  snd (snd (Write w p)) = None.

Lemma write_each_stops (ws : list W) (p : list byte) :
  let r := write_each ws p in
  length (fst r) = length ws
  /\ (snd (snd r) = None ->
        fst (snd r) = length p
        /\ Forall (accepts p) ws
        /\ fst r = map (fun w => fst (Write w p)) ws)
  /\ (forall e, snd (snd r) = Some e ->
        exists before w after,
          ws = before ++ w :: after
          /\ Forall (accepts p) before
          /\ snd (Write w p) = (fst (snd r), Some e)
          /\ fst r = map (fun w => fst (Write w p)) before
                     ++ fst (Write w p) :: after).
Proof.
  induction ws as [|w rest IH]; cbn [write_each].
  - simpl. split; [reflexivity|]. split; [auto | intros e He; discriminate].
  - destruct (Write w p) as [w' [n [e0|]]] eqn:Hw.
    + cbn [fst snd length]. split; [reflexivity|].
      split; [discriminate|]. intros e He. inversion He; subst e0.
      exists [], w, rest. rewrite Hw. repeat split. constructor.
    + destruct (write_each rest p) as [rest' [m err]].
      cbn [fst snd length] in *.
      destruct IH as (Hlen & Hok & Hfail).
      split; [f_equal; exact Hlen|]. split.
      * intros Herr. destruct (Hok Herr) as (Hm & Hall & Hmap).
        split; [exact Hm|]. split.
        -- constructor; [unfold accepts; rewrite Hw; reflexivity | exact Hall].
        -- cbn [map]. rewrite Hw, Hmap. reflexivity.
      * intros e He.
        destruct (Hfail e He) as (before & w0 & after & Hws & Hall & Hw0 & Hmap).
        exists (w :: before), w0, after. rewrite Hws, Hmap. cbn [map].
        rewrite Hw. repeat split; [|exact Hw0].
        constructor; [unfold accepts; rewrite Hw; reflexivity | exact Hall].
Qed.

(** [(mw *multiWriter).Write(p)].  When it returns no error, every
    writer has been handed [p] once and accepted it, and the count returned
    is [len(p)] whatever counts the writers reported.  When it returns an
    error, it is the error and the count of the first writer that refused
    [p]: the writers before it have been handed [p], the writers after it
    have not been called. *)
Theorem multiWriter_Write_stops_at_first_error :
  forall (mw : multiWriter W) (p : list byte),
    let r := Write mw p in
    length (writers (fst r)) = length (writers mw)
    /\ (snd (snd r) = None ->
          fst (snd r) = length p
          /\ Forall (accepts p) (writers mw)
          /\ writers (fst r) = map (fun w => fst (Write w p)) (writers mw))
    /\ (forall e, snd (snd r) = Some e ->
          exists before w after,
            writers mw = before ++ w :: after
            /\ Forall (accepts p) before
            /\ snd (Write w p) = (fst (snd r), Some e)
            /\ writers (fst r)
               = map (fun w => fst (Write w p)) before
                 ++ fst (Write w p) :: after).
Proof.
  intros [ws] p r. subst r.
  change (Write {| writers := ws |} p)
    with (let '(ws', r) := write_each ws p in
          ({| MultiWriter.writers := ws' |}, r)).
  pose proof (write_each_stops ws p) as Hspec. cbv zeta in Hspec.
  destruct (write_each ws p) as [ws' r]. cbn [fst snd writers] in *.
  exact Hspec.
Qed.

End MultiWrite.

(** ** The saved connection settings *)

(** What [saveCredentials] has written without an error, a later
    [loadCredentials] that can open the file puts back into the five
    entries, whatever they held. *)
Theorem credentials_round_trip :
  forall (saved shown : Credentials.Entries) (d : Credentials.Disk),
    snd (Credentials.saveCredentials saved d) = None ->
    Credentials.open d = None ->
    Credentials.loadCredentials shown (fst (Credentials.saveCredentials saved d))
    = (saved, None).
Proof.
  intros saved shown d Hsave Hopen. unfold Credentials.saveCredentials in *.
  destruct (Credentials.appDataDir d); [discriminate|].
  destruct (Credentials.create d); [discriminate|].
  unfold Credentials.loadCredentials. cbn [fst Credentials.appDataDir
    Credentials.credentials_gob Credentials.open]. rewrite Hopen.
  destruct saved as [a b c e f]. reflexivity.
Qed.

Definition sample_entries : Credentials.Entries :=
  {| Credentials.ipEntry := "10.0.0.5";
     Credentials.portEntry := "";
     Credentials.usernameEntry := "sa";
     Credentials.passwordEntry := "secret";
     Credentials.dbNameEntry := "files" |}.

Definition blank_entries : Credentials.Entries :=
  {| Credentials.ipEntry := ""; Credentials.portEntry := "";
     Credentials.usernameEntry := ""; Credentials.passwordEntry := "";
     Credentials.dbNameEntry := "" |}.

Definition first_run_disk : Credentials.Disk :=
  {| Credentials.appDataDir := None; Credentials.create := None;
     Credentials.open := None; Credentials.credentials_gob := None |}.

Lemma credentials_round_trip_witness :
  Credentials.loadCredentials blank_entries
    (fst (Credentials.saveCredentials sample_entries first_run_disk))
  = (sample_entries, None).
Proof.
  exact (credentials_round_trip sample_entries blank_entries first_run_disk
           eq_refl eq_refl).
Defined.

(** ** The record [processFile] builds *)

Lemma string_of_list_ascii_app (a b : list ascii) :
  string_of_list_ascii (a ++ b)
  = (string_of_list_ascii a ++ string_of_list_ascii b)%string.
Proof.
  induction a as [|c a IH]; [reflexivity|].
  exact (f_equal (String c) IH).
Qed.

Lemma string_app_nil_r (s : string) : (s ++ "")%string = s.
Proof.
  induction s as [|c s IH]; [reflexivity|].
  exact (f_equal (String c) IH).
Qed.

(** A byte that is neither a dot nor a path separator. *)
Definition plain (c : ascii) : Prop :=
  c <> "."%char /\ Extractor.IsPathSeparator c = false.

Lemma ext_scan_suffix (rpath : list ascii) :
  forall suffix, Forall plain suffix ->
    let e := Extractor.ext_scan rpath suffix in
    (exists stem,
       string_of_list_ascii (rev rpath ++ suffix) = (stem ++ e)%string)
    /\ (e = EmptyString
        \/ exists tail, e = String "." (string_of_list_ascii tail)
                        /\ Forall plain tail).
Proof.
  induction rpath as [|c before IH]; intros suffix Hs; cbn [Extractor.ext_scan].
  - cbv zeta. split; [|left; reflexivity]. eexists.
    rewrite string_app_nil_r. reflexivity.
  - destruct (Extractor.IsPathSeparator c) eqn:Hsep.
    + cbv zeta. split; [|left; reflexivity]. eexists.
      rewrite string_app_nil_r. reflexivity.
    + destruct (Ascii.eqb c ".") eqn:Hdot.
      * apply Ascii.eqb_eq in Hdot. subst c. cbv zeta. split.
        -- exists (string_of_list_ascii (rev before)).
           cbn [rev]. rewrite <- app_assoc. apply string_of_list_ascii_app.
        -- right. exists suffix. split; [reflexivity | exact Hs].
      * assert (Hc : Forall plain (c :: suffix)).
        { constructor; [|exact Hs]. split; [|exact Hsep].
          intros ->. rewrite Ascii.eqb_refl in Hdot. discriminate. }
        destruct (IH (c :: suffix) Hc) as [(stem & Hstem) Hext]. cbv zeta.
        split; [|exact Hext]. exists stem. cbn [rev]. rewrite <- app_assoc.
        exact Hstem.
Qed.

(** [processFile] succeeds exactly on a path [os.Stat] answers for.  The
    record then carries the name, size and modification time [os.Stat]
    gave, the path as it was passed, an empty [OtherMetadata], and as
    [Extension] a suffix of the path that is empty or starts at the last
    dot of the path's last element: a dot followed by bytes that are
    neither dots nor separators.  A failure is the error of [os.Stat]
    behind "error getting file info: ". *)
Theorem processFile_record :
  forall (fs : gmap string Inode) (filePath : string),
    (forall r, Extractor.processFile fs filePath = Ok r ->
       (exists st content,
          fs !! filePath = Some (Stored st content)
          /\ FileName r = stat_name st /\ FileSize r = stat_size st
          /\ ModTime r = stat_mtime st)
       /\ FilePath r = filePath
       /\ OtherMetadata r = EmptyString
       /\ (exists stem, FilePath r = (stem ++ Extension r)%string)
       /\ (Extension r = EmptyString
           \/ exists tail, Extension r = String "." tail
                           /\ Forall plain (list_ascii_of_string tail)))
    /\ (forall e, Extractor.processFile fs filePath = Err e ->
          (exists cause, e = Errorf "error getting file info: " cause)
          /\ forall st content, fs !! filePath <> Some (Stored st content)).
Proof.
  intros fs filePath. unfold Extractor.processFile, Extractor.os_Stat.
  destruct (fs !! filePath) as [[st content|err]|]; split;
    try (intros r Hr; discriminate); try (intros e He; discriminate).
  - intros r Hr. inversion Hr; subst r; clear Hr.
    cbn [FileName FilePath FileSize ModTime OtherMetadata Extension].
    split; [exists st, content; auto|]. split; [reflexivity|].
    split; [reflexivity|].
    destruct (ext_scan_suffix (rev (list_ascii_of_string filePath)) []
                ltac:(constructor)) as [(stem & Hstem) Hext].
    cbv zeta in Hstem, Hext.
    rewrite rev_involutive, app_nil_r, string_of_list_ascii_of_string in Hstem.
    fold (Extractor.Ext filePath) in Hstem, Hext.
    split; [exists stem; exact Hstem|].
    destruct Hext as [He | (tail & He & Hp)]; [left; exact He | right].
    exists (string_of_list_ascii tail). split; [exact He|].
    rewrite list_ascii_of_string_of_list_ascii. exact Hp.
  - intros e He. inversion He; subst. split; [eauto | discriminate].
  - intros e He. inversion He; subst. split; [eauto | discriminate].
Qed.

(** ** [fileChan] and [errChan] in a running scan *)

(** [errChan] is never closed, and [fileChan] is closed exactly when the
    walker goroutine has returned. *)
Record chan_inv (s : ScanFolder.State) : Prop := {
  inv_errChan : ScanFolder.closed (ScanFolder.errChan s) = false;
  inv_fileChan :
    ScanFolder.closed (ScanFolder.fileChan s) = true
    <-> ScanFolder.walker s = ScanFolder.KDone }.

Lemma chan_inv_step var env a s s' :
  chan_inv s -> ScanFolder.step var env a s = Some s' -> chan_inv s'.
Proof.
  intros [He Hf] Hstep. frame_step Hstep; chan_facts; split;
    cbn [ScanFolder.errChan ScanFolder.fileChan ScanFolder.walker
         ScanFolder.with_ctxDone ScanFolder.with_paused ScanFolder.with_fileChan
         ScanFolder.with_resultChan ScanFolder.with_errChan
         ScanFolder.with_worker ScanFolder.with_sink ScanFolder.with_walker
         ScanFolder.with_waiter ScanFolder.with_main ScanFolder.with_scanned
         ScanFolder.with_panic];
    rewrite ?try_send_closed;
    solve [ assumption | congruence
          | intuition (try discriminate; congruence) ].
Qed.

Lemma chan_inv_run var env scanState d acts :
  forall s,
    ScanFolder.run var env acts (ScanFolder.init var env scanState d) = Some s ->
    chan_inv s.
Proof.
  assert (Hinit : chan_inv (ScanFolder.init var env scanState d)).
  { split; simpl; [reflexivity | split; discriminate]. }
  revert Hinit. generalize (ScanFolder.init var env scanState d).
  induction acts as [|a acts IH]; intros s0 Hinit s Hrun; simpl in Hrun.
  - inversion Hrun; subst. exact Hinit.
  - destruct (ScanFolder.step var env a s0) as [s1|] eqn:Hstep; [|discriminate].
    apply (IH s1); [|exact Hrun]. apply (chan_inv_step _ _ _ _ _ Hinit Hstep).
Qed.

(** In every state a scan can reach, whatever the interleaving:
    [errChan] is open; [fileChan] is closed exactly when the walker
    goroutine has returned, so it is closed once and nothing is sent on it
    afterwards; and the step that panics, if one does, is either an
    operation on [resultChan] when [resultChan] is already closed (the
    deferred [close] of the batch stage, the [close] of the waiter, or the
    forward of a worker), or a flush of the batch stage when the [*sql.DB]
    handed to [scanFolder] is nil. *)
Theorem panics_of_a_scan :
  forall var env scanState d acts s,
    ScanFolder.run var env acts (ScanFolder.init var env scanState d) = Some s ->
    ScanFolder.closed (ScanFolder.errChan s) = false
    /\ (ScanFolder.closed (ScanFolder.fileChan s) = true
        <-> ScanFolder.walker s = ScanFolder.KDone)
    /\ (forall a s' p,
          ScanFolder.step var env a s = Some s' ->
          ScanFolder.panic s' = Some p ->
          (ScanFolder.closed (ScanFolder.resultChan s) = true
           /\ ((a = ScanFolder.StepSink /\ ScanFolder.sink s = ScanFolder.SClose
                /\ p = ScanFolder.CloseOfClosedChannel)
               \/ (a = ScanFolder.StepWaiter
                   /\ p = ScanFolder.CloseOfClosedChannel)
               \/ (exists i fileInfo,
                     a = ScanFolder.StepWorker i
                     /\ ScanFolder.workers s !! i
                        = Some (ScanFolder.WForward fileInfo)
                     /\ p = ScanFolder.SendOnClosedChannel)))
          \/ (a = ScanFolder.StepSink /\ ScanFolder.sink s = ScanFolder.SRange
              /\ ScanFolder.connected env = false
              /\ p = ScanFolder.NilPointerDereference)).
Proof.
  intros var env scanState d acts s Hrun.
  destruct (chan_inv_run var env scanState d acts s Hrun) as [He Hf].
  split; [exact He|]. split; [exact Hf|].
  intros a s' p Hstep Hp.
  frame_step Hstep; chan_facts;
    cbn [ScanFolder.panic ScanFolder.step_other
         ScanFolder.with_ctxDone ScanFolder.with_paused ScanFolder.with_fileChan
         ScanFolder.with_resultChan ScanFolder.with_errChan
         ScanFolder.with_worker ScanFolder.with_sink ScanFolder.with_walker
         ScanFolder.with_waiter ScanFolder.with_main ScanFolder.with_scanned
         ScanFolder.with_panic ScanFolder.with_files ScanFolder.with_written]
      in Hp;
    try congruence;
    try (inversion Hp; subst p; clear Hp);
    try solve [ exfalso; intuition congruence ];
    try match goal with
        | H : negb (ScanFolder.connected _) && _ = true |- _ =>
            apply andb_true_iff in H; destruct H as [Hnil _];
            apply negb_true_iff in Hnil
        end;
    first [ right; auto; fail
          | left; (split; [assumption|]); eauto 10 ].
Qed.

(** A state a scan started on the sample database reaches by [acts]. *)
Definition reached (var : variant) (env : ScanFolder.Env)
    (acts : list ScanFolder.Action) : ScanFolder.State :=
  match ScanFolder.run var env acts (start_of var env) with
  | Some s => s
  | None => start_of var env
  end.

(** The folder of [one_file_env], scanned on a nil [*sql.DB]: Start was
    enabled by the resume dialog before any Connect. *)
Definition never_connected_env : ScanFolder.Env :=
  {| ScanFolder.fs := sample_fs;
     ScanFolder.tableName := "";
     ScanFolder.root := RootTree (Dir "/srv" None [ File "/srv/a.txt" ]);
     ScanFolder.connected := false |}.

(** The scan of one file up to the moment the stage finds [resultChan]
    closed with the record in its batch. *)
Definition before_final_flush : list ScanFolder.Action :=
  walk_one_file ++ work_one_file VariantB
  ++ [ ScanFolder.StepSink; ScanFolder.StepWaiter ].

Lemma panics_of_a_scan_witness :
  (ScanFolder.closed
     (ScanFolder.resultChan
        (reached VariantB never_connected_env before_final_flush)) = true
   /\ ((ScanFolder.StepSink = ScanFolder.StepSink
        /\ ScanFolder.sink (reached VariantB never_connected_env before_final_flush)
           = ScanFolder.SClose
        /\ ScanFolder.NilPointerDereference = ScanFolder.CloseOfClosedChannel)
       \/ (ScanFolder.StepSink = ScanFolder.StepWaiter
           /\ ScanFolder.NilPointerDereference = ScanFolder.CloseOfClosedChannel)
       \/ (exists i fileInfo,
             ScanFolder.StepSink = ScanFolder.StepWorker i
             /\ ScanFolder.workers
                  (reached VariantB never_connected_env before_final_flush) !! i
                = Some (ScanFolder.WForward fileInfo)
             /\ ScanFolder.NilPointerDereference
                = ScanFolder.SendOnClosedChannel)))
  \/ (ScanFolder.StepSink = ScanFolder.StepSink
      /\ ScanFolder.sink (reached VariantB never_connected_env before_final_flush)
         = ScanFolder.SRange
      /\ ScanFolder.connected never_connected_env = false
      /\ ScanFolder.NilPointerDereference = ScanFolder.NilPointerDereference).
Proof.
  refine (proj2 (proj2
    (panics_of_a_scan VariantB never_connected_env fresh_state
       (sample_db VariantB) before_final_flush
       (reached VariantB never_connected_env before_final_flush) _))
    ScanFolder.StepSink
    (reached VariantB never_connected_env
       (before_final_flush ++ [ScanFolder.StepSink]))
    ScanFolder.NilPointerDereference _ _).
  - vm_compute. reflexivity.
  - vm_compute. reflexivity.
  - vm_compute. reflexivity.
Defined.

(** ** The records between the workers and the batch stage *)

Lemma forwarded_app (a b : list Worker.Event) :
  Worker.forwarded (a ++ b) = Worker.forwarded a ++ Worker.forwarded b.
Proof. apply flat_map_app. Qed.

(** The records the workers have forwarded are, in the order of their
    sends, the ones the batch stage has received, then the ones still in
    [resultChan]; [taken] is the record the [select] of [scanFolder] took
    out of the channel, if it took one. *)
Definition record_inv (var : variant) (s : ScanFolder.State) : Prop :=
  exists pre post taken,
    Sink.received (Sink.trace (ScanFolder.sinkState s)) = pre ++ post
    /\ Worker.forwarded (ScanFolder.worked s)
       = pre ++ taken ++ post ++ ScanFolder.buf (ScanFolder.resultChan s)
    /\ (length taken <= 1)%nat
    /\ (taken <> [] ->
        var = VariantB /\ ScanFolder.main s = ScanFolder.MReturned None).

Ltac record_view :=
  cbn [ScanFolder.sinkState ScanFolder.worked ScanFolder.resultChan
       ScanFolder.main ScanFolder.step_other
       ScanFolder.with_ctxDone ScanFolder.with_paused ScanFolder.with_fileChan
       ScanFolder.with_resultChan ScanFolder.with_errChan
       ScanFolder.with_worker ScanFolder.with_sink ScanFolder.with_walker
       ScanFolder.with_waiter ScanFolder.with_main ScanFolder.with_scanned
       ScanFolder.with_panic ScanFolder.with_files ScanFolder.with_written
       ScanFolder.accepted Sink.trace].

Lemma record_inv_step var env a s s' :
  record_inv var s -> ScanFolder.step var env a s = Some s' -> record_inv var s'.
Proof.
  intros (pre & post & taken & Hr & Hf & Hlen & Htaken) Hstep.
  destruct a as [| b | i | | c | | c | o].
  - frame_step Hstep. exists pre, post, taken. record_view. auto.
  - frame_step Hstep. exists pre, post, taken. record_view. auto.
  - frame_step Hstep; chan_facts; exists pre, post, taken; record_view;
      rewrite ?forwarded_app; cbn [Worker.forwarded flat_map];
      rewrite ?app_nil_r;
      try (split; [exact Hr | split; [|split; assumption]]);
      try exact Hf; auto.
    match goal with
    | H : ScanFolder.buf _ = _ ++ [_] |- _ => rewrite H
    end.
    rewrite Hf, <- !app_assoc. reflexivity.
  - frame_step Hstep; chan_facts;
      repeat match goal with
        | H : Sink.receive _ _ _ _ _ = _ |- _ => apply receive_received in H
        | H : Sink.finish _ _ _ _ = _ |- _ => apply finish_received in H
        end;
      cbn [Sink.trace fst snd] in *.
    all: try (exists pre, post, taken; record_view;
              split; [congruence|]; split; [congruence|]; split; assumption).
    all: match goal with
         | H : ScanFolder.buf (ScanFolder.resultChan _) = ?r :: _ |- _ =>
             exists pre, (post ++ [r]), taken; record_view;
             rewrite ?received_app; cbn [Sink.received flat_map app];
             (split; [rewrite app_assoc; congruence|]);
             (split; [|split; assumption]);
             rewrite Hf, H, <- !app_assoc; reflexivity
         end.
  - frame_step Hstep; chan_facts; exists pre, post, taken; record_view;
      auto.
  - frame_step Hstep; chan_facts; exists pre, post, taken; record_view;
      (split; [exact Hr|]; split; [congruence|]; split; assumption).
  - assert (Hnone : ScanFolder.main s = ScanFolder.MSelect -> taken = []).
    { intros Hm. destruct taken as [|x rest]; [reflexivity|].
      destruct Htaken as [_ Hret]; [discriminate | congruence]. }
    frame_step Hstep; chan_facts;
      try (exists pre, post, taken; record_view;
           split; [exact Hr|]; split; [exact Hf|]; split; [exact Hlen|];
           intros Hne; exfalso; apply Hne; apply Hnone;
           first [assumption | reflexivity]).
    rewrite (Hnone ltac:(first [assumption | reflexivity])) in Hf.
    match goal with
    | H : ScanFolder.buf (ScanFolder.resultChan _) = ?r :: _ |- _ =>
        exists (pre ++ post), [], [r]; record_view;
        (split; [rewrite app_nil_r; exact Hr|]);
        (split; [|split; [simpl; lia | auto]]);
        rewrite Hf, H, <- !app_assoc; reflexivity
    end.
  - frame_step Hstep; exists pre, post, taken; record_view; auto.
Qed.

Lemma record_inv_run var env scanState d acts :
  forall s,
    ScanFolder.run var env acts (ScanFolder.init var env scanState d) = Some s ->
    record_inv var s.
Proof.
  assert (Hinit : record_inv var (ScanFolder.init var env scanState d)).
  { exists [], [], []. simpl. split; [reflexivity|]. split; [reflexivity|].
    split; [lia|]. intros Hne. exfalso. apply Hne. reflexivity. }
  revert Hinit. generalize (ScanFolder.init var env scanState d).
  induction acts as [|a acts IH]; intros s0 Hinit s Hrun; simpl in Hrun.
  - inversion Hrun; subst. exact Hinit.
  - destruct (ScanFolder.step var env a s0) as [s1|] eqn:Hstep; [|discriminate].
    apply (IH s1); [|exact Hrun]. apply (record_inv_step _ _ _ _ _ Hinit Hstep).
Qed.

(** In every state a scan can reach, whatever the interleaving, no record
    is lost or repeated between the workers and the batch stage but the one
    the [select] of [scanFolder] may take.  In VariantA the records the
    workers have forwarded are exactly, in order, the records the stage has
    received followed by those waiting in [resultChan].  In VariantB the
    same holds but for at most one record, which is missing from the
    stage's side only when [scanFolder] has returned nil. *)
Theorem forwarded_records_reach_the_stage :
  forall var env scanState d acts s,
    ScanFolder.run var env acts (ScanFolder.init var env scanState d) = Some s ->
    let forwarded := Worker.forwarded (ScanFolder.worked s) in
    let received := Sink.received (Sink.trace (ScanFolder.sinkState s)) in
    let waiting := ScanFolder.buf (ScanFolder.resultChan s) in
    (var = VariantA -> forwarded = received ++ waiting)
    /\ (ScanFolder.main s <> ScanFolder.MReturned None ->
        forwarded = received ++ waiting)
    /\ exists pre post taken,
         received = pre ++ post
         /\ forwarded = pre ++ taken ++ post ++ waiting
         /\ (length taken <= 1)%nat.
Proof.
  intros var env scanState d acts s Hrun forwarded received waiting.
  subst forwarded received waiting.
  destruct (record_inv_run var env scanState d acts s Hrun)
    as (pre & post & taken & Hr & Hf & Hlen & Htaken).
  assert (Hall : taken = [] ->
            Worker.forwarded (ScanFolder.worked s)
            = Sink.received (Sink.trace (ScanFolder.sinkState s))
              ++ ScanFolder.buf (ScanFolder.resultChan s)).
  { intros ->. rewrite Hf, Hr, <- app_assoc. reflexivity. }
  split; [|split].
  - intros Hvar. apply Hall. destruct taken as [|x rest]; [reflexivity|].
    destruct Htaken as [Hb _]; [discriminate | congruence].
  - intros Hmain. apply Hall. destruct taken as [|x rest]; [reflexivity|].
    destruct Htaken as [_ Hm]; [discriminate | contradiction].
  - exists pre, post, taken. auto.
Qed.

(** The walker sends both paths of [two_files_env] and closes
    [fileChan]; worker 0 takes the first path, worker 1 takes the second,
    extracts its record and forwards it. *)
Definition second_file_forwarded : list ScanFolder.Action :=
  repeat (ScanFolder.StepWalker Walker.Send) 5
  ++ [ ScanFolder.StepWorker 0; ScanFolder.StepWorker 1;
       ScanFolder.StepWorker 1; ScanFolder.StepWorker 1 ].

Lemma forwarded_records_reach_the_stage_witness :
  Worker.forwarded
    (ScanFolder.worked (reached VariantA two_files_env second_file_forwarded))
  = Sink.received
      (Sink.trace (ScanFolder.sinkState
         (reached VariantA two_files_env second_file_forwarded)))
    ++ ScanFolder.buf
         (ScanFolder.resultChan
            (reached VariantA two_files_env second_file_forwarded)).
Proof.
  refine (proj1
    (forwarded_records_reach_the_stage VariantA two_files_env fresh_state
       (sample_db VariantA) second_file_forwarded
       (reached VariantA two_files_env second_file_forwarded) _) eq_refl).
  vm_compute. reflexivity.
Defined.

(** ** The scanned counter *)

Definition is_Scanned (ev : Worker.Event) : bool :=
  match ev with
  | Worker.Scanned => true
  | _ => false
  end.

Definition is_WCount (pc : ScanFolder.WorkerPc) : bool :=
  match pc with
  | ScanFolder.WCount => true
  | _ => false
  end.

(** The number of counter updates the workers have made. *)
Definition counted (evs : list Worker.Event) : nat :=
  length (List.filter is_Scanned evs).

(** The number of workers between their send and their counter update. *)
Definition uncounted (ws : list ScanFolder.WorkerPc) : nat :=
  length (List.filter is_WCount ws).

Lemma counted_app (a b : list Worker.Event) :
  counted (a ++ b) = (counted a + counted b)%nat.
Proof. unfold counted. rewrite List.filter_app, length_app. reflexivity. Qed.

Lemma uncounted_insert (ws : list ScanFolder.WorkerPc) :
  forall i old pc,
    ws !! i = Some old ->
    (uncounted (<[i := pc]> ws) + Nat.b2n (is_WCount old)
     = uncounted ws + Nat.b2n (is_WCount pc))%nat.
Proof.
  unfold uncounted.
  induction ws as [|w rest IH]; intros i old pc Hl; [discriminate|].
  destruct i as [|i]; simpl in Hl.
  - inversion Hl; subst. simpl.
    destruct (is_WCount old), (is_WCount pc); simpl; lia.
  - specialize (IH i old pc Hl). simpl.
    destruct (is_WCount w); simpl; lia.
Qed.

Lemma uncounted_le (ws : list ScanFolder.WorkerPc) :
  (uncounted ws <= length ws)%nat.
Proof. unfold uncounted. apply List.filter_length_le. Qed.

(** [quiet]: no goroutine outside the scan has written
    [totalFilesScanned]. *)
Record count_inv (quiet : bool) (var : variant) (s : ScanFolder.State)
  : Prop := {
  inv_workers : length (ScanFolder.workers s) = numWorkers var;
  inv_counter :
    quiet = true ->
    ScanFolder.totalFilesScanned s
    = wrap64 (Z.of_nat (counted (ScanFolder.worked s)));
  inv_lag :
    length (Worker.forwarded (ScanFolder.worked s))
    = (counted (ScanFolder.worked s) + uncounted (ScanFolder.workers s))%nat }.

Ltac count_view :=
  cbn [ScanFolder.workers ScanFolder.worked ScanFolder.totalFilesScanned
       ScanFolder.step_other
       ScanFolder.with_ctxDone ScanFolder.with_paused ScanFolder.with_fileChan
       ScanFolder.with_resultChan ScanFolder.with_errChan
       ScanFolder.with_worker ScanFolder.with_sink ScanFolder.with_walker
       ScanFolder.with_waiter ScanFolder.with_main ScanFolder.with_scanned
       ScanFolder.with_panic ScanFolder.with_files ScanFolder.with_written].

Lemma count_inv_step quiet var env a s s' :
  count_inv quiet var s ->
  (quiet = true -> writes_scanned a = false) ->
  ScanFolder.step var env a s = Some s' -> count_inv quiet var s'.
Proof.
  intros [Hw Hc Hl] Hquiet Hstep.
  destruct a as [| b | i | | c | | c | o];
    try (frame_step Hstep; split; count_view; assumption).
  - frame_step Hstep;
      try (split; count_view; assumption);
      match goal with
      | H : ScanFolder.workers _ !! _ = Some ?old
        |- count_inv _ _ (ScanFolder.with_worker ?j ?pc _ _) =>
          pose proof (uncounted_insert _ _ _ pc H) as Hins; simpl in Hins
      end;
      split; count_view;
      rewrite ?length_insert, ?counted_app, ?forwarded_app, ?length_app;
      cbn [counted Worker.forwarded flat_map List.filter is_Scanned length app];
      try assumption; try lia;
      intros Hq; rewrite ?(Hc Hq), ?AddInt64_wrap; try assumption;
      f_equal; lia.
  - unfold ScanFolder.step in Hstep.
    destruct (ScanFolder.panic s); [discriminate|].
    inversion Hstep; subst; clear Hstep.
    destruct o; split; count_view; try assumption;
      intros Hq; specialize (Hquiet Hq); discriminate.
Qed.

Lemma count_inv_run quiet var env scanState d acts :
  forall s,
    (quiet = true -> forallb (fun a => negb (writes_scanned a)) acts = true) ->
    ScanFolder.run var env acts (ScanFolder.init var env scanState d) = Some s ->
    count_inv quiet var s.
Proof.
  assert (Hinit : count_inv quiet var (ScanFolder.init var env scanState d)).
  { split; simpl; [apply repeat_length | reflexivity |].
    unfold uncounted. induction (numWorkers var); [reflexivity | assumption]. }
  revert Hinit. generalize (ScanFolder.init var env scanState d).
  induction acts as [|a acts IH]; intros s0 Hinit s Hquiet Hrun; simpl in Hrun.
  - inversion Hrun; subst. exact Hinit.
  - destruct (ScanFolder.step var env a s0) as [s1|] eqn:Hstep; [|discriminate].
    apply (IH s1); [| |exact Hrun].
    + apply (count_inv_step quiet var env a s0 s1 Hinit); [|exact Hstep].
      intros Hq. specialize (Hquiet Hq). simpl in Hquiet.
      apply andb_true_iff in Hquiet. destruct Hquiet as [Ha _].
      apply negb_true_iff in Ha. exact Ha.
    + intros Hq. specialize (Hquiet Hq). simpl in Hquiet.
      apply andb_true_iff in Hquiet. apply Hquiet.
Qed.

Lemma all_done_uncounted (ws : list ScanFolder.WorkerPc) :
  ScanFolder.all_done ws = true -> uncounted ws = 0%nat.
Proof.
  unfold ScanFolder.all_done, uncounted.
  induction ws as [|w rest IH]; [reflexivity|]. simpl.
  destruct w; simpl; try discriminate. exact IH.
Qed.

(** In every state a scan can reach, whatever the interleaving and
    whatever goroutines outside the scan do: each counter update of a worker
    follows a record it forwarded, so the updates the workers have made
    never outnumber the records forwarded to the batch stage and lag behind
    them by at most one per worker; once every worker has returned, they
    are as many as the forwarded records.  [totalFilesScanned] is a package
    variable: when no goroutine outside the scan has written it since the
    scan reset it, it holds the number of updates made (as an [int64]), and
    so, once every worker has returned, the number of forwarded records. *)
Theorem scanned_counter_follows_forwarded :
  forall var env scanState d acts s,
    ScanFolder.run var env acts (ScanFolder.init var env scanState d) = Some s ->
    let forwarded := length (Worker.forwarded (ScanFolder.worked s)) in
    let updates := counted (ScanFolder.worked s) in
    (updates <= forwarded)%nat
    /\ (forwarded <= updates + numWorkers var)%nat
    /\ (ScanFolder.all_done (ScanFolder.workers s) = true -> updates = forwarded)
    /\ (forallb (fun a => negb (writes_scanned a)) acts = true ->
        ScanFolder.totalFilesScanned s = wrap64 (Z.of_nat updates)
        /\ (ScanFolder.all_done (ScanFolder.workers s) = true ->
            ScanFolder.totalFilesScanned s = wrap64 (Z.of_nat forwarded))).
Proof.
  intros var env scanState d acts s Hrun forwarded updates.
  subst forwarded updates.
  destruct (count_inv_run false var env scanState d acts s
              ltac:(discriminate) Hrun) as [Hw _ Hl].
  pose proof (uncounted_le (ScanFolder.workers s)) as Hle.
  split; [lia|]. split; [lia|]. split.
  - intros Hdone. rewrite Hl, (all_done_uncounted _ Hdone). lia.
  - intros Hquiet.
    destruct (count_inv_run true var env scanState d acts s
                (fun _ => Hquiet) Hrun) as [_ Hc _].
    split; [exact (Hc eq_refl)|].
    intros Hdone. rewrite (Hc eq_refl), Hl, (all_done_uncounted _ Hdone),
      Nat.add_0_r. reflexivity.
Qed.

Lemma scanned_counter_follows_forwarded_witness :
  ScanFolder.totalFilesScanned (reached VariantB one_file_env one_file_scan)
  = wrap64 (Z.of_nat (length (Worker.forwarded
      (ScanFolder.worked (reached VariantB one_file_env one_file_scan))))).
Proof.
  refine (proj2
    (proj2 (proj2 (proj2
       (scanned_counter_follows_forwarded VariantB one_file_env fresh_state
          (sample_db VariantB) one_file_scan
          (reached VariantB one_file_env one_file_scan) _))) _) _).
  - vm_compute. reflexivity.
  - vm_compute. reflexivity.
  - vm_compute. reflexivity.
Defined.

(** ** The pipeline lemmas on sample scans *)

(** The walk of [locked_env] fails at the unreadable directory, and
    [scanFolder] takes the error from [errChan]. *)
Definition walk_error_returned : list ScanFolder.Action :=
  repeat (ScanFolder.StepWalker Walker.Send) 3
  ++ [ ScanFolder.StepMain ScanFolder.OnErr ].

Lemma variantA_never_returns_nil_witness :
  ScanFolder.main (reached VariantA locked_env walk_error_returned)
  <> ScanFolder.MReturned None.
Proof.
  refine (variantA_never_returns_nil locked_env fresh_state (sample_db VariantA)
            walk_error_returned
            (reached VariantA locked_env walk_error_returned) _).
  vm_compute. reflexivity.
Defined.


Lemma pipeline_walker_never_reemits_witness :
  List.NoDup (Walker.emitted (ScanFolder.walked
                (reached VariantA two_files_env second_file_forwarded))).
Proof.
  refine (proj2
    (pipeline_walker_never_reemits VariantA two_files_env fresh_state
       (sample_db VariantA) second_file_forwarded
       (reached VariantA two_files_env second_file_forwarded) _)).
  vm_compute. reflexivity.
Defined.
